(** * Legacy partition expansion (parse_partition_gp.c)

    A shallow embedding of the routines of
    [src/backend/parser/parse_partition_gp.c] that expand the legacy
    [START/END/EVERY], [VALUES] and [DEFAULT PARTITION] syntax into a list of
    [CreateStmt]s, together with the properties of the bound iterator, the
    bound comparator, the implicit-bound walk and the column-encoding merge.

    Conventions of the embedding
    - a [Datum] is abstract; the catalog supplies its comparison support
      function and its [+] operator (record [Catalog]);
    - a PostgreSQL [List *] is a Rocq [list]; [NIL] and [NULL] are [[]];
    - a nullable [char *] is an [option string];
    - [ereport(ERROR, ...)] and [elog(ERROR, ...)] are the [Err] results of
      the error monad [Res];
    - the [while (nextPartBound(iter))] loop is driven by a fuel argument;
    - [list_qsort] lives in the list library and is a field of [Catalog];
      the examples run with an insertion sort, and the keys they sort are
      ordered the same way by any comparison sort. *)

From Stdlib Require Import ZArith List String Bool Lia Permutation.
From Stdlib Require Import DecimalString.
Import ListNotations.
Local Open Scope string_scope.
Local Open Scope list_scope.
Local Open Scope Z_scope.

Set Implicit Arguments.

(** ** Errors *)

Inductive PartError : Type :=
| MissingBoundarySpecification   (* missing boundary specification in partition *)
| InvalidBoundarySpecification   (* invalid boundary specification for RANGE/LIST partition *)
| MultiColumnRangeUnsupported    (* too many columns for RANGE partition *)
| InvalidNumberOfStartValues     (* invalid number of start values *)
| InvalidNumberOfEndValues       (* invalid number of end values *)
| InvalidNumberOfEveryValues     (* invalid number of every values *)
| NullBoundaryValue              (* cannot use NULL with range partition specification *)
| EveryRequiresStartEnd          (* EVERY clause requires START and END *)
| PlusOperatorReturnedNull       (* plus-operator returned NULL *)
| NonMonotonicStep               (* EVERY parameter too small *)
| RangeOverflow                  (* END parameter not reached before type overflows *)
| InvalidBoundaryArity           (* VALUES specification with more than one column not allowed *)
| InvalidTablenameSpecification  (* invalid tablename specification *)
| MultipleDefaultEncodings       (* DEFAULT COLUMN ENCODING clause specified more than once *)
| MultipleDefaultPartitions      (* multiple default partitions are not allowed *)
| NoPartitionsAtDepth            (* no partitions specified at depth %d *)
| UnsupportedStrategy            (* Not supported partition strategy *)
| CollaboratorError (msg : string) (* an error raised inside a catalog routine *)
| InvalidMemoryAccess            (* a read through a missing list cell or a node of the wrong tag *)
| OutOfFuel.                     (* the model's loop budget ran out; not a C outcome *)

Inductive Res (A : Type) : Type :=
| Ok (a : A)
| Err (e : PartError).

Arguments Ok {A} a.
Arguments Err {A} e.

Definition bind {A B : Type} (r : Res A) (k : A -> Res B) : Res B :=
  match r with
  | Ok a => k a
  | Err e => Err e
  end.

Declare Scope res_scope.
Delimit Scope res_scope with res.
Notation "x <- r ;; k" := (bind r (fun x => k))
  (at level 61, r at next level, right associativity) : res_scope.
Notation "' pat <- r ;; k" := (bind r (fun x => match x with pat => k end))
  (at level 61, pat pattern, r at next level, right associativity) : res_scope.
Local Open Scope res_scope.

(** ** Parse-tree nodes *)

(** A raw expression as the grammar leaves it in a START, END, EVERY or VALUES
    clause.  [A_Const_Integer] is the [A_Const] with a [T_Integer] value that
    [canonicalizeRangeEnd] builds; any other expression is kept by its text. *)
Inductive RawExpr : Type :=
| A_Const_Integer (ival : Z)
| RawText (text : string).

Inductive PartitionEdge : Type := PART_EDGE_UNSPECIFIED | PART_EDGE_INCLUSIVE | PART_EDGE_EXCLUSIVE.

Record GpPartitionRangeItem : Type := {
  val : list RawExpr;
  edge : PartitionEdge
}.

Record GpPartitionRangeSpec : Type := {
  partStart : option GpPartitionRangeItem;
  partEnd : option GpPartitionRangeItem;
  partEvery : list RawExpr
}.

Record GpPartitionListSpec : Type := {
  partValues : list (list RawExpr)
}.

(** [elem->boundSpec]: a node that is a range spec, a list spec, or something
    else ([IsA] fails for both). *)
Inductive BoundSpecNode : Type :=
| T_GpPartitionRangeSpec (r : GpPartitionRangeSpec)
| T_GpPartitionListSpec (l : GpPartitionListSpec)
| T_OtherBoundSpec.

(** A [DefElem] of a WITH clause; [arg] is a [String] node or not. *)
Inductive DefArg : Type :=
| T_String (s : string)
| T_OtherArg (text : string).

Record DefElem : Type := {
  defname : string;
  arg : DefArg
}.

Record ColumnReferenceStorageDirective : Type := {
  column : string;             (* read only when [deflt] is false, where the
                                  grammar always sets it *)
  deflt : bool;
  encoding : list DefElem
}.

Inductive PartitionStrategy : Type :=
| PARTITION_STRATEGY_RANGE
| PARTITION_STRATEGY_LIST
| PARTITION_STRATEGY_HASH.

Record PartitionKeyData : Type := {
  strategy : PartitionStrategy;
  partnatts : nat
}.

Section Expansion.

(** The partition column's value type. *)
Variable Datum : Type.

(** A cell of [lowerdatums], [upperdatums] or [listdatums]: a [Const] made by
    [makeConst], the [ColumnRef] that stands for minvalue or maxvalue, or an
    untransformed expression. *)
Inductive Node : Type :=
| T_Const (constvalue : Datum) (constisnull : bool)
| T_ColumnRef (fields : list string)
| T_RawExpr (e : RawExpr).

Record PartitionBoundSpec : Type := {
  bound_strategy : option PartitionStrategy;
  is_default : bool;
  listdatums : list Node;
  lowerdatums : list Node;
  upperdatums : list Node
}.

(** The nested sub-partition definition is carried along, never expanded at
    this level. *)
Variable SubPartDef : Type.

Record PartitionSpec : Type := {
  gpPartDef : option SubPartDef
}.

Record GpPartDefElem : Type := {
  partName : option string;
  boundSpec : option BoundSpecNode;
  subSpec : option SubPartDef;
  isDefault : bool;
  options : list DefElem;
  accessMethod : option string;
  tablespacename : option string;
  colencs : list ColumnReferenceStorageDirective
}.

(** A cell of [gpPartSpec->partDefElems] or of [parentattenc]. *)
Inductive DefItem : Type :=
| T_GpPartDefElem (e : GpPartDefElem)
| T_ColumnReferenceStorageDirective (c : ColumnReferenceStorageDirective)
| T_OtherItem.

Record CreateStmt : Type := {
  relation : string;                 (* childrv->relname *)
  inhRelations : list string;        (* the parent's name *)
  partbound : PartitionBoundSpec;
  partspec : option PartitionSpec;
  stmt_options : list DefElem;
  stmt_tablespacename : option string;
  stmt_accessMethod : option string;
  attr_encodings : list ColumnReferenceStorageDirective
}.

(** What the routines outside this file provide: the catalog, the
    expression parser and executor, the name chooser and the list sort. *)
Record Catalog : Type := {
  (* (Datum) 0 *)
  zeroDatum : Datum;
  (* FunctionCall2Coll(&partsupfunc[i], partcollation[i], a, b) as an int32 *)
  partsupfunc : nat -> Datum -> Datum -> Z;
  (* transformPartitionBoundValue: the Const (value, isnull) of a literal *)
  transformPartitionBoundValue : RawExpr -> Res (Datum * bool);
  (* initPlusExprState, which is make_op, the collation check,
     coerce_to_target_type and ExecInitExprWithParams, any of which may
     raise an error; the state it returns, run by ExecEvalExprSwitchContext,
     maps the bound parameter to the value of "param + interval": an
     error raised by the operator, None for a NULL result, or a value *)
  initPlusExprState : RawExpr -> Res (Datum -> Res (option Datum));
  (* transformPartitionBound, used for LIST bounds *)
  transformPartitionBound : PartitionBoundSpec -> Res PartitionBoundSpec;
  (* makeObjectName(relname, levelstr, partsubstring) *)
  makeObjectName : string -> string -> string -> string;
  (* ChooseRelationName(relname, levelstr, partsubstring, namespace, false) *)
  ChooseRelationName : string -> string -> string -> string;
  (* list_qsort(list, cmp, arg); the comparator may fault *)
  list_qsort : (CreateStmt -> CreateStmt -> Res Z) -> list CreateStmt -> Res (list CreateStmt)
}.

Variable cat : Catalog.

(** [gpPartDef->istemplate] of a nested definition. *)
Variable istemplate : SubPartDef -> bool.

(** ** qsort_stmt_cmp *)

(** [lfirst(list_nth_cell(l, i))->constvalue]. *)
Definition nth_constvalue (l : list Node) (i : nat) : Res Datum :=
  match nth_error l i with
  | Some (T_Const v _) => Ok v
  | _ => Err InvalidMemoryAccess
  end.

(** The loop [for (i = 0; i < partnatts; i++)] shared by the four branches:
    [todo] columns remain, starting at column [i]; the result is the final
    [cmpval], 0 when no column differs. *)
Fixpoint compare_columns (b1datums b2datums : list Node) (i todo : nat) : Res Z :=
  match todo with
  | O => Ok 0
  | S todo' =>
      b1datum <- nth_constvalue b1datums i ;;
      b2datum <- nth_constvalue b2datums i ;;
      let cmpval := partsupfunc cat i b1datum b2datum in
      if cmpval =? 0 then compare_columns b1datums b2datums (S i) todo'
      else Ok cmpval
  end.

Definition not_null {A : Type} (l : list A) : bool :=
  match l with [] => false | _ :: _ => true end.

Definition qsort_stmt_cmp (partKey : PartitionKeyData) (b1cstmt b2cstmt : CreateStmt) : Res Z :=
  let b1 := partbound b1cstmt in
  let b2 := partbound b2cstmt in
  let n := partnatts partKey in
  let b1lowerdatums := lowerdatums b1 in
  let b2lowerdatums := lowerdatums b2 in
  let b1upperdatums := upperdatums b1 in
  let b2upperdatums := upperdatums b2 in
  (* Sort DEFAULT partitions last *)
  if negb (Bool.eqb (is_default b1) (is_default b2)) then
    if is_default b2 then Ok 1 else Ok (-1)
  else if not_null b1lowerdatums && not_null b2lowerdatums then
    compare_columns b1lowerdatums b2lowerdatums 0 n
  else if not_null b1upperdatums && not_null b2upperdatums then
    compare_columns b1upperdatums b2upperdatums 0 n
  else if not_null b1lowerdatums && not_null b2upperdatums then
    cmpval <- compare_columns b1lowerdatums b2upperdatums 0 n ;;
    Ok (if cmpval =? 0 then 1 else cmpval)
  else if not_null b1upperdatums && not_null b2lowerdatums then
    compare_columns b1upperdatums b2lowerdatums 0 n
  else Ok 0.

(** ** deduceImplicitRangeBounds *)

Definition minvalue : Node := T_ColumnRef ["minvalue"].
Definition maxvalue : Node := T_ColumnRef ["maxvalue"].

Definition set_lowerdatums (l : list Node) (b : PartitionBoundSpec) : PartitionBoundSpec :=
  {| bound_strategy := bound_strategy b; is_default := is_default b;
     listdatums := listdatums b; lowerdatums := l; upperdatums := upperdatums b |}.

Definition set_upperdatums (u : list Node) (b : PartitionBoundSpec) : PartitionBoundSpec :=
  {| bound_strategy := bound_strategy b; is_default := is_default b;
     listdatums := listdatums b; lowerdatums := lowerdatums b; upperdatums := u |}.

Definition set_partbound (b : PartitionBoundSpec) (s : CreateStmt) : CreateStmt :=
  {| relation := relation s; inhRelations := inhRelations s; partbound := b;
     partspec := partspec s; stmt_options := stmt_options s;
     stmt_tablespacename := stmt_tablespacename s;
     stmt_accessMethod := stmt_accessMethod s;
     attr_encodings := attr_encodings s |}.

(** One iteration of the [foreach(lc, stmts)] body: [prevstmt] is the
    statement already rewritten by the previous iteration, [next] the
    statement of [lc->next], not yet visited. *)
Definition deduce_step (prevstmt : option CreateStmt) (stmt : CreateStmt)
    (next : option CreateStmt) : CreateStmt :=
  let b := partbound stmt in
  let b :=
    if not_null (lowerdatums b) then b
    else match prevstmt with
         | Some p => set_lowerdatums (upperdatums (partbound p)) b
         | None => set_lowerdatums [minvalue] b
         end in
  let b :=
    if not_null (upperdatums b) then b
    else match next with
         | Some nextstmt => set_upperdatums (lowerdatums (partbound nextstmt)) b
         | None => set_upperdatums [maxvalue] b
         end in
  set_partbound b stmt.

Fixpoint deduce_walk (prevstmt : option CreateStmt) (stmts : list CreateStmt)
    : list CreateStmt :=
  match stmts with
  | [] => []
  | stmt :: rest =>
      let stmt' := deduce_step prevstmt stmt (hd_error rest) in
      stmt' :: deduce_walk (Some stmt') rest
  end.

Definition deduceImplicitRangeBounds (origstmts : list CreateStmt) (key : PartitionKeyData)
    : Res (list CreateStmt) :=
  stmts <- list_qsort cat (qsort_stmt_cmp key) origstmts ;;
  Ok (deduce_walk None stmts).

(** ** The START/END/EVERY iterator *)

Record PartEveryIterator : Type := {
  endVal : Datum;
  plusexprstate : option (Datum -> Res (option Datum));
  currStart : Datum;
  currEnd : Datum;
  called : bool;
  endReached : bool
}.

(** Canonicalize the end bound: an inclusive value becomes the exclusive
    value "end + 1", computed by the plus expression built for the integer
    constant 1. *)
Definition canonicalizeRangeEnd (endConst : Datum) (endIncl : bool) : Res Datum :=
  if negb endIncl then Ok endConst
  else
    plusexpr <- initPlusExprState cat (A_Const_Integer 1) ;;
    evaluated <- plusexpr endConst ;;
    match evaluated with
    | None => Err PlusOperatorReturnedNull
    | Some endplusone => Ok endplusone
    end.

Definition initPartEveryIterator (start end_ : option RawExpr) (endIncl : bool)
    (every : option RawExpr) : Res PartEveryIterator :=
  startVal <-
    match start with
    | Some s =>
        '(constvalue, constisnull) <- transformPartitionBoundValue cat s ;;
        if (constisnull : bool) then Err NullBoundaryValue else Ok constvalue
    | None => Ok (zeroDatum cat)
    end ;;
  endVal <-
    match end_ with
    | Some e =>
        '(constvalue, constisnull) <- transformPartitionBoundValue cat e ;;
        if (constisnull : bool) then Err NullBoundaryValue
        else canonicalizeRangeEnd constvalue endIncl
    | None => Ok (zeroDatum cat)
    end ;;
  plusexpr <-
    match every with
    | Some ev =>
        match start, end_ with
        | Some _, Some _ => st <- initPlusExprState cat ev ;; Ok (Some st)
        | _, _ => Err EveryRequiresStartEnd
        end
    | None => Ok None
    end ;;
  Ok {| endVal := endVal; plusexprstate := plusexpr;
        currStart := zeroDatum cat; currEnd := startVal;
        called := false; endReached := false |}.

(** Return the next partition bound: [Ok (true, iter')] when [iter'] holds a
    new pair in [currStart], [currEnd]; [Ok (false, iter')] when the
    iteration is over. *)
Definition nextPartBound (iter : PartEveryIterator) : Res (bool * PartEveryIterator) :=
  let firstcall := negb (called iter) in
  match plusexprstate iter with
  | Some plusexpr =>
      (* If the previous partition reached END, we're done *)
      if endReached iter then
        Ok (false, {| endVal := endVal iter; plusexprstate := plusexprstate iter;
                      currStart := currStart iter; currEnd := currEnd iter;
                      called := true; endReached := endReached iter |})
      else
        match plusexpr (currEnd iter) with
        | Err e => Err e
        | Ok None => Err PlusOperatorReturnedNull
        | Ok (Some next) =>
            (* Is the next bound greater than END? *)
            let cmpval := partsupfunc cat 0 next (endVal iter) in
            if cmpval >=? 0 then
              Ok (true, {| endVal := endVal iter; plusexprstate := plusexprstate iter;
                           currStart := currEnd iter; currEnd := endVal iter;
                           called := true; endReached := true |})
            else
              (* Sanity check that the next bound is > previous bound *)
              let cmpval := partsupfunc cat 0 (currEnd iter) next in
              if cmpval >=? 0 then
                if firstcall then Err NonMonotonicStep else Err RangeOverflow
              else
                Ok (true, {| endVal := endVal iter; plusexprstate := plusexprstate iter;
                             currStart := currEnd iter; currEnd := next;
                             called := true; endReached := endReached iter |})
        end
  | None =>
      (* Without EVERY, create just one partition that covers the whole range *)
      if negb firstcall then
        Ok (false, {| endVal := endVal iter; plusexprstate := plusexprstate iter;
                      currStart := currStart iter; currEnd := currEnd iter;
                      called := true; endReached := endReached iter |})
      else
        Ok (true, {| endVal := endVal iter; plusexprstate := plusexprstate iter;
                     currStart := currEnd iter; currEnd := endVal iter;
                     called := true; endReached := endReached iter |})
  end.

(** ** Names and child statements *)

Definition NAMEDATALEN : nat := 64.

(** [snprintf(buf, NAMEDATALEN, ...)] keeps at most [NAMEDATALEN - 1] bytes. *)
Definition snprintf_name (s : string) : string :=
  String.substring 0 (NAMEDATALEN - 1) s.

(** The "%d" conversion. *)
Definition format_int (n : Z) : string := NilEmpty.string_of_int (Z.to_int n).

Record partname_comp : Type := {
  tablename : option string;
  level : Z;
  partnum : Z
}.

Definition ChoosePartitionName (parentname levelstr : string) (partname : option string)
    (partnum : Z) : string :=
  match partname with
  | Some pn => makeObjectName cat parentname levelstr (snprintf_name ("prt_" ++ pn)%string)
  | None =>
      ChooseRelationName cat parentname levelstr (snprintf_name ("prt_" ++ format_int partnum)%string)
  end.

Definition makePartitionCreateStmt (parentname : string) (partname : option string)
    (boundspec : PartitionBoundSpec) (subPart : option PartitionSpec)
    (elem : GpPartDefElem) (partnamecomp : partname_comp)
    : CreateStmt * partname_comp :=
  let levelStr := snprintf_name (format_int (level partnamecomp)) in
  let '(final_part_name, partnamecomp') :=
    match tablename partnamecomp with
    | Some t => (t, partnamecomp)
    | None =>
        let n := partnum partnamecomp + 1 in
        (ChoosePartitionName parentname levelStr partname n,
         {| tablename := tablename partnamecomp; level := level partnamecomp;
            partnum := n |})
    end in
  ({| relation := final_part_name;
      inhRelations := [parentname];
      partbound := boundspec;
      partspec := subPart;
      stmt_options := options elem;
      stmt_tablespacename := tablespacename elem;
      stmt_accessMethod := accessMethod elem;
      attr_encodings := colencs elem |},
   partnamecomp').

(** ** generateRangePartitions *)

Definition range_boundspec (has_start has_end : bool) (iter : PartEveryIterator)
    : PartitionBoundSpec :=
  {| bound_strategy := Some PARTITION_STRATEGY_RANGE;
     is_default := false;
     listdatums := [];
     lowerdatums := if has_start then [T_Const (currStart iter) false] else [];
     upperdatums := if has_end then [T_Const (currEnd iter) false] else [] |}.

(** The name handed to [makePartitionCreateStmt] and the counter [i] after
    it: under EVERY a named element gets "name_<++i>". *)
Definition range_partname (has_every : bool) (elem : GpPartDefElem) (i : Z)
    : option string * Z :=
  match has_every, partName elem with
  | true, Some pn => (Some (snprintf_name (pn ++ "_" ++ format_int (i + 1))%string), i + 1)
  | _, _ => (partName elem, i)
  end.

(** The loop [while (nextPartBound(boundIter))]. *)
Fixpoint range_loop (fuel : nat) (parentname : string) (elem : GpPartDefElem)
    (subPart : option PartitionSpec) (has_start has_end has_every : bool)
    (boundIter : PartEveryIterator) (i : Z) (partnamecomp : partname_comp)
    (result : list CreateStmt) : Res (list CreateStmt * partname_comp) :=
  match fuel with
  | O => Err OutOfFuel
  | S fuel' =>
      '(more, boundIter') <- nextPartBound boundIter ;;
      if (more : bool) then
        let boundspec := range_boundspec has_start has_end boundIter' in
        let named := range_partname has_every elem i in
        let made :=
          makePartitionCreateStmt parentname (fst named) boundspec subPart elem
                                  partnamecomp in
        range_loop fuel' parentname elem subPart has_start has_end has_every
                   boundIter' (snd named) (snd made) (result ++ [fst made])
      else Ok (result, partnamecomp)
  end.

Definition is_some {A : Type} (o : option A) : bool :=
  match o with Some _ => true | None => false end.

(** [linitial] of a list whose length was checked against [partnatts]. *)
Definition checked_linitial (partkey : PartitionKeyData) (l : list RawExpr)
    (e : PartError) : Res (option RawExpr) :=
  if negb (Nat.eqb (List.length l) (partnatts partkey)) then Err e
  else Ok (hd_error l).

(** [start], then [end] and [endIncl], then [every], as the three [if]
    blocks of [generateRangePartitions] set them. *)
Definition range_start (partkey : PartitionKeyData) (boundspec : GpPartitionRangeSpec)
    : Res (option RawExpr) :=
  match partStart boundspec with
  | Some item => checked_linitial partkey (val item) InvalidNumberOfStartValues
  | None => Ok None
  end.

Definition range_end (partkey : PartitionKeyData) (boundspec : GpPartitionRangeSpec)
    : Res (option RawExpr * bool) :=
  match partEnd boundspec with
  | Some item =>
      e <- checked_linitial partkey (val item) InvalidNumberOfEndValues ;;
      Ok (e, match edge item with PART_EDGE_INCLUSIVE => true | _ => false end)
  | None => Ok (None, false)
  end.

(** A tablename makes the EVERY clause ignored. *)
Definition range_every (partkey : PartitionKeyData) (partnamecomp : partname_comp)
    (boundspec : GpPartitionRangeSpec) : Res (option RawExpr) :=
  match tablename partnamecomp, partEvery boundspec with
  | None, _ :: _ =>
      checked_linitial partkey (partEvery boundspec) InvalidNumberOfEveryValues
  | _, _ => Ok None
  end.

Definition generateRangePartitions (fuel : nat) (parentname : string)
    (partkey : PartitionKeyData) (elem : GpPartDefElem)
    (subPart : option PartitionSpec) (partnamecomp : partname_comp)
    : Res (list CreateStmt * partname_comp) :=
  match boundSpec elem with
  | None => Err MissingBoundarySpecification
  | Some (T_GpPartitionRangeSpec boundspec) =>
      if negb (Nat.eqb (partnatts partkey) 1) then Err MultiColumnRangeUnsupported
      else
        start <- range_start partkey boundspec ;;
        end_incl <- range_end partkey boundspec ;;
        every <- range_every partkey partnamecomp boundspec ;;
        boundIter <- initPartEveryIterator start (fst end_incl) (snd end_incl) every ;;
        range_loop fuel parentname elem subPart (is_some start) (is_some (fst end_incl))
                   (is_some every) boundIter 0 partnamecomp []
  | Some _ => Err InvalidBoundarySpecification
  end.

(** ** generateListPartition and generateDefaultPartition *)

Fixpoint collect_listdatums (partValues : list (list RawExpr)) (listdatums : list Node)
    : Res (list Node) :=
  match partValues with
  | [] => Ok listdatums
  | thisvalue :: rest =>
      match thisvalue with
      | [v] => collect_listdatums rest (listdatums ++ [T_RawExpr v])
      | _ => Err InvalidBoundaryArity
      end
  end.

Definition generateListPartition (parentname : string) (elem : GpPartDefElem)
    (subPart : option PartitionSpec) (partnamecomp : partname_comp)
    : Res (list CreateStmt * partname_comp) :=
  match boundSpec elem with
  | None => Err MissingBoundarySpecification
  | Some (T_GpPartitionListSpec gpvaluesspec) =>
      listdatums <- collect_listdatums (partValues gpvaluesspec) [] ;;
      boundspec <- transformPartitionBound cat
                     {| bound_strategy := Some PARTITION_STRATEGY_LIST;
                        is_default := false;
                        listdatums := listdatums;
                        lowerdatums := []; upperdatums := [] |} ;;
      let '(childstmt, partnamecomp') :=
        makePartitionCreateStmt parentname (partName elem) boundspec subPart elem
                                partnamecomp in
      Ok ([childstmt], partnamecomp')
  | Some _ => Err InvalidBoundarySpecification
  end.

Definition generateDefaultPartition (parentname : string) (elem : GpPartDefElem)
    (subPart : option PartitionSpec) (partnamecomp : partname_comp)
    : list CreateStmt * partname_comp :=
  let boundspec :=
    {| bound_strategy := None; is_default := true;
       listdatums := []; lowerdatums := []; upperdatums := [] |} in
  let '(childstmt, partnamecomp') :=
    makePartitionCreateStmt parentname (partName elem) boundspec subPart elem
                            partnamecomp in
  ([childstmt], partnamecomp').

(** ** Options and column encodings *)

(** Find the first "tablename" option, check that it is a string, and delete
    its cell: the result is the name (if any) and the remaining options. *)
Fixpoint extract_tablename_from_options (opts : list DefElem)
    : Res (option string * list DefElem) :=
  match opts with
  | [] => Ok (None, [])
  | pDef :: rest =>
      if String.eqb (defname pDef) "tablename" then
        match arg pDef with
        | T_String relname_str => Ok (Some relname_str, rest)
        | T_OtherArg _ => Err InvalidTablenameSpecification
        end
      else
        '(t, rest') <- extract_tablename_from_options rest ;;
        Ok (t, pDef :: rest')
  end.

Fixpoint split_encoding_clauses (encs : list ColumnReferenceStorageDirective)
    (non_def : list ColumnReferenceStorageDirective)
    (def : option ColumnReferenceStorageDirective)
    : Res (list ColumnReferenceStorageDirective * option ColumnReferenceStorageDirective) :=
  match encs with
  | [] => Ok (non_def, def)
  | c :: rest =>
      if deflt c then
        match def with
        | Some _ => Err MultipleDefaultEncodings
        | None => split_encoding_clauses rest non_def (Some c)
        end
      else split_encoding_clauses rest (non_def ++ [c]) def
  end.

(** The inner [foreach(lc2, elem_nondefs)]: is [pd]'s column mentioned? *)
Definition column_found (pd : ColumnReferenceStorageDirective)
    (elem_nondefs : list ColumnReferenceStorageDirective) : bool :=
  existsb (fun ed => String.eqb (column pd) (column ed)) elem_nondefs.

(** The outer [foreach(lc, part_nondefs)]. *)
Definition add_part_nondefs (part_nondefs elem_nondefs elem_colencs : list ColumnReferenceStorageDirective)
    : list ColumnReferenceStorageDirective :=
  fold_left (fun acc pd => if column_found pd elem_nondefs then acc else acc ++ [pd])
            part_nondefs elem_colencs.

Definition merge_partition_encoding (elem_colencs penc : list ColumnReferenceStorageDirective)
    : Res (list ColumnReferenceStorageDirective) :=
  match penc with
  | [] => Ok elem_colencs
  | _ :: _ =>
      match elem_colencs with
      | [] => Ok penc
      | _ :: _ =>
          '(elem_nondefs, elem_def) <- split_encoding_clauses elem_colencs [] None ;;
          '(part_nondefs, part_def) <- split_encoding_clauses penc [] None ;;
          let elem_colencs := add_part_nondefs part_nondefs elem_nondefs elem_colencs in
          match elem_def with
          | Some _ => Ok elem_colencs
          | None =>
              match part_def with
              | Some d => Ok (elem_colencs ++ [d])
              | None => Ok elem_colencs
              end
          end
      end
  end.

(** ** generatePartitions *)

Record GpPartitionDefinition : Type := {
  partDefElems : list DefItem
}.

(** The cells of a list that are [ColumnReferenceStorageDirective]s. *)
Fixpoint storage_directives (items : list DefItem) : list ColumnReferenceStorageDirective :=
  match items with
  | [] => []
  | T_ColumnReferenceStorageDirective c :: rest => c :: storage_directives rest
  | _ :: rest => storage_directives rest
  end.

(** If there is a DEFAULT PARTITION, move it to the front of the list. *)
Fixpoint default_first (items : list DefItem) (defaultPartDefElem : option GpPartDefElem)
    (elems : list GpPartDefElem) : Res (list GpPartDefElem) :=
  match items with
  | [] => Ok elems
  | T_GpPartDefElem elem :: rest =>
      if isDefault elem then
        match defaultPartDefElem with
        | Some _ => Err MultipleDefaultPartitions
        | None => default_first rest (Some elem) (elem :: elems)
        end
      else default_first rest defaultPartDefElem (elems ++ [elem])
  | _ :: rest => default_first rest defaultPartDefElem elems
  end.

(** The access method an element ends up with: its own, else the parent's. *)
Definition resolved_accessMethod (elem : GpPartDefElem) (parentaccessmethod : option string)
    : option string :=
  match accessMethod elem with
  | Some a => Some a
  | None => parentaccessmethod
  end.

Definition is_aoco (am : option string) : bool :=
  match am with
  | Some a => String.eqb a "aoco"
  | None => false
  end.

(** The element as the body of the second [foreach] leaves it before the
    dispatch: tablename option removed, options and access method inherited,
    encodings merged for "aoco". *)
Definition prepare_elem (parentoptions : list DefElem) (parentaccessmethod : option string)
    (penc_cls : list ColumnReferenceStorageDirective) (elem : GpPartDefElem)
    : Res (option string * GpPartDefElem) :=
  '(tn, opts) <- extract_tablename_from_options (options elem) ;;
  let opts := match opts with [] => parentoptions | _ :: _ => opts end in
  let am := resolved_accessMethod elem parentaccessmethod in
  encs <- (if is_aoco am then merge_partition_encoding (colencs elem) penc_cls
           else Ok (colencs elem)) ;;
  Ok (tn, {| partName := partName elem; boundSpec := boundSpec elem;
             subSpec := subSpec elem; isDefault := isDefault elem;
             options := opts; accessMethod := am;
             tablespacename := tablespacename elem; colencs := encs |}).

Definition expand_elem (fuel : nat) (parentname : string) (key : PartitionKeyData)
    (subPartSpec : option PartitionSpec) (isSubTemplate : bool)
    (parentoptions : list DefElem) (parentaccessmethod : option string)
    (penc_cls : list ColumnReferenceStorageDirective)
    (elem : GpPartDefElem) (partcomp : partname_comp)
    : Res (list CreateStmt * partname_comp) :=
  tmpSubPartSpec <-
    match subPartSpec with
    | Some sp =>
        let d := if isSubTemplate then gpPartDef sp else subSpec elem in
        match d with
        | None => Err NoPartitionsAtDepth
        | Some _ => Ok (Some {| gpPartDef := d |})
        end
    | None => Ok None
    end ;;
  '(tn, elem') <- prepare_elem parentoptions parentaccessmethod penc_cls elem ;;
  let partcomp := {| tablename := tn; level := level partcomp;
                     partnum := partnum partcomp |} in
  if isDefault elem' then
    Ok (generateDefaultPartition parentname elem' tmpSubPartSpec partcomp)
  else
    match strategy key with
    | PARTITION_STRATEGY_RANGE =>
        generateRangePartitions fuel parentname key elem' tmpSubPartSpec partcomp
    | PARTITION_STRATEGY_LIST =>
        generateListPartition parentname elem' tmpSubPartSpec partcomp
    | PARTITION_STRATEGY_HASH => Err UnsupportedStrategy
    end.

Fixpoint expand_elems (fuel : nat) (parentname : string) (key : PartitionKeyData)
    (subPartSpec : option PartitionSpec) (isSubTemplate : bool)
    (parentoptions : list DefElem) (parentaccessmethod : option string)
    (penc_cls : list ColumnReferenceStorageDirective)
    (elems : list GpPartDefElem) (partcomp : partname_comp)
    (result : list CreateStmt) : Res (list CreateStmt) :=
  match elems with
  | [] => Ok result
  | elem :: rest =>
      '(new_parts, partcomp') <-
        expand_elem fuel parentname key subPartSpec isSubTemplate parentoptions
                    parentaccessmethod penc_cls elem partcomp ;;
      expand_elems fuel parentname key subPartSpec isSubTemplate parentoptions
                   parentaccessmethod penc_cls rest partcomp' (result ++ new_parts)
  end.

(** The statements in processing order, before the last step of
    [generatePartitions]. *)
Definition generated_stmts (fuel : nat) (parentname : string) (key : PartitionKeyData)
    (nancestors : nat) (gpPartSpec : GpPartitionDefinition)
    (subPartSpec : option PartitionSpec) (parentoptions : list DefElem)
    (parentaccessmethod : option string) (parentattenc : list DefItem)
    : Res (list CreateStmt) :=
  let partcomp := {| tablename := None; level := Z.of_nat nancestors + 1; partnum := 0 |} in
  '(_, parentoptions) <- extract_tablename_from_options parentoptions ;;
  let isSubTemplate :=
    match subPartSpec with
    | Some sp => match gpPartDef sp with Some d => istemplate d | None => false end
    | None => false
    end in
  let parent_tblenc := storage_directives parentattenc in
  let penc_cls := storage_directives (partDefElems gpPartSpec) in
  penc_cls <- merge_partition_encoding penc_cls parent_tblenc ;;
  elems <- default_first (partDefElems gpPartSpec) None [] ;;
  expand_elems fuel parentname key subPartSpec isSubTemplate parentoptions
               parentaccessmethod penc_cls elems partcomp [].

Definition generatePartitions (fuel : nat) (parentname : string) (key : PartitionKeyData)
    (nancestors : nat) (gpPartSpec : GpPartitionDefinition)
    (subPartSpec : option PartitionSpec) (parentoptions : list DefElem)
    (parentaccessmethod : option string) (parentattenc : list DefItem)
    : Res (list CreateStmt) :=
  result <- generated_stmts fuel parentname key nancestors gpPartSpec subPartSpec
                            parentoptions parentaccessmethod parentattenc ;;
  match strategy key with
  | PARTITION_STRATEGY_RANGE => deduceImplicitRangeBounds result key
  | _ => Ok result
  end.

(** ** Vocabulary of the statements *)

(** [lo <= v < hi] in the order of the first column's support function. *)
Definition within (lo hi v : Datum) : Prop :=
  partsupfunc cat 0 lo v <= 0 /\ partsupfunc cat 0 v hi < 0.

(** The half-open intervals between consecutive points. *)
Definition intervals (pts : list Datum) : list (Datum * Datum) :=
  combine pts (tl pts).

(** Starting from [cur], the plus expression yields the points [mids] one
    after the other, each strictly greater than its predecessor and still
    below [b], and then a value that compares [>= b]. *)
Fixpoint every_run (plusexpr : Datum -> Res (option Datum)) (b cur : Datum)
    (mids : list Datum) : Prop :=
  match mids with
  | [] => exists next, plusexpr cur = Ok (Some next) /\ partsupfunc cat 0 next b >= 0
  | m :: mids' =>
      plusexpr cur = Ok (Some m) /\
      partsupfunc cat 0 m b < 0 /\
      partsupfunc cat 0 cur m < 0 /\
      every_run plusexpr b m mids'
  end.

(** The bounds of a RANGE statement generated under EVERY. *)
Definition const_bounds (p : Datum * Datum) : list Node * list Node :=
  ([T_Const (fst p) false], [T_Const (snd p) false]).

Definition stmt_bounds (s : CreateStmt) : list Node * list Node :=
  (lowerdatums (partbound s), upperdatums (partbound s)).

(** No cell stands before a cell that the relation puts before it. *)
Fixpoint adjacent_sorted {A : Type} (R : A -> A -> Prop) (l : list A) : Prop :=
  match l with
  | x :: (y :: _) as rest => R x y /\ adjacent_sorted R rest
  | _ => True
  end.

(** [a] may stand immediately before [b] in an order sorted by the
    comparator: comparing them does not say "greater". *)
Definition stmt_le (key : PartitionKeyData) (a b : CreateStmt) : Prop :=
  exists c, qsort_stmt_cmp key a b = Ok c /\ c <= 0.

(** The first expression of a START or END clause and the END edge, as
    [generateRangePartitions] reads them. *)
Definition start_expr (spec : GpPartitionRangeSpec) : option RawExpr :=
  match partStart spec with
  | Some item => hd_error (val item)
  | None => None
  end.

Definition end_expr (spec : GpPartitionRangeSpec) : option RawExpr :=
  match partEnd spec with
  | Some item => hd_error (val item)
  | None => None
  end.

Definition end_inclusive (spec : GpPartitionRangeSpec) : bool :=
  match partEnd spec with
  | Some item => match edge item with PART_EDGE_INCLUSIVE => true | _ => false end
  | None => false
  end.

(** The merge of column encodings as the rules put it: the element's own
    directives, then every configuration-level column directive whose column
    no element-level column directive mentions, then the configuration-level
    default unless the element has a default of its own. *)
Definition mentions (elem_colencs : list ColumnReferenceStorageDirective)
    (pd : ColumnReferenceStorageDirective) : bool :=
  existsb (fun ed => negb (deflt ed) && String.eqb (column pd) (column ed)) elem_colencs.

Definition merge_by_rules (elem_colencs penc : list ColumnReferenceStorageDirective)
    : list ColumnReferenceStorageDirective :=
  elem_colencs
  ++ filter (fun pd => negb (deflt pd) && negb (mentions elem_colencs pd)) penc
  ++ (if existsb deflt elem_colencs then [] else filter deflt penc).

Definition at_most_one_default (l : list ColumnReferenceStorageDirective) : Prop :=
  (List.length (filter deflt l) <= 1)%nat.

(** The elements of a definition, in the order of the command. *)
Fixpoint def_elems (items : list DefItem) : list GpPartDefElem :=
  match items with
  | [] => []
  | T_GpPartDefElem e :: rest => e :: def_elems rest
  | _ :: rest => def_elems rest
  end.

(** The processing order: the DEFAULT element, then the others as declared. *)
Definition processing_order (items : list DefItem) : list GpPartDefElem :=
  filter isDefault (def_elems items) ++ filter (fun e => negb (isDefault e)) (def_elems items).


(** The bounds of consecutive statements tile the range from [lo] to [hi]:
    the first starts at [lo], each one ends where the next starts, strictly
    above its own start and strictly below [hi], and the last ends at
    [hi]. *)
Fixpoint tiles (lo : Datum) (bs : list (list Node * list Node)) (hi : Datum) : Prop :=
  match bs with
  | [] => False
  | b :: rest =>
      match rest with
      | [] => b = const_bounds (lo, hi)
      | _ :: _ =>
          exists mid,
            b = const_bounds (lo, mid) /\
            partsupfunc cat 0 lo mid < 0 /\
            partsupfunc cat 0 mid hi < 0 /\
            tiles mid rest hi
      end
  end.

(** The test [0 == strcmp(pDef->defname, "tablename")]. *)
Definition is_tablename (d : DefElem) : bool := String.eqb (defname d) "tablename".

End Expansion.

Arguments T_Const {Datum} constvalue constisnull.
Arguments T_ColumnRef {Datum} fields.
Arguments T_RawExpr {Datum} e.
Arguments minvalue {Datum}.
Arguments maxvalue {Datum}.

(** ** A concrete catalog: an integer partition column

    The column type is an unbounded integer with the usual three-way
    comparison; START, END and VALUES literals are integer constants; the
    step of an EVERY clause is an integer constant [e] and the [+] operator
    is [plus_op], ordinary addition unless stated otherwise. *)

Module IntegerKey.

Definition btintcmp (a b : Z) : Z :=
  if a >? b then 1 else if a =? b then 0 else -1.

Definition transform_literal (e : RawExpr) : Res (Z * bool) :=
  match e with
  | A_Const_Integer z => Ok (z, false)
  | RawText t => if String.eqb t "NULL" then Ok (0, true)
                 else Err (CollaboratorError "invalid input syntax for type integer")
  end.

Definition init_plus (plus_op : Z -> Z -> Res (option Z)) (interval : RawExpr)
    : Res (Z -> Res (option Z)) :=
  match interval with
  | A_Const_Integer e => Ok (fun param => plus_op param e)
  | RawText _ => Err (CollaboratorError "operator does not exist")
  end.

Definition transform_cell (n : Node Z) : Res (Node Z) :=
  match n with
  | T_RawExpr e =>
      '(v, isnull) <- transform_literal e ;; Ok (T_Const v isnull)
  | other => Ok other
  end.

Fixpoint transform_cells (l : list (Node Z)) : Res (list (Node Z)) :=
  match l with
  | [] => Ok []
  | n :: rest =>
      n' <- transform_cell n ;;
      rest' <- transform_cells rest ;;
      Ok (n' :: rest')
  end.

Definition transform_bound (b : PartitionBoundSpec Z) : Res (PartitionBoundSpec Z) :=
  cells <- transform_cells (listdatums b) ;;
  Ok {| bound_strategy := bound_strategy b; is_default := is_default b;
        listdatums := cells; lowerdatums := lowerdatums b;
        upperdatums := upperdatums b |}.

Definition object_name (relname levelstr partsubstring : string) : string :=
  (relname ++ "_" ++ levelstr ++ "_" ++ partsubstring)%string.

(** Move [x] left past every cell that compares greater: the inner loop of an
    insertion sort, on the reversed prefix. *)
Fixpoint sink {A : Type} (cmp : A -> A -> Res Z) (x : A) (rev_prefix : list A)
    : Res (list A) :=
  match rev_prefix with
  | [] => Ok [x]
  | y :: ys =>
      c <- cmp y x ;;
      if c >? 0 then (r <- sink cmp x ys ;; Ok (y :: r))
      else Ok (x :: y :: ys)
  end.

Fixpoint insertion_pass {A : Type} (cmp : A -> A -> Res Z) (todo rev_prefix : list A)
    : Res (list A) :=
  match todo with
  | [] => Ok (rev rev_prefix)
  | x :: rest =>
      p <- sink cmp x rev_prefix ;;
      insertion_pass cmp rest p
  end.

(** The sort used in the examples: an insertion sort that swaps a cell with
    its left neighbour while the comparator says "greater". *)
Definition insertion_qsort {A : Type} (cmp : A -> A -> Res Z) (l : list A) : Res (list A) :=
  insertion_pass cmp l [].

Definition catalog_with (SubPartDef : Type) (plus_op : Z -> Z -> Res (option Z))
    : Catalog Z SubPartDef :=
  {| zeroDatum := 0;
     partsupfunc := fun _ a b => btintcmp a b;
     transformPartitionBoundValue := transform_literal;
     initPlusExprState := init_plus plus_op;
     transformPartitionBound := transform_bound;
     makeObjectName := object_name;
     ChooseRelationName := object_name;
     list_qsort := insertion_qsort |}.

Definition int_plus (a b : Z) : Res (option Z) := Ok (Some (a + b)).

(** A [+] that saturates at [top]. *)
Definition saturating_plus (top : Z) (a b : Z) : Res (option Z) :=
  Ok (Some (Z.min (a + b) top)).

Definition catalog : Catalog Z unit := catalog_with unit int_plus.

Definition no_template (d : unit) : bool := false.

Definition range_key : PartitionKeyData :=
  {| strategy := PARTITION_STRATEGY_RANGE; partnatts := 1 |}.

Definition list_key : PartitionKeyData :=
  {| strategy := PARTITION_STRATEGY_LIST; partnatts := 1 |}.

Definition item (z : Z) (e : PartitionEdge) : GpPartitionRangeItem :=
  {| val := [A_Const_Integer z]; edge := e |}.

(** [PARTITION name START (a) END (b) EVERY (e)], each part optional. *)
Definition range_elem (name : option string) (a b : option Z) (e : list Z)
    (opts : list DefElem) : GpPartDefElem unit :=
  {| partName := name;
     boundSpec := Some (T_GpPartitionRangeSpec
       {| partStart := option_map (fun z => item z PART_EDGE_UNSPECIFIED) a;
          partEnd := option_map (fun z => item z PART_EDGE_UNSPECIFIED) b;
          partEvery := map A_Const_Integer e |});
     subSpec := None; isDefault := false; options := opts;
     accessMethod := None; tablespacename := None; colencs := [] |}.

Definition default_elem (name : string) : GpPartDefElem unit :=
  {| partName := Some name; boundSpec := None; subSpec := None; isDefault := true;
     options := []; accessMethod := None; tablespacename := None; colencs := [] |}.

Definition top_partcomp : partname_comp :=
  {| tablename := None; level := 1; partnum := 0 |}.

(** [PARTITION name VALUES (v)]. *)
Definition list_elem (name : string) (v : Z) : GpPartDefElem unit :=
  {| partName := Some name;
     boundSpec := Some (T_GpPartitionListSpec {| partValues := [[A_Const_Integer v]] |});
     subSpec := None; isDefault := false; options := [];
     accessMethod := None; tablespacename := None; colencs := [] |}.

Definition range_stmt (name : string) (lower upper : list (Node Z)) : CreateStmt Z unit :=
  {| relation := name; inhRelations := ["t"];
     partbound := {| bound_strategy := Some PARTITION_STRATEGY_RANGE; is_default := false;
                     listdatums := []; lowerdatums := lower; upperdatums := upper |};
     partspec := None; stmt_options := []; stmt_tablespacename := None;
     stmt_accessMethod := None; attr_encodings := [] |}.

Definition default_stmt (name : string) : CreateStmt Z unit :=
  {| relation := name; inhRelations := ["t"];
     partbound := {| bound_strategy := None; is_default := true;
                     listdatums := []; lowerdatums := []; upperdatums := [] |};
     partspec := None; stmt_options := []; stmt_tablespacename := None;
     stmt_accessMethod := None; attr_encodings := [] |}.

Definition const (z : Z) : Node Z := T_Const z false.

(** The same catalog with a [+] that saturates at 4. *)
Definition saturating_catalog : Catalog Z unit := catalog_with unit (saturating_plus 4).

(** [COLUMN c ENCODING (compresstype=v)] and
    [DEFAULT COLUMN ENCODING (compresstype=v)]. *)
Definition column_encoding (c v : string) : ColumnReferenceStorageDirective :=
  {| column := c; deflt := false;
     encoding := [{| defname := "compresstype"; arg := T_String v |}] |}.

Definition default_encoding (v : string) : ColumnReferenceStorageDirective :=
  {| column := ""; deflt := true;
     encoding := [{| defname := "compresstype"; arg := T_String v |}] |}.

(** [START (1) END (10) EVERY (e)] as a range specification. *)
Definition one_to_ten_every (e : Z) : GpPartitionRangeSpec :=
  {| partStart := Some (item 1 PART_EDGE_UNSPECIFIED);
     partEnd := Some (item 10 PART_EDGE_UNSPECIFIED);
     partEvery := [A_Const_Integer e] |}.

Definition elem_of_spec (name : option string) (spec : GpPartitionRangeSpec)
    (am : option string) (encs : list ColumnReferenceStorageDirective)
    : GpPartDefElem unit :=
  {| partName := name; boundSpec := Some (T_GpPartitionRangeSpec spec);
     subSpec := None; isDefault := false; options := [];
     accessMethod := am; tablespacename := None; colencs := encs |}.

(** The option [tablename = 't'] of a legacy dump. *)
Definition tablename_option (t : string) : DefElem :=
  {| defname := "tablename"; arg := T_String t |}.

(** [fillfactor = 'v']. *)
Definition fillfactor_option (v : string) : DefElem :=
  {| defname := "fillfactor"; arg := T_String v |}.

(** A key of two integer columns. *)
Definition two_column_key : PartitionKeyData :=
  {| strategy := PARTITION_STRATEGY_RANGE; partnatts := 2 |}.

End IntegerKey.


(** * Properties *)

Unset Implicit Arguments.

Section ExpansionFacts.

Variable Datum : Type.
Variable SubPartDef : Type.
Variable cat : Catalog Datum SubPartDef.

(** ** The comparator *)

Lemma not_null_true {A : Type} (l : list A) : l <> [] -> not_null l = true.
Proof. destruct l; [congruence | reflexivity]. Qed.

(** C2, as the code has it: when exactly one of two descriptors is the
    DEFAULT one, [qsort_stmt_cmp] reports the non-DEFAULT descriptor as the
    greater, whichever side it is on; an ascending sort therefore puts the
    DEFAULT descriptor first, against the comment "Sort DEFAULT partitions
    last". *)
Theorem qsort_stmt_cmp_default_first (key : PartitionKeyData) (b1 b2 : CreateStmt Datum SubPartDef) :
  is_default (partbound b1) = false ->
  is_default (partbound b2) = true ->
  qsort_stmt_cmp cat key b1 b2 = Ok 1 /\ qsort_stmt_cmp cat key b2 b1 = Ok (-1).
Proof.
  intros H1 H2. unfold qsort_stmt_cmp. rewrite H1, H2. split; reflexivity.
Qed.

(** C5: a descriptor [b1] with only a lower bound against a descriptor [b2]
    with only an upper bound.  When the columns compare equal the result is
    1, so the lower-bound side is the greater; any other column result is
    returned as it is.  With the arguments swapped the column result is
    returned with no flip.  Hence, when the bounds compare equal both ways,
    the only arrangement of the two that the comparator accepts as sorted
    has the upper-only descriptor first. *)
Theorem qsort_stmt_cmp_lower_upper_tie (key : PartitionKeyData) (b1 b2 : CreateStmt Datum SubPartDef) :
  is_default (partbound b1) = is_default (partbound b2) ->
  lowerdatums (partbound b1) <> [] -> upperdatums (partbound b1) = [] ->
  lowerdatums (partbound b2) = [] -> upperdatums (partbound b2) <> [] ->
  let lower_vs_upper :=
    compare_columns cat (lowerdatums (partbound b1)) (upperdatums (partbound b2))
                    0 (partnatts key) in
  let upper_vs_lower :=
    compare_columns cat (upperdatums (partbound b2)) (lowerdatums (partbound b1))
                    0 (partnatts key) in
  (lower_vs_upper = Ok 0 -> qsort_stmt_cmp cat key b1 b2 = Ok 1) /\
  (forall c, c <> 0 -> lower_vs_upper = Ok c -> qsort_stmt_cmp cat key b1 b2 = Ok c) /\
  qsort_stmt_cmp cat key b2 b1 = upper_vs_lower /\
  (lower_vs_upper = Ok 0 -> upper_vs_lower = Ok 0 ->
   adjacent_sorted (stmt_le cat key) [b2; b1] /\
   forall out, Permutation [b1; b2] out -> adjacent_sorted (stmt_le cat key) out ->
               out = [b2; b1]).
Proof.
  intros Hd Hl1 Hu1 Hl2 Hu2 lower_vs_upper upper_vs_lower.
  assert (E12 : qsort_stmt_cmp cat key b1 b2 =
                bind lower_vs_upper (fun c => Ok (if c =? 0 then 1 else c))).
  { unfold qsort_stmt_cmp. rewrite Hd, Bool.eqb_reflx, Hu1, Hl2.
    rewrite (not_null_true _ Hl1), (not_null_true _ Hu2). reflexivity. }
  assert (E21 : qsort_stmt_cmp cat key b2 b1 = upper_vs_lower).
  { unfold qsort_stmt_cmp. rewrite Hd, Bool.eqb_reflx, Hu1, Hl2.
    rewrite (not_null_true _ Hl1), (not_null_true _ Hu2). reflexivity. }
  split; [| split; [| split; [| intros E0 E1; split]]].
  - intros E. rewrite E12, E. reflexivity.
  - intros c Hc E. rewrite E12, E. simpl.
    destruct (Z.eqb_spec c 0); [contradiction | reflexivity].
  - exact E21.
  - simpl. split; [| exact I].
    exists 0. rewrite E21. split; [assumption | lia].
  - intros out Hperm Hsorted.
    destruct (Permutation_length_2_inv Hperm) as [-> | ->]; [| reflexivity].
    destruct Hsorted as [[c [Hc Hle]] _].
    rewrite E12, E0 in Hc. simpl in Hc. inversion Hc. lia.
Qed.

(** ** The implicit-bound walk *)

Lemma deduce_step_upper (prev : option (CreateStmt Datum SubPartDef))
    (s : CreateStmt Datum SubPartDef) (next : option (CreateStmt Datum SubPartDef)) :
  upperdatums (partbound (deduce_step prev s next)) =
  if not_null (upperdatums (partbound s)) then upperdatums (partbound s)
  else match next with
       | Some n => lowerdatums (partbound n)
       | None => [maxvalue]
       end.
Proof.
  unfold deduce_step.
  destruct (not_null (lowerdatums (partbound s))); [| destruct prev];
    simpl; destruct (not_null (upperdatums (partbound s))); try destruct next; reflexivity.
Qed.

Lemma deduce_step_lower (prev : option (CreateStmt Datum SubPartDef))
    (s : CreateStmt Datum SubPartDef) (next : option (CreateStmt Datum SubPartDef)) :
  lowerdatums (partbound (deduce_step prev s next)) =
  if not_null (lowerdatums (partbound s)) then lowerdatums (partbound s)
  else match prev with
       | Some p => upperdatums (partbound p)
       | None => [minvalue]
       end.
Proof.
  unfold deduce_step.
  destruct (not_null (lowerdatums (partbound s))); [| destruct prev];
    simpl; destruct (not_null (upperdatums (partbound s))); try destruct next; reflexivity.
Qed.

Lemma deduce_step_relation (prev : option (CreateStmt Datum SubPartDef))
    (s : CreateStmt Datum SubPartDef) (next : option (CreateStmt Datum SubPartDef)) :
  relation (deduce_step prev s next) = relation s.
Proof. reflexivity. Qed.

Lemma not_null_nil {A : Type} (l : list A) : not_null l = false <-> l = [].
Proof. destruct l; simpl; split; congruence. Qed.

Lemma deduce_walk_length (stmts : list (CreateStmt Datum SubPartDef)) :
  forall prev, List.length (deduce_walk prev stmts) = List.length stmts.
Proof. induction stmts as [| s rest IH]; intros prev; simpl; [| rewrite IH]; reflexivity. Qed.

Lemma deduce_walk_relation (stmts : list (CreateStmt Datum SubPartDef)) :
  forall prev, map (@relation _ _) (deduce_walk prev stmts) = map (@relation _ _) stmts.
Proof.
  induction stmts as [| s rest IH]; intros prev; simpl; [reflexivity |].
  rewrite IH. reflexivity.
Qed.

(** The cell at position [i] of the walk's output is the step applied to the
    input cell, with some previous statement and the input's next cell. *)
Lemma deduce_walk_nth (stmts : list (CreateStmt Datum SubPartDef)) :
  forall prev i s s',
    nth_error stmts i = Some s ->
    nth_error (deduce_walk prev stmts) i = Some s' ->
    exists p, s' = deduce_step p s (nth_error stmts (S i)) /\
              (i = O -> p = prev) /\
              (forall j, i = S j -> p = nth_error (deduce_walk prev stmts) j).
Proof.
  induction stmts as [| a rest IH]; intros prev i s s' Hs Hs'.
  - destruct i; discriminate.
  - destruct i as [| i]; simpl in *.
    + inversion Hs; inversion Hs'; subst. exists prev.
      split; [| split; [reflexivity | discriminate]].
      destruct rest; reflexivity.
    + destruct (IH _ _ _ _ Hs Hs') as [p [E [H0 HS]]].
      exists p. split; [exact E | split; [discriminate |]].
      intros j Hj. inversion Hj; subst j.
      destruct i as [| k].
      * simpl. apply H0. reflexivity.
      * simpl. apply HS. reflexivity.
Qed.

(** A junction at which exactly one of the two bounds that touch was
    declared: the missing one takes the declared value. *)
Lemma deduce_walk_junction (stmts : list (CreateStmt Datum SubPartDef)) :
  forall prev i s t s' t',
    nth_error stmts i = Some s -> nth_error stmts (S i) = Some t ->
    nth_error (deduce_walk prev stmts) i = Some s' ->
    nth_error (deduce_walk prev stmts) (S i) = Some t' ->
    (upperdatums (partbound s) = [] -> lowerdatums (partbound t) <> [] ->
     upperdatums (partbound s') = lowerdatums (partbound t) /\
     lowerdatums (partbound t') = lowerdatums (partbound t)) /\
    (upperdatums (partbound s) <> [] -> lowerdatums (partbound t) = [] ->
     upperdatums (partbound s') = upperdatums (partbound s) /\
     lowerdatums (partbound t') = upperdatums (partbound s)).
Proof.
  intros prev i s t s' t' Hs Ht Hs' Ht'.
  destruct (deduce_walk_nth stmts prev _ _ _ Hs Hs') as [p [Es _]].
  destruct (deduce_walk_nth stmts prev _ _ _ Ht Ht') as [q [Et [_ Hq]]].
  specialize (Hq i eq_refl). rewrite Hs' in Hq. subst q.
  split; intros Hu Hl.
  - apply not_null_nil in Hu.
    rewrite Et, deduce_step_lower, Es, deduce_step_upper, Ht, Hu,
      (not_null_true _ Hl).
    split; reflexivity.
  - apply not_null_nil in Hl.
    rewrite Et, deduce_step_lower, Es, deduce_step_upper, Hl,
      (not_null_true _ Hu).
    split; reflexivity.
Qed.

(** C4, amended: [deduceImplicitRangeBounds] returns the walk of the sorted
    list.  The walk keeps the length.  For every adjacent pair of RANGE
    descriptors in which exactly one of the two bounds that touch was
    declared, the missing one takes the declared value, so the earlier
    descriptor's upper bound equals the later one's lower bound.  When the
    first descriptor of the sorted list is a RANGE descriptor without a
    lower bound it gets the minvalue sentinel, and when the last is a RANGE
    descriptor without an upper bound it gets the maxvalue sentinel.  A
    bound that was declared is kept. *)
Theorem deduceImplicitRangeBounds_fills_missing (key : PartitionKeyData)
    (origstmts sorted : list (CreateStmt Datum SubPartDef)) :
  list_qsort cat (qsort_stmt_cmp cat key) origstmts = Ok sorted ->
  exists out,
    deduceImplicitRangeBounds cat origstmts key = Ok out /\
    List.length out = List.length sorted /\
    (forall i s t s' t',
        nth_error sorted i = Some s -> nth_error sorted (S i) = Some t ->
        nth_error out i = Some s' -> nth_error out (S i) = Some t' ->
        is_default (partbound s) = false -> is_default (partbound t) = false ->
        (upperdatums (partbound s) = [] -> lowerdatums (partbound t) <> [] ->
         upperdatums (partbound s') = lowerdatums (partbound t) /\
         lowerdatums (partbound t') = lowerdatums (partbound t)) /\
        (upperdatums (partbound s) <> [] -> lowerdatums (partbound t) = [] ->
         upperdatums (partbound s') = upperdatums (partbound s) /\
         lowerdatums (partbound t') = upperdatums (partbound s))) /\
    (forall s s',
        nth_error sorted 0 = Some s -> nth_error out 0 = Some s' ->
        is_default (partbound s) = false ->
        lowerdatums (partbound s) = [] ->
        lowerdatums (partbound s') = [minvalue]) /\
    (forall i s s',
        nth_error sorted i = Some s -> nth_error sorted (S i) = None ->
        nth_error out i = Some s' ->
        is_default (partbound s) = false ->
        upperdatums (partbound s) = [] ->
        upperdatums (partbound s') = [maxvalue]) /\
    (forall i s s',
        nth_error sorted i = Some s -> nth_error out i = Some s' ->
        (lowerdatums (partbound s) <> [] ->
         lowerdatums (partbound s') = lowerdatums (partbound s)) /\
        (upperdatums (partbound s) <> [] ->
         upperdatums (partbound s') = upperdatums (partbound s))).
Proof.
  intros Hsort. exists (deduce_walk None sorted).
  split; [unfold deduceImplicitRangeBounds; rewrite Hsort; reflexivity |].
  split; [apply deduce_walk_length |].
  split; [intros i s t s' t' Hs Ht Hs' Ht' _ _;
          exact (deduce_walk_junction sorted None i s t s' t' Hs Ht Hs' Ht') |].
  split; [| split].
  - intros s s' Hs Hs' _ Hnil.
    destruct (deduce_walk_nth sorted None _ _ _ Hs Hs') as [p [E [Hp _]]].
    rewrite (Hp eq_refl) in E. rewrite E, deduce_step_lower.
    apply not_null_nil in Hnil. rewrite Hnil. reflexivity.
  - intros i s s' Hs Hlast Hs' _ Hnil.
    destruct (deduce_walk_nth sorted None _ _ _ Hs Hs') as [p [E _]].
    rewrite E, deduce_step_upper, Hlast.
    apply not_null_nil in Hnil. rewrite Hnil. reflexivity.
  - intros i s s' Hs Hs'.
    destruct (deduce_walk_nth sorted None _ _ _ Hs Hs') as [p [E _]].
    split; intros Hne.
    + rewrite E, deduce_step_lower, (not_null_true _ Hne). reflexivity.
    + rewrite E, deduce_step_upper, (not_null_true _ Hne). reflexivity.
Qed.

(** ** The EVERY iterator *)

(** C3, amended: when the plus expression yields a value below END that does
    not compare greater than the previous upper bound, [nextPartBound] fails
    with "EVERY parameter too small" on the first call of the iterator and
    with "END parameter not reached before type overflows" on every later
    call, and the loop of [generateRangePartitions] fails the same way
    without adding a statement. *)
Theorem nextPartBound_no_advance (iter : PartEveryIterator Datum)
    (plusexpr : Datum -> Res (option Datum)) (next : Datum) :
  plusexprstate iter = Some plusexpr ->
  endReached iter = false ->
  plusexpr (currEnd iter) = Ok (Some next) ->
  partsupfunc cat 0 next (endVal iter) < 0 ->
  partsupfunc cat 0 (currEnd iter) next >= 0 ->
  nextPartBound cat iter = Err (if called iter then RangeOverflow else NonMonotonicStep) /\
  forall fuel parentname elem subPart has_start has_end has_every i partnamecomp result,
    range_loop cat (S fuel) parentname elem subPart has_start has_end has_every
               iter i partnamecomp result
    = Err (if called iter then RangeOverflow else NonMonotonicStep).
Proof.
  intros Hplus Hend Hnext Hlt Hge.
  assert (E : nextPartBound cat iter
              = Err (if called iter then RangeOverflow else NonMonotonicStep)).
  { unfold nextPartBound. rewrite Hplus, Hend, Hnext.
    destruct (Z.geb_spec (partsupfunc cat 0 next (endVal iter)) 0); [lia |].
    destruct (Z.geb_spec (partsupfunc cat 0 (currEnd iter) next) 0); [| lia].
    destruct (called iter); reflexivity. }
  split; [exact E |].
  intros. simpl. rewrite E. reflexivity.
Qed.

(** One turn of the loop of [generateRangePartitions]. *)

Lemma makePartitionCreateStmt_fields (parentname : string) (partname : option string)
    (boundspec : PartitionBoundSpec Datum) (subPart : option (PartitionSpec SubPartDef))
    (elem : GpPartDefElem SubPartDef) (pc : partname_comp) :
  let r := makePartitionCreateStmt cat parentname partname boundspec subPart elem pc in
  partbound (fst r) = boundspec /\
  attr_encodings (fst r) = colencs elem /\
  tablename (snd r) = tablename pc /\
  (forall t, tablename pc = Some t -> relation (fst r) = t /\ snd r = pc).
Proof.
  unfold makePartitionCreateStmt. destruct (tablename pc) as [t |] eqn:Et; simpl.
  - repeat split; try assumption. inversion H; reflexivity.
  - repeat split; discriminate.
Qed.

Lemma range_loop_more (fuel : nat) (parentname : string) (elem : GpPartDefElem SubPartDef)
    (subPart : option (PartitionSpec SubPartDef)) (has_start has_end has_every : bool)
    (iter iter' : PartEveryIterator Datum) (i : Z) (pc : partname_comp)
    (result : list (CreateStmt Datum SubPartDef)) :
  nextPartBound cat iter = Ok (true, iter') ->
  exists childstmt i' pc',
    range_loop cat (S fuel) parentname elem subPart has_start has_end has_every
               iter i pc result
    = range_loop cat fuel parentname elem subPart has_start has_end has_every
                 iter' i' pc' (result ++ [childstmt]) /\
    partbound childstmt = range_boundspec has_start has_end iter' /\
    attr_encodings childstmt = colencs elem /\
    tablename pc' = tablename pc /\
    (forall t, tablename pc = Some t -> relation childstmt = t /\ pc' = pc).
Proof.
  intros Hnext.
  pose proof (makePartitionCreateStmt_fields parentname
                (fst (range_partname has_every elem i))
                (range_boundspec has_start has_end iter') subPart elem pc) as F.
  simpl in F.
  exists (fst (makePartitionCreateStmt cat parentname
                 (fst (range_partname has_every elem i))
                 (range_boundspec has_start has_end iter') subPart elem pc)),
         (snd (range_partname has_every elem i)),
         (snd (makePartitionCreateStmt cat parentname
                 (fst (range_partname has_every elem i))
                 (range_boundspec has_start has_end iter') subPart elem pc)).
  split; [| exact F].
  simpl. rewrite Hnext. reflexivity.
Qed.

Lemma range_loop_done (fuel : nat) (parentname : string) (elem : GpPartDefElem SubPartDef)
    (subPart : option (PartitionSpec SubPartDef)) (has_start has_end has_every : bool)
    (iter iter' : PartEveryIterator Datum) (i : Z) (pc : partname_comp)
    (result : list (CreateStmt Datum SubPartDef)) :
  nextPartBound cat iter = Ok (false, iter') ->
  range_loop cat (S fuel) parentname elem subPart has_start has_end has_every
             iter i pc result
  = Ok (result, pc).
Proof. intros Hnext. simpl. rewrite Hnext. reflexivity. Qed.

Lemma stmt_bounds_range (c : CreateStmt Datum SubPartDef) (iter : PartEveryIterator Datum) :
  partbound c = range_boundspec true true iter ->
  stmt_bounds c = const_bounds (currStart iter, currEnd iter).
Proof. intros E. unfold stmt_bounds. rewrite E. reflexivity. Qed.

(** The loop under EVERY: it emits one statement per interval between the
    consecutive points [cur], [mids], [b]. *)
Lemma range_loop_every (plusexpr : Datum -> Res (option Datum)) (b : Datum)
    (parentname : string) (elem : GpPartDefElem SubPartDef)
    (subPart : option (PartitionSpec SubPartDef)) (has_every : bool) :
  forall mids cur iter fuel i pc result,
    plusexprstate iter = Some plusexpr ->
    endReached iter = false ->
    currEnd iter = cur ->
    endVal iter = b ->
    every_run cat plusexpr b cur mids ->
    (List.length mids + 2 <= fuel)%nat ->
    exists stmts pc',
      range_loop cat fuel parentname elem subPart true true has_every iter i pc result
      = Ok (result ++ stmts, pc') /\
      map (@stmt_bounds _ _) stmts = map (@const_bounds _) (intervals (cur :: mids ++ [b])).
Proof.
  induction mids as [| m mids IH]; intros cur iter fuel i pc result Hp He Hc Hb Hrun Hfuel.
  - destruct Hrun as [next [Hnext Hge]].
    destruct fuel as [| [| fuel]]; simpl in Hfuel; try lia.
    set (iter1 := {| endVal := endVal iter; plusexprstate := plusexprstate iter;
                     currStart := currEnd iter; currEnd := endVal iter;
                     called := true; endReached := true |}).
    assert (E1 : nextPartBound cat iter = Ok (true, iter1)).
    { unfold nextPartBound. rewrite Hp, He, Hc, Hnext, Hb.
      destruct (Z.geb_spec (partsupfunc cat 0 next b) 0); [| lia].
      unfold iter1. rewrite Hp, Hc, Hb. reflexivity. }
    destruct (range_loop_more (S fuel) parentname elem subPart true true has_every
                iter iter1 i pc result E1) as [c [i' [pc' [E [Hb1 _]]]]].
    exists [c], pc'. rewrite E. split.
    + eapply range_loop_done. unfold nextPartBound. simpl. rewrite Hp. reflexivity.
    + simpl. rewrite (stmt_bounds_range c iter1 Hb1). simpl. rewrite Hc, Hb. reflexivity.
  - destruct Hrun as [Hnext [Hlt [Hadv Hrun]]].
    destruct fuel as [| fuel]; simpl in Hfuel; try lia.
    set (iter1 := {| endVal := endVal iter; plusexprstate := plusexprstate iter;
                     currStart := currEnd iter; currEnd := m;
                     called := true; endReached := endReached iter |}).
    assert (E1 : nextPartBound cat iter = Ok (true, iter1)).
    { unfold nextPartBound. rewrite Hp, He, Hc, Hnext, Hb.
      destruct (Z.geb_spec (partsupfunc cat 0 m b) 0); [lia |].
      destruct (Z.geb_spec (partsupfunc cat 0 cur m) 0); [lia |].
      unfold iter1. rewrite Hp, Hc, Hb, He. reflexivity. }
    destruct (range_loop_more fuel parentname elem subPart true true has_every
                iter iter1 i pc result E1) as [c [i' [pc' [E [Hb1 _]]]]].
    destruct (IH m iter1 fuel i' pc' (result ++ [c])) as [stmts [pc'' [E2 Hmap]]];
      try (simpl; assumption); try reflexivity; try lia.
    exists (c :: stmts), pc''. rewrite E, E2. split.
    + rewrite <- app_assoc. reflexivity.
    + simpl. rewrite (stmt_bounds_range c iter1 Hb1). simpl. rewrite Hc.
      f_equal. exact Hmap.
Qed.

(** Intervals between the points of a strictly increasing chain tile the
    range from the first point to the last. *)
Section Coverage.

Hypothesis cmp_trans : forall x y z,
  partsupfunc cat 0 x y <= 0 -> partsupfunc cat 0 y z <= 0 -> partsupfunc cat 0 x z <= 0.
Hypothesis cmp_flip : forall x y,
  partsupfunc cat 0 x y < 0 <-> partsupfunc cat 0 y x > 0.

Lemma cmp_refl (x : Datum) : partsupfunc cat 0 x x = 0.
Proof. pose proof (cmp_flip x x). lia. Qed.

Lemma cmp_not_lt_le (x y : Datum) :
  ~ partsupfunc cat 0 x y < 0 -> partsupfunc cat 0 y x <= 0.
Proof. pose proof (cmp_flip x y). pose proof (cmp_flip y x). lia. Qed.

Lemma cmp_le_lt_trans (x y z : Datum) :
  partsupfunc cat 0 x y <= 0 -> partsupfunc cat 0 y z < 0 -> partsupfunc cat 0 x z < 0.
Proof.
  intros Hxy Hyz.
  destruct (Z_lt_ge_dec (partsupfunc cat 0 x z) 0) as [H | H]; [exact H |].
  assert (Hzx : partsupfunc cat 0 z x <= 0) by (apply cmp_not_lt_le; lia).
  pose proof (cmp_trans _ _ _ Hzx Hxy). apply cmp_flip in Hyz. lia.
Qed.

Lemma cmp_lt_le_trans (x y z : Datum) :
  partsupfunc cat 0 x y < 0 -> partsupfunc cat 0 y z <= 0 -> partsupfunc cat 0 x z < 0.
Proof.
  intros Hxy Hyz.
  destruct (Z_lt_ge_dec (partsupfunc cat 0 x z) 0) as [H | H]; [exact H |].
  assert (Hzx : partsupfunc cat 0 z x <= 0) by (apply cmp_not_lt_le; lia).
  pose proof (cmp_trans _ _ _ Hyz Hzx). apply cmp_flip in Hxy. lia.
Qed.

Lemma chain_last_lt (rest : list Datum) :
  forall p z,
    adjacent_sorted (fun x y => partsupfunc cat 0 x y < 0) (p :: rest ++ [z]) ->
    partsupfunc cat 0 p z < 0.
Proof.
  induction rest as [| q rest IH]; intros p z Hc; simpl in Hc.
  - apply Hc.
  - destruct Hc as [Hpq Hc]. apply cmp_lt_le_trans with q; [exact Hpq |].
    specialize (IH q z Hc). lia.
Qed.

Lemma chain_intervals_ge (rest : list Datum) :
  forall p z iv,
    adjacent_sorted (fun x y => partsupfunc cat 0 x y < 0) (p :: rest ++ [z]) ->
    In iv (intervals (p :: rest ++ [z])) ->
    partsupfunc cat 0 p (fst iv) <= 0.
Proof.
  induction rest as [| q rest IH]; intros p z iv Hc Hin.
  - simpl in Hin. destruct Hin as [<- | []]. simpl. rewrite cmp_refl. lia.
  - simpl in Hc. destruct Hc as [Hpq Hc].
    change (intervals (p :: (q :: rest) ++ [z]))
      with ((p, q) :: intervals (q :: rest ++ [z])) in Hin.
    destruct Hin as [<- | Hin].
    + simpl. rewrite cmp_refl. lia.
    + apply cmp_trans with q; [lia |]. apply (IH q z iv Hc Hin).
Qed.

Lemma chain_cover (rest : list Datum) :
  forall p z v,
    adjacent_sorted (fun x y => partsupfunc cat 0 x y < 0) (p :: rest ++ [z]) ->
    within cat p z v <->
    exists iv, In iv (intervals (p :: rest ++ [z])) /\ within cat (fst iv) (snd iv) v.
Proof.
  induction rest as [| q rest IH]; intros p z v Hc.
  - simpl. split.
    + intros H. exists (p, z). split; [left; reflexivity | exact H].
    + intros [iv [[<- | []] H]]. exact H.
  - simpl in Hc. destruct Hc as [Hpq Hc].
    change (intervals (p :: (q :: rest) ++ [z]))
      with ((p, q) :: intervals (q :: rest ++ [z])).
    specialize (IH q z v Hc). split.
    + intros [Hlo Hhi].
      destruct (Z_lt_ge_dec (partsupfunc cat 0 v q) 0) as [Hvq | Hvq].
      * exists (p, q). split; [left; reflexivity | split; assumption].
      * assert (Hqv : partsupfunc cat 0 q v <= 0) by (apply cmp_not_lt_le; lia).
        destruct (proj1 IH (conj Hqv Hhi)) as [iv [Hin Hw]].
        exists iv. split; [right; exact Hin | exact Hw].
    + intros [iv [[<- | Hin] Hw]].
      * destruct Hw as [Hlo Hhi]. simpl in *. split; [exact Hlo |].
        apply cmp_lt_le_trans with q; [exact Hhi |].
        pose proof (chain_last_lt rest q z Hc). lia.
      * destruct (proj2 IH (ex_intro _ iv (conj Hin Hw))) as [Hlo Hhi].
        split; [| exact Hhi]. apply cmp_trans with q; [lia | exact Hlo].
Qed.

Lemma chain_disjoint (rest : list Datum) :
  forall p z v i j iv1 iv2,
    adjacent_sorted (fun x y => partsupfunc cat 0 x y < 0) (p :: rest ++ [z]) ->
    nth_error (intervals (p :: rest ++ [z])) i = Some iv1 ->
    nth_error (intervals (p :: rest ++ [z])) j = Some iv2 ->
    within cat (fst iv1) (snd iv1) v -> within cat (fst iv2) (snd iv2) v ->
    i = j.
Proof.
  assert (clash : forall p q z rest' iv v,
    adjacent_sorted (fun x y => partsupfunc cat 0 x y < 0) (q :: rest' ++ [z]) ->
    In iv (intervals (q :: rest' ++ [z])) ->
    within cat p q v -> within cat (fst iv) (snd iv) v -> False).
  { intros p q z rest' iv v Hc Hin [_ Hvq] [Hlo _].
    pose proof (chain_intervals_ge rest' q z iv Hc Hin) as Hq.
    pose proof (cmp_trans _ _ _ Hq Hlo). apply cmp_flip in Hvq. lia. }
  induction rest as [| q rest IH]; intros p z v i j iv1 iv2 Hc Hi Hj H1 H2.
  - simpl in Hi, Hj.
    destruct i as [| [| i]]; destruct j as [| [| j]]; simpl in *;
      try discriminate; reflexivity.
  - simpl in Hc. destruct Hc as [Hpq Hc].
    change (intervals (p :: (q :: rest) ++ [z]))
      with ((p, q) :: intervals (q :: rest ++ [z])) in Hi, Hj.
    destruct i as [| i]; destruct j as [| j]; simpl in Hi, Hj.
    + reflexivity.
    + inversion Hi; subst iv1. exfalso.
      apply (clash p q z rest iv2 v Hc (nth_error_In _ _ Hj) H1 H2).
    + inversion Hj; subst iv2. exfalso.
      apply (clash p q z rest iv1 v Hc (nth_error_In _ _ Hi) H2 H1).
    + f_equal. apply (IH q z v i j iv1 iv2 Hc Hi Hj H1 H2).
Qed.

End Coverage.

Lemma every_run_chain (plusexpr : Datum -> Res (option Datum)) (b : Datum) :
  forall mids cur,
    every_run cat plusexpr b cur mids -> mids <> [] ->
    adjacent_sorted (fun x y => partsupfunc cat 0 x y < 0) (cur :: mids ++ [b]).
Proof.
  induction mids as [| m mids IH]; intros cur Hrun Hne; [congruence |].
  destruct Hrun as [_ [Hmb [Hcm Hrun]]].
  split; [exact Hcm |].
  destruct mids as [| m' mids].
  - simpl. split; [exact Hmb | exact I].
  - apply IH; [exact Hrun | discriminate].
Qed.

Lemma intervals_chained (pts : list Datum) :
  forall i iv1 iv2,
    nth_error (intervals pts) i = Some iv1 ->
    nth_error (intervals pts) (S i) = Some iv2 ->
    snd iv1 = fst iv2.
Proof.
  induction pts as [| p pts IH]; intros i iv1 iv2 H1 H2.
  - destruct i; discriminate.
  - destruct pts as [| q pts]; [destruct i; discriminate |].
    change (intervals (p :: q :: pts)) with ((p, q) :: intervals (q :: pts)) in H1, H2.
    destruct i as [| i].
    + simpl in H1, H2. inversion H1; subst iv1.
      destruct pts as [| r pts]; [discriminate |].
      simpl in H2. inversion H2. reflexivity.
    + simpl in H1, H2. apply (IH i iv1 iv2 H1 H2).
Qed.

(** What [generateRangePartitions] reduces to for a well-formed element with
    START, END and EVERY and no tablename override. *)
Lemma generateRangePartitions_every (fuel : nat) (parentname : string)
    (partkey : PartitionKeyData) (elem : GpPartDefElem SubPartDef)
    (subPart : option (PartitionSpec SubPartDef)) (pc : partname_comp)
    (spec : GpPartitionRangeSpec) (sitem eitem : GpPartitionRangeItem)
    (s e ev : RawExpr) (a bv b : Datum) (plusexpr : Datum -> Res (option Datum)) :
  boundSpec elem = Some (T_GpPartitionRangeSpec spec) ->
  partnatts partkey = 1%nat ->
  tablename pc = None ->
  partStart spec = Some sitem -> val sitem = [s] ->
  partEnd spec = Some eitem -> val eitem = [e] ->
  partEvery spec = [ev] ->
  transformPartitionBoundValue cat s = Ok (a, false) ->
  transformPartitionBoundValue cat e = Ok (bv, false) ->
  canonicalizeRangeEnd cat bv (end_inclusive spec) = Ok b ->
  initPlusExprState cat ev = Ok plusexpr ->
  generateRangePartitions cat fuel parentname partkey elem subPart pc
  = range_loop cat fuel parentname elem subPart true true true
      {| endVal := b; plusexprstate := Some plusexpr;
         currStart := zeroDatum cat; currEnd := a;
         called := false; endReached := false |} 0 pc [].
Proof.
  intros Hb Hn Ht Hs Hsv He Hev Hevery Hta Htb Hcanon Hplus.
  unfold end_inclusive in Hcanon. rewrite He in Hcanon.
  unfold generateRangePartitions, range_start, range_end, range_every, checked_linitial.
  rewrite Hb, Hn, Hs, He, Ht, Hevery, Hsv, Hev. simpl.
  unfold initPartEveryIterator. rewrite Hta, Htb. simpl.
  rewrite Hcanon. simpl. rewrite Hplus. reflexivity.
Qed.

(** C1: a RANGE element with START [a], END [b] (after canonicalization)
    and EVERY, whose plus expression walks from [a] through the strictly
    increasing points [mids] below [b] and then reaches [b]: with enough
    fuel [generateRangePartitions] returns one statement per interval
    between the consecutive points [a], [mids], [b], the last upper bound
    being END itself; consecutive intervals share their bound, and in an
    ordered column type every value of [a, b) lies in exactly one of them. *)
Theorem every_partitions_cover_range (fuel : nat) (parentname : string)
    (partkey : PartitionKeyData) (elem : GpPartDefElem SubPartDef)
    (subPart : option (PartitionSpec SubPartDef)) (pc : partname_comp)
    (spec : GpPartitionRangeSpec) (sitem eitem : GpPartitionRangeItem)
    (s e ev : RawExpr) (a bv b : Datum) (plusexpr : Datum -> Res (option Datum))
    (mids : list Datum) :
  boundSpec elem = Some (T_GpPartitionRangeSpec spec) ->
  partnatts partkey = 1%nat ->
  tablename pc = None ->
  partStart spec = Some sitem -> val sitem = [s] ->
  partEnd spec = Some eitem -> val eitem = [e] ->
  partEvery spec = [ev] ->
  transformPartitionBoundValue cat s = Ok (a, false) ->
  transformPartitionBoundValue cat e = Ok (bv, false) ->
  canonicalizeRangeEnd cat bv (end_inclusive spec) = Ok b ->
  initPlusExprState cat ev = Ok plusexpr ->
  every_run cat plusexpr b a mids ->
  (List.length mids + 2 <= fuel)%nat ->
  (forall x y z, partsupfunc cat 0 x y <= 0 -> partsupfunc cat 0 y z <= 0 ->
                 partsupfunc cat 0 x z <= 0) ->
  (forall x y, partsupfunc cat 0 x y < 0 <-> partsupfunc cat 0 y x > 0) ->
  exists stmts pc',
    generateRangePartitions cat fuel parentname partkey elem subPart pc = Ok (stmts, pc') /\
    map (@stmt_bounds _ _) stmts = map (@const_bounds _) (intervals (a :: mids ++ [b])) /\
    (forall i iv1 iv2,
        nth_error (intervals (a :: mids ++ [b])) i = Some iv1 ->
        nth_error (intervals (a :: mids ++ [b])) (S i) = Some iv2 ->
        snd iv1 = fst iv2) /\
    (forall v,
        within cat a b v <->
        exists iv, In iv (intervals (a :: mids ++ [b])) /\ within cat (fst iv) (snd iv) v) /\
    (forall v i j iv1 iv2,
        nth_error (intervals (a :: mids ++ [b])) i = Some iv1 ->
        nth_error (intervals (a :: mids ++ [b])) j = Some iv2 ->
        within cat (fst iv1) (snd iv1) v -> within cat (fst iv2) (snd iv2) v ->
        i = j).
Proof.
  intros Hb Hn Ht Hs Hsv He Hev Hevery Hta Htb Hcanon Hplus Hrun Hfuel Htrans Hflip.
  rewrite (generateRangePartitions_every fuel parentname partkey elem subPart pc
             spec sitem eitem s e ev a bv b plusexpr) by assumption.
  destruct (range_loop_every plusexpr b parentname elem subPart true mids a
              {| endVal := b; plusexprstate := Some plusexpr;
                 currStart := zeroDatum cat; currEnd := a;
                 called := false; endReached := false |} fuel 0 pc [])
    as [stmts [pc' [E Hmap]]]; try reflexivity; try assumption.
  exists stmts, pc'. split; [exact E |]. split; [exact Hmap |].
  split; [apply intervals_chained |].
  destruct mids as [| m mids].
  - split.
    + intros v. simpl. split.
      * intros H. exists (a, b). split; [left; reflexivity | exact H].
      * intros [iv [[<- | []] H]]. exact H.
    + intros v i j iv1 iv2 Hi Hj _ _. simpl in Hi, Hj.
      destruct i as [| [| i]]; destruct j as [| [| j]]; simpl in *;
        try discriminate; reflexivity.
  - assert (Hc : adjacent_sorted (fun x y => partsupfunc cat 0 x y < 0)
                   (a :: (m :: mids) ++ [b]))
      by (apply (every_run_chain plusexpr); [exact Hrun | discriminate]).
    split.
    + intros v. apply (chain_cover Htrans Hflip (m :: mids) a b v Hc).
    + intros v i j iv1 iv2.
      apply (chain_disjoint Htrans Hflip (m :: mids) a b v i j iv1 iv2 Hc).
Qed.

(** ** Boundary canonicalization *)

(** The loop reads the element only for the fields that
    [makePartitionCreateStmt] copies and for its name. *)
Lemma range_loop_same_fields (elem elem' : GpPartDefElem SubPartDef) (parentname : string)
    (subPart : option (PartitionSpec SubPartDef)) (has_start has_end has_every : bool) :
  partName elem = partName elem' ->
  options elem = options elem' ->
  tablespacename elem = tablespacename elem' ->
  accessMethod elem = accessMethod elem' ->
  colencs elem = colencs elem' ->
  forall fuel iter i pc result,
    range_loop cat fuel parentname elem subPart has_start has_end has_every iter i pc result
    = range_loop cat fuel parentname elem' subPart has_start has_end has_every
                 iter i pc result.
Proof.
  intros Hn Ho Ht Ha Hc.
  induction fuel as [| fuel IH]; intros iter i pc result; [reflexivity |].
  simpl. destruct (nextPartBound cat iter) as [[[|] iter'] | err]; simpl; try reflexivity.
  unfold range_partname, makePartitionCreateStmt.
  rewrite <- Hn, <- Ho, <- Ht, <- Ha, <- Hc. apply IH.
Qed.

Lemma canonicalizeRangeEnd_exclusive (w : Datum) : canonicalizeRangeEnd cat w false = Ok w.
Proof. reflexivity. Qed.




(** ** The tablename override *)

Lemma initPartEveryIterator_no_every (start end_ : option RawExpr) (endIncl : bool)
    (iter : PartEveryIterator Datum) :
  initPartEveryIterator cat start end_ endIncl None = Ok iter ->
  plusexprstate iter = None /\ called iter = false /\
  (forall s, start = Some s -> transformPartitionBoundValue cat s = Ok (currEnd iter, false)) /\
  (forall e, end_ = Some e ->
     exists bv, transformPartitionBoundValue cat e = Ok (bv, false) /\
                canonicalizeRangeEnd cat bv endIncl = Ok (endVal iter)).
Proof.
  unfold initPartEveryIterator. intros H.
  destruct start as [s |]; destruct end_ as [e |]; simpl in H.
  - destruct (transformPartitionBoundValue cat s) as [[a [|]] | err] eqn:Ea; simpl in H;
      try discriminate.
    destruct (transformPartitionBoundValue cat e) as [[bv [|]] | err] eqn:Eb; simpl in H;
      try discriminate.
    destruct (canonicalizeRangeEnd cat bv endIncl) as [b | err] eqn:Ec; simpl in H;
      try discriminate.
    inversion H; subst iter; simpl. repeat split; try discriminate.
    + intros s0 E; inversion E; subst s0; exact Ea.
    + intros e0 E; inversion E; subst e0. exists bv. split; [exact Eb | exact Ec].
  - destruct (transformPartitionBoundValue cat s) as [[a [|]] | err] eqn:Ea; simpl in H;
      try discriminate.
    inversion H; subst iter; simpl. repeat split; try discriminate.
    intros s0 E; inversion E; subst s0; exact Ea.
  - destruct (transformPartitionBoundValue cat e) as [[bv [|]] | err] eqn:Eb; simpl in H;
      try discriminate.
    destruct (canonicalizeRangeEnd cat bv endIncl) as [b | err] eqn:Ec; simpl in H;
      try discriminate.
    inversion H; subst iter; simpl. repeat split; try discriminate.
    intros e0 E; inversion E; subst e0. exists bv. split; [exact Eb | exact Ec].
  - inversion H; subst iter; simpl. repeat split; discriminate.
Qed.

(** With [partnamecomp->tablename] set, [partEvery] is not read: a
    well-formed element gives exactly one statement, named by the
    tablename, and the name counter is left alone. *)
Lemma generateRangePartitions_tablename (fuel : nat) (parentname : string)
    (partkey : PartitionKeyData) (elem : GpPartDefElem SubPartDef)
    (subPart : option (PartitionSpec SubPartDef)) (pc : partname_comp)
    (spec : GpPartitionRangeSpec) (t : string) (iter : PartEveryIterator Datum) :
  boundSpec elem = Some (T_GpPartitionRangeSpec spec) ->
  partnatts partkey = 1%nat ->
  tablename pc = Some t ->
  (forall item, partStart spec = Some item -> List.length (val item) = 1%nat) ->
  (forall item, partEnd spec = Some item -> List.length (val item) = 1%nat) ->
  initPartEveryIterator cat (start_expr spec) (end_expr spec) (end_inclusive spec) None
  = Ok iter ->
  generateRangePartitions cat (S (S fuel)) parentname partkey elem subPart pc
  = Ok ([ {| relation := t;
             inhRelations := [parentname];
             partbound :=
               {| bound_strategy := Some PARTITION_STRATEGY_RANGE;
                  is_default := false;
                  listdatums := [];
                  lowerdatums := if is_some (start_expr spec)
                                 then [T_Const (currEnd iter) false] else [];
                  upperdatums := if is_some (end_expr spec)
                                 then [T_Const (endVal iter) false] else [] |};
             partspec := subPart;
             stmt_options := options elem;
             stmt_tablespacename := tablespacename elem;
             stmt_accessMethod := accessMethod elem;
             attr_encodings := colencs elem |} ], pc) /\
  (forall s, start_expr spec = Some s ->
     transformPartitionBoundValue cat s = Ok (currEnd iter, false)) /\
  (forall e, end_expr spec = Some e ->
     exists bv, transformPartitionBoundValue cat e = Ok (bv, false) /\
                canonicalizeRangeEnd cat bv (end_inclusive spec) = Ok (endVal iter)).
Proof.
  intros Hb Hn Ht Hs He Hinit.
  destruct (initPartEveryIterator_no_every _ _ _ _ Hinit) as [Hplus [Hcalled [Hsv Hev]]].
  split; [| split; assumption].
  assert (Estart : range_start partkey spec = Ok (start_expr spec)).
  { unfold range_start, start_expr, checked_linitial.
    destruct (partStart spec) as [item |] eqn:E; [| reflexivity].
    rewrite (Hs item eq_refl), Hn. reflexivity. }
  assert (Eend : range_end partkey spec = Ok (end_expr spec, end_inclusive spec)).
  { unfold range_end, end_expr, end_inclusive, checked_linitial.
    destruct (partEnd spec) as [item |] eqn:E; [| reflexivity].
    rewrite (He item eq_refl), Hn. reflexivity. }
  assert (Eevery : range_every partkey pc spec = Ok None).
  { unfold range_every. rewrite Ht. reflexivity. }
  unfold generateRangePartitions. rewrite Hb, Hn, Estart, Eend, Eevery.
  cbn [Nat.eqb negb bind fst snd is_some]. rewrite Hinit. cbn [bind].
  cbn [range_loop]. unfold nextPartBound at 1. rewrite Hplus, Hcalled.
  cbn [negb bind]. unfold nextPartBound at 1. cbn [plusexprstate called negb bind].
  unfold makePartitionCreateStmt, range_boundspec. rewrite Ht.
  cbn [fst snd currStart currEnd app]. reflexivity.
Qed.

(** The first "tablename" option is the override and is taken out of the
    options. *)
Lemma extract_tablename_from_options_found (pre post : list DefElem) (t : string) :
  Forall (fun d => String.eqb (defname d) "tablename" = false) pre ->
  extract_tablename_from_options (pre ++ {| defname := "tablename"; arg := T_String t |} :: post)
  = Ok (Some t, pre ++ post).
Proof.
  induction pre as [| d pre IH]; intros Hpre; simpl.
  - reflexivity.
  - inversion Hpre as [| ? ? Hd Hrest]; subst. rewrite Hd, (IH Hrest). reflexivity.
Qed.

(** ** Column encodings of the generated statements *)

Lemma is_aoco_spec (am : option string) : is_aoco am = true <-> am = Some "aoco".
Proof.
  destruct am as [a |]; simpl; [| split; discriminate].
  split.
  - intros H. apply String.eqb_eq in H. congruence.
  - intros H. inversion H. reflexivity.
Qed.

(** C9: a RANGE element whose options carry a "tablename" entry (the first
    one is the override) has its EVERY clause ignored.  Whatever
    [partEvery] holds, the expansion of a well-formed element returns
    exactly one statement; its name is the override, not a synthesized
    name; its lower bound is the START value and its upper bound the
    (canonicalized) END value, each present exactly when declared; and the
    name counter is left alone. *)
Theorem tablename_override_single_partition (fuel : nat) (parentname : string)
    (key : PartitionKeyData) (subPartSpec : option (PartitionSpec SubPartDef))
    (isSubTemplate : bool) (parentoptions : list DefElem)
    (parentaccessmethod : option string)
    (penc_cls : list ColumnReferenceStorageDirective)
    (elem : GpPartDefElem SubPartDef) (pc : partname_comp)
    (spec : GpPartitionRangeSpec) (pre post : list DefElem) (t : string)
    (iter : PartEveryIterator Datum) :
  strategy key = PARTITION_STRATEGY_RANGE ->
  partnatts key = 1%nat ->
  isDefault elem = false ->
  boundSpec elem = Some (T_GpPartitionRangeSpec spec) ->
  options elem = pre ++ {| defname := "tablename"; arg := T_String t |} :: post ->
  Forall (fun d => String.eqb (defname d) "tablename" = false) pre ->
  (forall item, partStart spec = Some item -> List.length (val item) = 1%nat) ->
  (forall item, partEnd spec = Some item -> List.length (val item) = 1%nat) ->
  initPartEveryIterator cat (start_expr spec) (end_expr spec) (end_inclusive spec) None
  = Ok iter ->
  (forall sp, subPartSpec = Some sp ->
     (if isSubTemplate then gpPartDef sp else subSpec elem) <> None) ->
  (accessMethod elem = Some "aoco" \/
   (accessMethod elem = None /\ parentaccessmethod = Some "aoco") ->
   exists encs, merge_partition_encoding (colencs elem) penc_cls = Ok encs) ->
  exists stmt,
    expand_elem cat (S (S fuel)) parentname key subPartSpec isSubTemplate parentoptions
                parentaccessmethod penc_cls elem pc
    = Ok ([stmt], {| tablename := Some t; level := level pc; partnum := partnum pc |}) /\
    relation stmt = t /\
    partbound stmt
    = {| bound_strategy := Some PARTITION_STRATEGY_RANGE;
         is_default := false;
         listdatums := [];
         lowerdatums := if is_some (start_expr spec)
                        then [T_Const (currEnd iter) false] else [];
         upperdatums := if is_some (end_expr spec)
                        then [T_Const (endVal iter) false] else [] |} /\
    (forall s, start_expr spec = Some s ->
       transformPartitionBoundValue cat s = Ok (currEnd iter, false)) /\
    (forall e, end_expr spec = Some e ->
       exists bv, transformPartitionBoundValue cat e = Ok (bv, false) /\
                  canonicalizeRangeEnd cat bv (end_inclusive spec) = Ok (endVal iter)).
Proof.
  intros Hstrat Hn Hdef Hb Hopts Hpre Hs He Hinit Hsub Henc.
  unfold expand_elem.
  assert (Etmp : exists tmp,
             match subPartSpec with
             | Some sp =>
                 match (if isSubTemplate then gpPartDef sp else subSpec elem) with
                 | Some _ =>
                     Ok (Some {| gpPartDef := if isSubTemplate then gpPartDef sp
                                              else subSpec elem |})
                 | None => Err NoPartitionsAtDepth
                 end
             | None => Ok None
             end = Ok tmp).
  { destruct subPartSpec as [sp |]; [| eexists; reflexivity].
    specialize (Hsub sp eq_refl).
    destruct (if isSubTemplate then gpPartDef sp else subSpec elem); [| congruence].
    eexists; reflexivity. }
  destruct Etmp as [tmp Etmp]. rewrite Etmp. cbn [bind].
  assert (Eprep : exists encs,
             prepare_elem parentoptions parentaccessmethod penc_cls elem
             = Ok (Some t,
                   {| partName := partName elem; boundSpec := boundSpec elem;
                      subSpec := subSpec elem; isDefault := isDefault elem;
                      options := match pre ++ post with
                                 | [] => parentoptions
                                 | _ :: _ => pre ++ post
                                 end;
                      accessMethod := resolved_accessMethod elem parentaccessmethod;
                      tablespacename := tablespacename elem; colencs := encs |})).
  { unfold prepare_elem.
    rewrite Hopts, (extract_tablename_from_options_found pre post t Hpre). cbn [bind].
    destruct (is_aoco (resolved_accessMethod elem parentaccessmethod)) eqn:Eaoco.
    - apply is_aoco_spec in Eaoco.
      destruct Henc as [encs Hm].
      { unfold resolved_accessMethod in Eaoco.
        destruct (accessMethod elem) as [a |]; [left | right; split]; congruence. }
      exists encs. rewrite Hm. reflexivity.
    - exists (colencs elem). reflexivity. }
  destruct Eprep as [encs Eprep]. rewrite Eprep. cbn [bind isDefault].
  rewrite Hdef, Hstrat.
  destruct (generateRangePartitions_tablename fuel parentname key
              {| partName := partName elem; boundSpec := boundSpec elem;
                 subSpec := subSpec elem; isDefault := isDefault elem;
                 options := match pre ++ post with
                            | [] => parentoptions
                            | _ :: _ => pre ++ post
                            end;
                 accessMethod := resolved_accessMethod elem parentaccessmethod;
                 tablespacename := tablespacename elem; colencs := encs |}
              tmp {| tablename := Some t; level := level pc; partnum := partnum pc |}
              spec t iter Hb Hn eq_refl Hs He Hinit) as [Hgen [Hsv Hev]].
  rewrite Hdef in Hgen. rewrite Hgen. eexists. split; [reflexivity |].
  split; [reflexivity |]. split; [reflexivity |]. split; assumption.
Qed.




End ExpansionFacts.

(** ** The column-encoding merge *)

Lemma split_encoding_clauses_some (encs : list ColumnReferenceStorageDirective) :
  forall nd d,
    filter deflt encs = [] ->
    split_encoding_clauses encs nd (Some d)
    = Ok (nd ++ filter (fun c => negb (deflt c)) encs, Some d).
Proof.
  induction encs as [| c rest IH]; intros nd d Hnone; simpl.
  - rewrite app_nil_r. reflexivity.
  - simpl in Hnone. destruct (deflt c); [discriminate |]. simpl.
    rewrite (IH _ _ Hnone), <- app_assoc. reflexivity.
Qed.

Lemma split_encoding_clauses_none (encs : list ColumnReferenceStorageDirective) :
  forall nd,
    at_most_one_default encs ->
    split_encoding_clauses encs nd None
    = Ok (nd ++ filter (fun c => negb (deflt c)) encs, hd_error (filter deflt encs)).
Proof.
  unfold at_most_one_default.
  induction encs as [| c rest IH]; intros nd Hone; simpl.
  - rewrite app_nil_r. reflexivity.
  - simpl in Hone. destruct (deflt c); simpl in *.
    + assert (Hnone : filter deflt rest = [])
        by (destruct (filter deflt rest); [reflexivity | simpl in Hone; lia]).
      rewrite (split_encoding_clauses_some rest nd c Hnone). reflexivity.
    + rewrite (IH _ Hone), <- app_assoc. reflexivity.
Qed.

Lemma add_part_nondefs_filter (part_nondefs elem_nondefs : list ColumnReferenceStorageDirective) :
  forall acc,
    add_part_nondefs part_nondefs elem_nondefs acc
    = acc ++ filter (fun pd => negb (column_found pd elem_nondefs)) part_nondefs.
Proof.
  unfold add_part_nondefs.
  induction part_nondefs as [| pd rest IH]; intros acc; simpl.
  - rewrite app_nil_r. reflexivity.
  - rewrite IH. destruct (column_found pd elem_nondefs); simpl; [reflexivity |].
    rewrite <- app_assoc. reflexivity.
Qed.

Lemma column_found_mentions (elem_colencs : list ColumnReferenceStorageDirective)
    (pd : ColumnReferenceStorageDirective) :
  column_found pd (filter (fun c => negb (deflt c)) elem_colencs) = mentions elem_colencs pd.
Proof.
  unfold column_found, mentions.
  induction elem_colencs as [| c rest IH]; simpl; [reflexivity |].
  destruct (deflt c); simpl; rewrite IH; reflexivity.
Qed.

Lemma filter_twice {A : Type} (f g : A -> bool) (l : list A) :
  filter f (filter g l) = filter (fun x => g x && f x) l.
Proof.
  induction l as [| x l IH]; simpl; [reflexivity |].
  destruct (g x); simpl; [destruct (f x) |]; rewrite IH; reflexivity.
Qed.

Lemma existsb_hd_filter {A : Type} (f : A -> bool) (l : list A) :
  existsb f l = match hd_error (filter f l) with Some _ => true | None => false end.
Proof.
  induction l as [| x l IH]; simpl; [reflexivity |].
  destruct (f x); simpl; [reflexivity | exact IH].
Qed.

Lemma split_encoding_clauses_seen_twice (encs : list ColumnReferenceStorageDirective) :
  forall nd d,
    filter deflt encs <> [] ->
    split_encoding_clauses encs nd (Some d) = Err MultipleDefaultEncodings.
Proof.
  induction encs as [| c rest IH]; intros nd d H; simpl in *; [congruence |].
  destruct (deflt c); [reflexivity |]. apply IH. exact H.
Qed.

Lemma split_encoding_clauses_two_defaults (encs : list ColumnReferenceStorageDirective) :
  forall nd,
    ~ at_most_one_default encs ->
    split_encoding_clauses encs nd None = Err MultipleDefaultEncodings.
Proof.
  unfold at_most_one_default.
  induction encs as [| c rest IH]; intros nd H; simpl in *; [lia |].
  destruct (deflt c); simpl in *.
  - apply split_encoding_clauses_seen_twice.
    destruct (filter deflt rest); [simpl in H; lia | discriminate].
  - apply IH. exact H.
Qed.

(** C7, amended: an empty configuration-level list gives back the element's
    list, and an empty element list gives back the configuration-level list
    as it stands, whatever it holds.  When both lists are non-empty and each
    holds at most one default directive, the merge is the element's list,
    followed by the configuration-level column directives whose column no
    element-level column directive mentions, followed by the
    configuration-level default unless the element has its own default.
    When both are non-empty and one of them holds a second default
    directive, the merge is refused. *)
Theorem merge_partition_encoding_rules
    (elem_colencs penc : list ColumnReferenceStorageDirective) :
  (penc = [] -> merge_partition_encoding elem_colencs penc = Ok elem_colencs) /\
  (elem_colencs = [] -> merge_partition_encoding elem_colencs penc = Ok penc) /\
  (elem_colencs <> [] -> penc <> [] ->
   at_most_one_default elem_colencs -> at_most_one_default penc ->
   merge_partition_encoding elem_colencs penc = Ok (merge_by_rules elem_colencs penc)) /\
  (elem_colencs <> [] -> penc <> [] ->
   ~ at_most_one_default elem_colencs \/ ~ at_most_one_default penc ->
   merge_partition_encoding elem_colencs penc = Err MultipleDefaultEncodings).
Proof.
  split; [| split; [| split]].
  - intros ->. reflexivity.
  - intros ->. unfold merge_partition_encoding. destruct penc; reflexivity.
  - intros He Hp Hone_e Hone_p.
    unfold merge_partition_encoding.
    destruct penc as [| p penc']; [congruence |].
    destruct elem_colencs as [| c elem']; [congruence |].
    rewrite (split_encoding_clauses_none (c :: elem') [] Hone_e).
    rewrite (split_encoding_clauses_none (p :: penc') [] Hone_p).
    cbn [bind app]. rewrite add_part_nondefs_filter, filter_twice.
    unfold merge_by_rules. rewrite existsb_hd_filter.
    assert (Hf : filter (fun x => negb (deflt x) &&
                   negb (column_found x (filter (fun c0 => negb (deflt c0)) (c :: elem'))))
                   (p :: penc')
                 = filter (fun pd => negb (deflt pd) && negb (mentions (c :: elem') pd))
                     (p :: penc')).
    { apply filter_ext. intros pd. rewrite column_found_mentions. reflexivity. }
    rewrite Hf.
    destruct (hd_error (filter deflt (c :: elem'))) as [d |].
    + rewrite app_nil_r. reflexivity.
    + unfold at_most_one_default in Hone_p.
      destruct (filter deflt (p :: penc')) as [| d [| d' ds]]; simpl in *.
      * rewrite app_nil_r. reflexivity.
      * rewrite <- app_assoc. reflexivity.
      * lia.
  - intros He Hp Htwo. unfold merge_partition_encoding.
    destruct penc as [| p penc']; [congruence |].
    destruct elem_colencs as [| c elem']; [congruence |].
    destruct (le_dec (List.length (filter deflt (c :: elem'))) 1) as [Hone | Hmany].
    + rewrite (split_encoding_clauses_none (c :: elem') [] Hone). cbn [bind].
      destruct Htwo as [H | H]; [contradiction |].
      rewrite (split_encoding_clauses_two_defaults (p :: penc') [] H). reflexivity.
    + rewrite (split_encoding_clauses_two_defaults (c :: elem') [] Hmany). reflexivity.
Qed.

(** ** The order of the returned list *)

Section OrderFacts.

Variable Datum : Type.
Variable SubPartDef : Type.
Variable cat : Catalog Datum SubPartDef.
Variable istemplate : SubPartDef -> bool.

Lemma default_first_seen (items : list (DefItem SubPartDef)) :
  forall d acc r,
    default_first items (Some d) acc = Ok r ->
    r = acc ++ filter (fun e => negb (isDefault e)) (def_elems items) /\
    filter (@isDefault _) (def_elems items) = [].
Proof.
  induction items as [| it rest IH]; intros d acc r H; simpl in *.
  - inversion H. rewrite app_nil_r. split; reflexivity.
  - destruct it as [e | c |]; try (apply (IH _ _ _ H)).
    simpl. destruct (isDefault e); simpl; [discriminate |].
    destruct (IH _ _ _ H) as [-> Hnone].
    rewrite <- app_assoc. split; [reflexivity | exact Hnone].
Qed.

Lemma default_first_order (items : list (DefItem SubPartDef)) :
  forall acc r,
    default_first items None acc = Ok r ->
    r = filter (@isDefault _) (def_elems items) ++ acc
        ++ filter (fun e => negb (isDefault e)) (def_elems items).
Proof.
  induction items as [| it rest IH]; intros acc r H; simpl in *.
  - inversion H. rewrite app_nil_r. reflexivity.
  - destruct it as [e | c |]; try (apply (IH _ _ H)).
    simpl. destruct (isDefault e) eqn:Ed; simpl.
    + destruct (default_first_seen _ _ _ _ H) as [-> Hnone].
      rewrite Hnone. reflexivity.
    + rewrite (IH _ _ H), <- app_assoc. reflexivity.
Qed.

Lemma expand_elems_concat (fuel : nat) (parentname : string) (key : PartitionKeyData)
    (subPartSpec : option (PartitionSpec SubPartDef)) (isSubTemplate : bool)
    (parentoptions : list DefElem) (parentaccessmethod : option string)
    (penc_cls : list ColumnReferenceStorageDirective) :
  forall elems pc result out,
    expand_elems cat fuel parentname key subPartSpec isSubTemplate parentoptions
                 parentaccessmethod penc_cls elems pc result = Ok out ->
    exists parts,
      out = result ++ List.concat parts /\
      Forall2 (fun elem part =>
                 exists pc1 pc2,
                   expand_elem cat fuel parentname key subPartSpec isSubTemplate
                               parentoptions parentaccessmethod penc_cls elem pc1
                   = Ok (part, pc2))
              elems parts.
Proof.
  induction elems as [| elem rest IH]; intros pc result out H; simpl in H.
  - inversion H. exists []. simpl. rewrite app_nil_r. split; [reflexivity | constructor].
  - destruct (expand_elem cat fuel parentname key subPartSpec isSubTemplate parentoptions
                parentaccessmethod penc_cls elem pc) as [[new_parts pc1] | err] eqn:E;
      simpl in H; [| discriminate].
    destruct (IH _ _ _ H) as [parts [-> Hall]].
    exists (new_parts :: parts). simpl. rewrite <- app_assoc.
    split; [reflexivity |]. constructor; [| exact Hall].
    exists pc, pc1. exact E.
Qed.

(** For a RANGE key and no sub-partition specification, the expansion of a
    non-DEFAULT element is [generateRangePartitions] on the prepared
    element, with the tablename taken from the element's options. *)
Lemma expand_elem_range (fuel : nat) (parentname : string) (key : PartitionKeyData)
    (isSubTemplate : bool) (parentoptions : list DefElem)
    (parentaccessmethod : option string)
    (penc_cls : list ColumnReferenceStorageDirective)
    (elem elem' : GpPartDefElem SubPartDef) (tn : option string) (pc : partname_comp) :
  strategy key = PARTITION_STRATEGY_RANGE ->
  isDefault elem = false ->
  prepare_elem parentoptions parentaccessmethod penc_cls elem = Ok (tn, elem') ->
  expand_elem cat fuel parentname key None isSubTemplate parentoptions
              parentaccessmethod penc_cls elem pc
  = generateRangePartitions cat fuel parentname key elem' None
      {| tablename := tn; level := level pc; partnum := partnum pc |}.
Proof.
  intros Hs Hd Hprep. unfold expand_elem. rewrite Hprep. cbn [bind].
  assert (Hd' : isDefault elem' = false).
  { unfold prepare_elem in Hprep.
    destruct (extract_tablename_from_options (options elem)) as [[t o] | err];
      simpl in Hprep; [| discriminate].
    destruct (if is_aoco (resolved_accessMethod elem parentaccessmethod)
              then merge_partition_encoding (colencs elem) penc_cls
              else Ok (colencs elem)) as [encs | err];
      simpl in Hprep; [| discriminate].
    inversion Hprep; subst elem'. exact Hd. }
  rewrite Hd', Hs. reflexivity.
Qed.

(** C6, amended: the statements are generated in processing order, the
    DEFAULT element's first and then the others' as declared.  For a key
    that is not RANGE-partitioned [generatePartitions] returns that list.
    For a RANGE key it returns the list that [list_qsort] made of it under
    [qsort_stmt_cmp], with the implicit bounds filled in: the returned
    statements are in the sorted order. *)
Theorem generatePartitions_order (fuel : nat) (parentname : string)
    (key : PartitionKeyData) (nancestors : nat)
    (gpPartSpec : GpPartitionDefinition SubPartDef)
    (subPartSpec : option (PartitionSpec SubPartDef)) (parentoptions : list DefElem)
    (parentaccessmethod : option string) (parentattenc : list (DefItem SubPartDef))
    (generated : list (CreateStmt Datum SubPartDef)) :
  generated_stmts cat istemplate fuel parentname key nancestors gpPartSpec subPartSpec
                  parentoptions parentaccessmethod parentattenc = Ok generated ->
  (exists parts,
      generated = List.concat parts /\
      Forall2 (fun elem part =>
                 exists isSubTemplate opts penc pc1 pc2,
                   expand_elem cat fuel parentname key subPartSpec isSubTemplate
                               opts parentaccessmethod penc elem pc1
                   = Ok (part, pc2))
              (processing_order (partDefElems gpPartSpec)) parts) /\
  (strategy key <> PARTITION_STRATEGY_RANGE ->
   generatePartitions cat istemplate fuel parentname key nancestors gpPartSpec subPartSpec
                      parentoptions parentaccessmethod parentattenc = Ok generated) /\
  (strategy key = PARTITION_STRATEGY_RANGE ->
   forall sorted,
     list_qsort cat (qsort_stmt_cmp cat key) generated = Ok sorted ->
     generatePartitions cat istemplate fuel parentname key nancestors gpPartSpec subPartSpec
                        parentoptions parentaccessmethod parentattenc
     = Ok (deduce_walk None sorted) /\
     map (@relation _ _) (deduce_walk None sorted) = map (@relation _ _) sorted).
Proof.
  intros Hgen. split; [| split].
  - unfold generated_stmts in Hgen.
    destruct (extract_tablename_from_options parentoptions) as [[tn opts] | err];
      simpl in Hgen; [| discriminate].
    destruct (merge_partition_encoding (storage_directives (partDefElems gpPartSpec))
                (storage_directives parentattenc)) as [penc | err];
      simpl in Hgen; [| discriminate].
    destruct (default_first (partDefElems gpPartSpec) None []) as [elems | err] eqn:Ed;
      simpl in Hgen; [| discriminate].
    apply default_first_order in Ed. simpl in Ed.
    destruct (expand_elems_concat _ _ _ _ _ _ _ _ _ _ _ _ Hgen) as [parts [-> Hall]].
    exists parts. split; [reflexivity |].
    unfold processing_order. rewrite <- Ed.
    eapply Forall2_impl; [| exact Hall].
    intros elem part [pc1 [pc2 E]]. eauto 10.
  - intros Hns. unfold generatePartitions. rewrite Hgen. simpl.
    destruct (strategy key); [congruence | reflexivity | reflexivity].
  - intros Hs sorted Hsort. unfold generatePartitions. rewrite Hgen, Hs. simpl.
    unfold deduceImplicitRangeBounds. rewrite Hsort. simpl.
    split; [reflexivity | apply deduce_walk_relation].
Qed.



End OrderFacts.

(** * The properties at concrete inputs *)

Import IntegerKey.

Lemma btintcmp_trans (x y z : Z) :
  btintcmp x y <= 0 -> btintcmp y z <= 0 -> btintcmp x z <= 0.
Proof.
  unfold btintcmp.
  destruct (Z.gtb_spec x y), (Z.eqb_spec x y), (Z.gtb_spec y z), (Z.eqb_spec y z),
    (Z.gtb_spec x z), (Z.eqb_spec x z); lia.
Defined.

Lemma btintcmp_flip (x y : Z) : btintcmp x y < 0 <-> btintcmp y x > 0.
Proof.
  unfold btintcmp.
  destruct (Z.gtb_spec x y), (Z.eqb_spec x y), (Z.gtb_spec y x), (Z.eqb_spec y x); lia.
Defined.

(** START (1) END (10) EVERY (4): the intervals [1,5), [5,9), [9,10). *)
Lemma every_partitions_cover_range_witness :
  exists stmts pc',
    generateRangePartitions catalog 4 "t" range_key
      (elem_of_spec None (one_to_ten_every 4) None []) None top_partcomp = Ok (stmts, pc') /\
    map (@stmt_bounds _ _) stmts = map (@const_bounds _) (intervals (1 :: [5; 9] ++ [10])) /\
    (forall i iv1 iv2,
        nth_error (intervals (1 :: [5; 9] ++ [10])) i = Some iv1 ->
        nth_error (intervals (1 :: [5; 9] ++ [10])) (S i) = Some iv2 ->
        snd iv1 = fst iv2) /\
    (forall v,
        within catalog 1 10 v <->
        exists iv, In iv (intervals (1 :: [5; 9] ++ [10])) /\
                   within catalog (fst iv) (snd iv) v) /\
    (forall v i j iv1 iv2,
        nth_error (intervals (1 :: [5; 9] ++ [10])) i = Some iv1 ->
        nth_error (intervals (1 :: [5; 9] ++ [10])) j = Some iv2 ->
        within catalog (fst iv1) (snd iv1) v -> within catalog (fst iv2) (snd iv2) v ->
        i = j).
Proof.
  apply (every_partitions_cover_range Z unit catalog 4 "t" range_key
           (elem_of_spec None (one_to_ten_every 4) None []) None top_partcomp
           (one_to_ten_every 4) (item 1 PART_EDGE_UNSPECIFIED) (item 10 PART_EDGE_UNSPECIFIED)
           (A_Const_Integer 1) (A_Const_Integer 10) (A_Const_Integer 4)
           1 10 10 (fun param => int_plus param 4) [5; 9]);
    try reflexivity.
  - simpl. repeat split. exists 13. split; [reflexivity | vm_compute; discriminate].
  - exact btintcmp_trans.
  - exact btintcmp_flip.
Defined.

(** A RANGE descriptor against the DEFAULT descriptor. *)
Lemma qsort_stmt_cmp_default_first_witness :
  qsort_stmt_cmp catalog range_key (range_stmt "p1" [const 1] [const 10]) (default_stmt "d")
  = Ok 1 /\
  qsort_stmt_cmp catalog range_key (default_stmt "d") (range_stmt "p1" [const 1] [const 10])
  = Ok (-1).
Proof.
  apply (qsort_stmt_cmp_default_first Z unit catalog range_key
           (range_stmt "p1" [const 1] [const 10]) (default_stmt "d"));
    reflexivity.
Defined.

(** With the DEFAULT descriptor sorted first, an END-only partition that
    follows it keeps an empty lower bound. *)
Example default_sorted_first_example :
  deduceImplicitRangeBounds catalog [range_stmt "p1" [] [const 10]; default_stmt "d"] range_key
  = Ok [ set_partbound (set_lowerdatums [minvalue] (partbound (default_stmt "d")))
                       (default_stmt "d");
         range_stmt "p1" [] [const 10] ].
Proof. reflexivity. Qed.

(** EVERY (0) on START (1) END (10): the iterator fails on its first call. *)
Lemma nextPartBound_no_advance_witness :
  nextPartBound catalog
    {| endVal := 10; plusexprstate := Some (fun param => int_plus param 0);
       currStart := 0; currEnd := 1; called := false; endReached := false |}
  = Err NonMonotonicStep /\
  forall fuel parentname elem subPart has_start has_end has_every i partnamecomp result,
    range_loop catalog (S fuel) parentname elem subPart has_start has_end has_every
      {| endVal := 10; plusexprstate := Some (fun param => int_plus param 0);
         currStart := 0; currEnd := 1; called := false; endReached := false |}
      i partnamecomp result
    = Err NonMonotonicStep.
Proof.
  apply (nextPartBound_no_advance Z unit catalog
           {| endVal := 10; plusexprstate := Some (fun param => int_plus param 0);
              currStart := 0; currEnd := 1; called := false; endReached := false |}
           (fun param => int_plus param 0) 1);
    try reflexivity.
  vm_compute. discriminate.
Defined.

(** C3 as stated fails twice.  With EVERY (0) the "EVERY parameter too small"
    error is raised by the first call, before any pair exists.  With a [+]
    that stops advancing at 4, START (1) END (10) EVERY (3) yields the pair
    (1, 4) and the second call fails with the overflow error. *)
Lemma nextPartBound_second_call_counterexample :
  (exists iter,
      initPartEveryIterator catalog (Some (A_Const_Integer 1)) (Some (A_Const_Integer 10))
                            false (Some (A_Const_Integer 0)) = Ok iter /\
      nextPartBound catalog iter = Err NonMonotonicStep) /\
  (exists iter iter1,
      initPartEveryIterator saturating_catalog (Some (A_Const_Integer 1))
                            (Some (A_Const_Integer 10)) false (Some (A_Const_Integer 3))
      = Ok iter /\
      nextPartBound saturating_catalog iter = Ok (true, iter1) /\
      (currStart iter1, currEnd iter1) = (1, 4) /\
      nextPartBound saturating_catalog iter1 = Err RangeOverflow /\
      nextPartBound saturating_catalog iter1 <> Err NonMonotonicStep).
Proof.
  split.
  - eexists. split; reflexivity.
  - eexists. eexists. split; [reflexivity |]. split; [reflexivity |].
    split; [reflexivity |]. split; [reflexivity | discriminate].
Qed.

(** START (1) END (10) EVERY (3) gives [1,4), [4,7), [7,10). *)
Example every_three_example :
  exists stmts pc',
    generateRangePartitions catalog 4 "t" range_key
      (elem_of_spec None (one_to_ten_every 3) None []) None top_partcomp = Ok (stmts, pc') /\
    map (@stmt_bounds _ _) stmts = map (@const_bounds _) [(1, 4); (4, 7); (7, 10)] /\
    map (@relation _ _) stmts = ["t_1_prt_1"; "t_1_prt_2"; "t_1_prt_3"].
Proof. eexists. eexists. split; [reflexivity |]. split; reflexivity. Qed.

(** START (1) END (10) EVERY (0) is rejected whatever the fuel. *)
Example every_zero_example (fuel : nat) :
  generateRangePartitions catalog (S fuel) "t" range_key
    (elem_of_spec None (one_to_ten_every 0) None []) None top_partcomp
  = Err NonMonotonicStep.
Proof. reflexivity. Qed.

(** START (10) END (5) EVERY (0): the first value already compares [>=] END,
    so one statement with the bounds as declared comes back and no step is
    checked. *)
Example every_zero_inverted_example :
  exists stmts pc',
    generateRangePartitions catalog 2 "t" range_key
      (elem_of_spec None
         {| partStart := Some (item 10 PART_EDGE_UNSPECIFIED);
            partEnd := Some (item 5 PART_EDGE_UNSPECIFIED);
            partEvery := [A_Const_Integer 0] |} None [])
      None top_partcomp = Ok (stmts, pc') /\
    map (@stmt_bounds _ _) stmts = map (@const_bounds _) [(10, 5)].
Proof. eexists. eexists. split; reflexivity. Qed.

(** START (10) only and START (1) only: the first in sorted order takes the
    other's START as its END, and the last gets maxvalue. *)
Lemma deduceImplicitRangeBounds_fills_missing_witness :
  exists out,
    deduceImplicitRangeBounds catalog
      [range_stmt "s10" [const 10] []; range_stmt "s1" [const 1] []] range_key = Ok out /\
    List.length out = List.length [range_stmt "s1" [const 1] []; range_stmt "s10" [const 10] []] /\
    (forall i s t s' t',
        nth_error [range_stmt "s1" [const 1] []; range_stmt "s10" [const 10] []] i = Some s ->
        nth_error [range_stmt "s1" [const 1] []; range_stmt "s10" [const 10] []] (S i) = Some t ->
        nth_error out i = Some s' -> nth_error out (S i) = Some t' ->
        is_default (partbound s) = false -> is_default (partbound t) = false ->
        (upperdatums (partbound s) = [] -> lowerdatums (partbound t) <> [] ->
         upperdatums (partbound s') = lowerdatums (partbound t) /\
         lowerdatums (partbound t') = lowerdatums (partbound t)) /\
        (upperdatums (partbound s) <> [] -> lowerdatums (partbound t) = [] ->
         upperdatums (partbound s') = upperdatums (partbound s) /\
         lowerdatums (partbound t') = upperdatums (partbound s))) /\
    (forall s s',
        nth_error [range_stmt "s1" [const 1] []; range_stmt "s10" [const 10] []] 0 = Some s ->
        nth_error out 0 = Some s' ->
        is_default (partbound s) = false ->
        lowerdatums (partbound s) = [] ->
        lowerdatums (partbound s') = [minvalue]) /\
    (forall i s s',
        nth_error [range_stmt "s1" [const 1] []; range_stmt "s10" [const 10] []] i = Some s ->
        nth_error [range_stmt "s1" [const 1] []; range_stmt "s10" [const 10] []] (S i) = None ->
        nth_error out i = Some s' ->
        is_default (partbound s) = false ->
        upperdatums (partbound s) = [] ->
        upperdatums (partbound s') = [maxvalue]) /\
    (forall i s s',
        nth_error [range_stmt "s1" [const 1] []; range_stmt "s10" [const 10] []] i = Some s ->
        nth_error out i = Some s' ->
        (lowerdatums (partbound s) <> [] ->
         lowerdatums (partbound s') = lowerdatums (partbound s)) /\
        (upperdatums (partbound s) <> [] ->
         upperdatums (partbound s') = upperdatums (partbound s))).
Proof.
  apply (deduceImplicitRangeBounds_fills_missing Z unit catalog range_key
           [range_stmt "s10" [const 10] []; range_stmt "s1" [const 1] []]
           [range_stmt "s1" [const 1] []; range_stmt "s10" [const 10] []]).
  reflexivity.
Defined.

(** END (10) only and END (5) only: the first in sorted order gets
    minvalue, the second starts where the first ends. *)
Example implicit_lower_bounds_example :
  deduceImplicitRangeBounds catalog
    [range_stmt "e10" [] [const 10]; range_stmt "e5" [] [const 5]] range_key
  = Ok [range_stmt "e5" [minvalue] [const 5]; range_stmt "e10" [const 5] [const 10]].
Proof. reflexivity. Qed.

(** C4 as stated fails: two partitions with explicit bounds and a gap
    between them keep their bounds. *)
Lemma deduceImplicitRangeBounds_gap_counterexample :
  exists s t,
    deduceImplicitRangeBounds catalog
      [range_stmt "p1" [const 1] [const 5]; range_stmt "p2" [const 7] [const 10]] range_key
    = Ok [s; t] /\
    upperdatums (partbound s) = [const 5] /\
    lowerdatums (partbound t) = [const 7] /\
    upperdatums (partbound s) <> lowerdatums (partbound t).
Proof.
  eexists. eexists. split; [reflexivity |]. split; [reflexivity |].
  split; [reflexivity | discriminate].
Qed.

(** START (10) only against END (10) only. *)
Lemma qsort_stmt_cmp_lower_upper_tie_witness :
  qsort_stmt_cmp catalog range_key (range_stmt "s" [const 10] []) (range_stmt "e" [] [const 10])
  = Ok 1 /\
  qsort_stmt_cmp catalog range_key (range_stmt "e" [] [const 10]) (range_stmt "s" [const 10] [])
  = Ok 0 /\
  adjacent_sorted (stmt_le catalog range_key)
    [range_stmt "e" [] [const 10]; range_stmt "s" [const 10] []] /\
  forall out,
    Permutation [range_stmt "s" [const 10] []; range_stmt "e" [] [const 10]] out ->
    adjacent_sorted (stmt_le catalog range_key) out ->
    out = [range_stmt "e" [] [const 10]; range_stmt "s" [const 10] []].
Proof.
  destruct (qsort_stmt_cmp_lower_upper_tie Z unit catalog range_key
              (range_stmt "s" [const 10] []) (range_stmt "e" [] [const 10])
              eq_refl ltac:(discriminate) eq_refl eq_refl ltac:(discriminate))
    as [H1 [_ [H3 H4]]].
  split; [apply H1; reflexivity |].
  split; [rewrite H3; reflexivity |].
  apply H4; reflexivity.
Defined.

(** The insertion sort of the examples puts END (10) only first from either
    input order. *)
Example end_only_sorts_first_example :
  list_qsort catalog (qsort_stmt_cmp catalog range_key)
    [range_stmt "s" [const 10] []; range_stmt "e" [] [const 10]]
  = Ok [range_stmt "e" [] [const 10]; range_stmt "s" [const 10] []] /\
  list_qsort catalog (qsort_stmt_cmp catalog range_key)
    [range_stmt "e" [] [const 10]; range_stmt "s" [const 10] []]
  = Ok [range_stmt "e" [] [const 10]; range_stmt "s" [const 10] []].
Proof. split; reflexivity. Qed.

(** A RANGE table declared as [a] : [10, 20), DEFAULT [d], [b] : [1, 10). *)
Lemma generatePartitions_order_witness :
  exists generated,
    generated_stmts catalog no_template 5 "t" range_key 0
      {| partDefElems := [T_GpPartDefElem (range_elem (Some "a") (Some 10) (Some 20) [] []);
                          T_GpPartDefElem (default_elem "d");
                          T_GpPartDefElem (range_elem (Some "b") (Some 1) (Some 10) [] [])] |}
      None [] None [] = Ok generated /\
    (exists parts,
        generated = List.concat parts /\
        Forall2 (fun elem part =>
                   exists isSubTemplate opts penc pc1 pc2,
                     expand_elem catalog 5 "t" range_key None isSubTemplate
                                 opts None penc elem pc1
                     = Ok (part, pc2))
                (processing_order
                   [T_GpPartDefElem (range_elem (Some "a") (Some 10) (Some 20) [] []);
                    T_GpPartDefElem (default_elem "d");
                    T_GpPartDefElem (range_elem (Some "b") (Some 1) (Some 10) [] [])])
                parts) /\
    (strategy range_key <> PARTITION_STRATEGY_RANGE ->
     generatePartitions catalog no_template 5 "t" range_key 0
       {| partDefElems := [T_GpPartDefElem (range_elem (Some "a") (Some 10) (Some 20) [] []);
                           T_GpPartDefElem (default_elem "d");
                           T_GpPartDefElem (range_elem (Some "b") (Some 1) (Some 10) [] [])] |}
       None [] None [] = Ok generated) /\
    (strategy range_key = PARTITION_STRATEGY_RANGE ->
     forall sorted,
       list_qsort catalog (qsort_stmt_cmp catalog range_key) generated = Ok sorted ->
       generatePartitions catalog no_template 5 "t" range_key 0
         {| partDefElems := [T_GpPartDefElem (range_elem (Some "a") (Some 10) (Some 20) [] []);
                             T_GpPartDefElem (default_elem "d");
                             T_GpPartDefElem (range_elem (Some "b") (Some 1) (Some 10) [] [])] |}
         None [] None []
       = Ok (deduce_walk None sorted) /\
       map (@relation _ _) (deduce_walk None sorted) = map (@relation _ _) sorted).
Proof.
  eexists. split; [reflexivity |].
  apply (generatePartitions_order Z unit catalog no_template 5 "t" range_key 0
           {| partDefElems := [T_GpPartDefElem (range_elem (Some "a") (Some 10) (Some 20) [] []);
                               T_GpPartDefElem (default_elem "d");
                               T_GpPartDefElem (range_elem (Some "b") (Some 1) (Some 10) [] [])] |}
           None [] None []).
  reflexivity.
Defined.

(** C6 as stated fails for a RANGE key: declared as [a] : [10, 20) and then
    [b] : [1, 10), the statements are generated in that order and returned
    in the sorted order, [b] first. *)
Lemma generatePartitions_returns_sorted_counterexample :
  exists generated returned,
    generated_stmts catalog no_template 5 "t" range_key 0
      {| partDefElems := [T_GpPartDefElem (range_elem (Some "a") (Some 10) (Some 20) [] []);
                          T_GpPartDefElem (range_elem (Some "b") (Some 1) (Some 10) [] [])] |}
      None [] None [] = Ok generated /\
    generatePartitions catalog no_template 5 "t" range_key 0
      {| partDefElems := [T_GpPartDefElem (range_elem (Some "a") (Some 10) (Some 20) [] []);
                          T_GpPartDefElem (range_elem (Some "b") (Some 1) (Some 10) [] [])] |}
      None [] None [] = Ok returned /\
    map (@relation _ _) generated = ["t_1_prt_a"; "t_1_prt_b"] /\
    map (@relation _ _) returned = ["t_1_prt_b"; "t_1_prt_a"] /\
    returned <> generated.
Proof.
  eexists. eexists. split; [reflexivity |]. split; [reflexivity |].
  split; [reflexivity |]. split; [reflexivity | discriminate].
Qed.

(** For a LIST key the returned list is in processing order: declared as
    [a], DEFAULT [d], [b], it comes back as [d], [a], [b]. *)
Example list_order_example :
  exists returned,
    generatePartitions catalog no_template 0 "t" list_key 0
      {| partDefElems := [T_GpPartDefElem (list_elem "a" 2);
                          T_GpPartDefElem (default_elem "d");
                          T_GpPartDefElem (list_elem "b" 1)] |}
      None [] None [] = Ok returned /\
    map (@relation _ _) returned = ["t_1_prt_d"; "t_1_prt_a"; "t_1_prt_b"].
Proof. eexists. split; reflexivity. Qed.

(** An element-level directive for column [a] against configuration-level
    directives for [a], for [b] and a default: the directive for [b] and the
    default are added, the one for [a] is not. *)
Lemma merge_partition_encoding_rules_witness :
  merge_partition_encoding [column_encoding "a" "zlib"] [column_encoding "a" "rle_type"; column_encoding "b" "rle_type"; default_encoding "none"]
  = Ok (merge_by_rules [column_encoding "a" "zlib"] [column_encoding "a" "rle_type"; column_encoding "b" "rle_type"; default_encoding "none"]) /\
  merge_by_rules [column_encoding "a" "zlib"] [column_encoding "a" "rle_type"; column_encoding "b" "rle_type"; default_encoding "none"]
  = [column_encoding "a" "zlib"; column_encoding "b" "rle_type"; default_encoding "none"].
Proof.
  split; [| reflexivity].
  apply (merge_partition_encoding_rules [column_encoding "a" "zlib"] [column_encoding "a" "rle_type"; column_encoding "b" "rle_type"; default_encoding "none"]);
    try discriminate; unfold at_most_one_default; simpl; lia.
Defined.

(** The two early returns and the refusal, at concrete lists. *)
Example merge_partition_encoding_edges_example :
  merge_partition_encoding [column_encoding "a" "zlib"] [] = Ok [column_encoding "a" "zlib"] /\
  merge_partition_encoding [] [default_encoding "zlib"; default_encoding "none"]
  = Ok [default_encoding "zlib"; default_encoding "none"] /\
  merge_partition_encoding [default_encoding "zlib"; default_encoding "none"]
                           [column_encoding "a" "zlib"]
  = Err MultipleDefaultEncodings.
Proof. repeat split. Qed.

(** C7 as stated fails twice.  For an element without directives the
    configuration-level list comes back in its own order, its default
    directive first and not last.  And with directives on both levels a
    second configuration-level default gives no merged list at all: the
    merge is refused. *)
Lemma merge_partition_encoding_empty_element_counterexample :
  (merge_partition_encoding [] [default_encoding "zlib"; column_encoding "a" "rle_type"]
   = Ok [default_encoding "zlib"; column_encoding "a" "rle_type"] /\
   merge_by_rules [] [default_encoding "zlib"; column_encoding "a" "rle_type"]
   = [column_encoding "a" "rle_type"; default_encoding "zlib"] /\
   merge_partition_encoding [] [default_encoding "zlib"; column_encoding "a" "rle_type"]
   <> Ok (merge_by_rules [] [default_encoding "zlib"; column_encoding "a" "rle_type"])) /\
  (merge_partition_encoding [column_encoding "a" "zlib"]
                            [default_encoding "zlib"; default_encoding "none"]
   = Err MultipleDefaultEncodings /\
   forall r, merge_partition_encoding [column_encoding "a" "zlib"]
                                      [default_encoding "zlib"; default_encoding "none"]
             <> Ok r).
Proof.
  split.
  - split; [reflexivity |]. split; [reflexivity | discriminate].
  - split; [reflexivity | intros r; discriminate].
Qed.


(** The same clause with an exclusive END (10) keeps 10: one statement
    [1,10) without EVERY. *)
Example exclusive_end_example :
  canonicalizeRangeEnd catalog 10 false = Ok 10 /\
  exists stmts pc',
    generateRangePartitions catalog 2 "t" range_key
      (elem_of_spec None
         {| partStart := Some (item 1 PART_EDGE_UNSPECIFIED);
            partEnd := Some (item 10 PART_EDGE_EXCLUSIVE);
            partEvery := [] |} None [])
      None top_partcomp = Ok (stmts, pc') /\
    map (@stmt_bounds _ _) stmts = [const_bounds (1, 10)].
Proof. split; [reflexivity |]. eexists. eexists. split; reflexivity. Qed.

(** An inclusive END (10) without EVERY gives the one statement [1,11). *)
Example inclusive_end_single_example :
  exists stmts pc',
    generateRangePartitions catalog 2 "t" range_key
      (elem_of_spec None
         {| partStart := Some (item 1 PART_EDGE_UNSPECIFIED);
            partEnd := Some (item 10 PART_EDGE_INCLUSIVE);
            partEvery := [] |} None [])
      None top_partcomp = Ok (stmts, pc') /\
    map (@stmt_bounds _ _) stmts = [const_bounds (1, 11)].
Proof. eexists. eexists. split; reflexivity. Qed.

(** The inclusive END (10) above gives the bounds [1,5), [5,9), [9,11). *)
Example inclusive_end_example :
  exists stmts pc',
    generateRangePartitions catalog 5 "t" range_key
      (elem_of_spec None
         {| partStart := Some (item 1 PART_EDGE_UNSPECIFIED);
            partEnd := Some (item 10 PART_EDGE_INCLUSIVE);
            partEvery := [A_Const_Integer 4] |} None [])
      None top_partcomp = Ok (stmts, pc') /\
    map (@stmt_bounds _ _) stmts = map (@const_bounds _) [(1, 5); (5, 9); (9, 11)].
Proof. eexists. eexists. split; reflexivity. Qed.

(** [PARTITION p START (1) END (10) EVERY (3)
    WITH (fillfactor = '70', tablename = 'legacy')]: one statement named
    "legacy" for [1, 10), although EVERY (3) would give three. *)
Lemma tablename_override_single_partition_witness :
  exists stmt,
    expand_elem catalog 2 "t" range_key None false [] None []
      (range_elem (Some "p") (Some 1) (Some 10) [3]
                  [fillfactor_option "70"; tablename_option "legacy"])
      top_partcomp
    = Ok ([stmt], {| tablename := Some "legacy"; level := 1; partnum := 0 |}) /\
    relation stmt = "legacy" /\
    partbound stmt
    = {| bound_strategy := Some PARTITION_STRATEGY_RANGE;
         is_default := false;
         listdatums := [];
         lowerdatums := [T_Const 1 false];
         upperdatums := [T_Const 10 false] |}.
Proof.
  destruct (tablename_override_single_partition Z unit catalog 0 "t" range_key
              None false [] None []
              (range_elem (Some "p") (Some 1) (Some 10) [3]
                          [fillfactor_option "70"; tablename_option "legacy"])
              top_partcomp (one_to_ten_every 3) [fillfactor_option "70"] [] "legacy"
              {| endVal := 10; plusexprstate := None; currStart := 0; currEnd := 1;
                 called := false; endReached := false |})
    as [stmt [Hrun [Hname [Hbound _]]]]; try reflexivity.
  - repeat constructor.
  - intros it H. inversion H. reflexivity.
  - intros it H. inversion H. reflexivity.
  - intros sp H. discriminate.
  - intros [H | [_ H]]; discriminate.
  - exists stmt. split; [exact Hrun |]. split; [exact Hname | exact Hbound].
Defined.

(** Without the tablename entry the same element gives three statements. *)
Example every_without_override_example :
  exists stmts pc',
    expand_elem catalog 5 "t" range_key None false [] None []
      (range_elem (Some "p") (Some 1) (Some 10) [3] [fillfactor_option "70"])
      top_partcomp = Ok (stmts, pc') /\
    map (@stmt_bounds _ _) stmts = map (@const_bounds _) [(1, 4); (4, 7); (7, 10)] /\
    map (@relation _ _) stmts = ["t_1_prt_p_1"; "t_1_prt_p_2"; "t_1_prt_p_3"].
Proof. eexists. eexists. split; [reflexivity |]. split; reflexivity. Qed.

(** The same through [generatePartitions]: the option
    [tablename = 'legacy'] on a named element with EVERY (3). *)
Example tablename_override_example :
  exists returned,
    generatePartitions catalog no_template 2 "t" range_key 0
      {| partDefElems :=
           [T_GpPartDefElem
              (range_elem (Some "p") (Some 1) (Some 10) [3]
                          [{| defname := "tablename"; arg := T_String "legacy" |}])] |}
      None [] None [] = Ok returned /\
    map (@relation _ _) returned = ["legacy"] /\
    map (@stmt_bounds _ _) returned = map (@const_bounds _) [(1, 10)] /\
    map (@stmt_options _ _) returned = [[]].
Proof. eexists. split; [reflexivity |]. repeat split; reflexivity. Qed.


(** The same table stored row-wise: nothing is merged. *)
Example encodings_not_merged_example :
  exists generated,
    generated_stmts catalog no_template 2 "t" range_key 0
      {| partDefElems :=
           [T_GpPartDefElem
              (elem_of_spec (Some "p1")
                 {| partStart := Some (item 1 PART_EDGE_UNSPECIFIED);
                    partEnd := Some (item 10 PART_EDGE_UNSPECIFIED);
                    partEvery := [] |}
                 None [column_encoding "a" "zlib"]);
            T_ColumnReferenceStorageDirective unit (column_encoding "b" "rle_type");
            T_GpPartDefElem
              (elem_of_spec (Some "p2")
                 {| partStart := Some (item 10 PART_EDGE_UNSPECIFIED);
                    partEnd := Some (item 20 PART_EDGE_UNSPECIFIED);
                    partEvery := [] |}
                 (Some "heap") [column_encoding "c" "zlib"])] |}
      None [] (Some "heap")
      [T_ColumnReferenceStorageDirective unit (default_encoding "zlib")]
    = Ok generated /\
    map (@stmt_accessMethod _ _) generated = [Some "heap"; Some "heap"] /\
    map (@attr_encodings _ _) generated
    = [[column_encoding "a" "zlib"]; [column_encoding "c" "zlib"]].
Proof. eexists. split; [reflexivity |]. split; reflexivity. Qed.

(** * Further properties of the expansion routines *)

(** ** extract_tablename_from_options *)

(** X1: options without a "tablename" entry come back as they are, with no
    name. *)
Theorem extract_tablename_absent (opts : list DefElem) :
  Forall (fun d => is_tablename d = false) opts ->
  extract_tablename_from_options opts = Ok (None, opts).
Proof.
  induction opts as [| d opts IH]; intros H; simpl; [reflexivity |].
  inversion H as [| ? ? Hd Hrest]; subst.
  unfold is_tablename in Hd. rewrite Hd, (IH Hrest). reflexivity.
Qed.

(** X2: only the first "tablename" entry is read and deleted: the entries
    before it and everything after it, later "tablename" entries included,
    stay in place and in order. *)
Theorem extract_tablename_first_only (pre post : list DefElem) (t : string) :
  Forall (fun d => is_tablename d = false) pre ->
  extract_tablename_from_options (pre ++ {| defname := "tablename"; arg := T_String t |} :: post)
  = Ok (Some t, pre ++ post).
Proof.
  induction pre as [| d pre IH]; intros H; simpl; [reflexivity |].
  inversion H as [| ? ? Hd Hrest]; subst.
  unfold is_tablename in Hd. rewrite Hd, (IH Hrest). reflexivity.
Qed.

(** X3: when the first "tablename" entry is not a string the options are
    rejected, whatever follows it. *)
Theorem extract_tablename_not_string (pre post : list DefElem) (text : string) :
  Forall (fun d => is_tablename d = false) pre ->
  extract_tablename_from_options
    (pre ++ {| defname := "tablename"; arg := T_OtherArg text |} :: post)
  = Err InvalidTablenameSpecification.
Proof.
  induction pre as [| d pre IH]; intros H; simpl; [reflexivity |].
  inversion H as [| ? ? Hd Hrest]; subst.
  unfold is_tablename in Hd. rewrite Hd, (IH Hrest). reflexivity.
Qed.

(** ** split_encoding_clauses and merge_partition_encoding *)

(** X4: with directives on both levels, a second default directive on either
    level makes the merge fail. *)
Theorem merge_partition_encoding_two_defaults
    (elem_colencs penc : list ColumnReferenceStorageDirective) :
  elem_colencs <> [] -> penc <> [] ->
  ~ at_most_one_default elem_colencs \/ ~ at_most_one_default penc ->
  merge_partition_encoding elem_colencs penc = Err MultipleDefaultEncodings.
Proof.
  intros He Hp Htwo. unfold merge_partition_encoding.
  destruct penc as [| p penc']; [congruence |].
  destruct elem_colencs as [| c elem']; [congruence |].
  destruct (le_dec (List.length (filter deflt (c :: elem'))) 1) as [Hone | Hmany].
  - rewrite (split_encoding_clauses_none (c :: elem') [] Hone). cbn [bind].
    destruct Htwo as [H | H]; [contradiction |].
    rewrite (split_encoding_clauses_two_defaults (p :: penc') [] H). reflexivity.
  - rewrite (split_encoding_clauses_two_defaults (c :: elem') [] Hmany). reflexivity.
Qed.

Lemma split_encoding_clauses_subset (encs : list ColumnReferenceStorageDirective) :
  forall nd def n d,
    split_encoding_clauses encs nd def = Ok (n, d) ->
    (forall x, In x n -> In x nd \/ In x encs) /\
    (forall x, d = Some x -> def = Some x \/ In x encs).
Proof.
  induction encs as [| c rest IH]; intros nd def n d H; simpl in H.
  - inversion H; subst. split; intros x Hx; left; exact Hx.
  - destruct (deflt c).
    + destruct def as [d0 |]; [discriminate |].
      destruct (IH _ _ _ _ H) as [Hn Hd]. split.
      * intros x Hx. destruct (Hn x Hx) as [? | ?]; [left | right; right]; assumption.
      * intros x Hx. destruct (Hd x Hx) as [E | ?].
        -- inversion E; subst. right; left; reflexivity.
        -- right; right; assumption.
    + destruct (IH _ _ _ _ H) as [Hn Hd]. split.
      * intros x Hx. destruct (Hn x Hx) as [Hin | ?]; [| right; right; assumption].
        apply in_app_or in Hin. destruct Hin as [? | [<- | []]];
          [left; assumption | right; left; reflexivity].
      * intros x Hx. destruct (Hd x Hx) as [? | ?]; [left | right; right]; assumption.
Qed.

(** X5: whenever the merge succeeds, the element's directives come first in
    the result, unchanged and in order, and everything after them is a
    configuration-level directive. *)
Theorem merge_partition_encoding_keeps_element
    (elem_colencs penc r : list ColumnReferenceStorageDirective) :
  merge_partition_encoding elem_colencs penc = Ok r ->
  exists added, r = elem_colencs ++ added /\ incl added penc.
Proof.
  unfold merge_partition_encoding. intros H.
  destruct penc as [| p penc'].
  - inversion H. exists []. rewrite app_nil_r. split; [reflexivity | intros x []].
  - destruct elem_colencs as [| c elem'].
    + inversion H. exists (p :: penc'). split; [reflexivity | apply incl_refl].
    + destruct (split_encoding_clauses (c :: elem') [] None) as [[en ed] | err];
        [| discriminate].
      destruct (split_encoding_clauses (p :: penc') [] None) as [[pn pd] | err] eqn:Ep;
        [| discriminate].
      cbn [bind] in H. rewrite add_part_nondefs_filter in H.
      destruct (split_encoding_clauses_subset _ _ _ _ _ Ep) as [Hn Hd].
      assert (Hf : incl (filter (fun pd0 => negb (column_found pd0 en)) pn) (p :: penc')).
      { intros x Hx. apply filter_In in Hx. destruct Hx as [Hx _].
        destruct (Hn x Hx) as [[] | ?]. assumption. }
      destruct ed as [d |]; [| destruct pd as [d |]]; inversion H; subst r.
      * eexists. split; [reflexivity | exact Hf].
      * rewrite <- app_assoc. eexists. split; [reflexivity |].
        apply incl_app; [exact Hf |].
        intros x [<- | []]. destruct (Hd d eq_refl) as [? | ?]; [discriminate | assumption].
      * eexists. split; [reflexivity | exact Hf].
Qed.

Lemma merge_partition_encoding_nonempty
    (elem_colencs penc : list ColumnReferenceStorageDirective) :
  elem_colencs <> [] -> penc <> [] ->
  at_most_one_default elem_colencs -> at_most_one_default penc ->
  merge_partition_encoding elem_colencs penc = Ok (merge_by_rules elem_colencs penc).
Proof.
  intros He Hp Hone_e Hone_p. unfold merge_partition_encoding.
  destruct penc as [| p penc']; [congruence |].
  destruct elem_colencs as [| c elem']; [congruence |].
  rewrite (split_encoding_clauses_none (c :: elem') [] Hone_e).
  rewrite (split_encoding_clauses_none (p :: penc') [] Hone_p).
  cbn [bind app]. rewrite add_part_nondefs_filter, filter_twice.
  unfold merge_by_rules. rewrite existsb_hd_filter.
  rewrite (filter_ext
             (fun x => negb (deflt x) &&
                       negb (column_found x (filter (fun c0 => negb (deflt c0)) (c :: elem'))))
             (fun pd => negb (deflt pd) && negb (mentions (c :: elem') pd)))
    by (intros pd; rewrite column_found_mentions; reflexivity).
  destruct (hd_error (filter deflt (c :: elem'))) as [d |].
  - rewrite app_nil_r. reflexivity.
  - unfold at_most_one_default in Hone_p.
    destruct (filter deflt (p :: penc')) as [| d [| d' ds]]; simpl in *.
    + rewrite app_nil_r. reflexivity.
    + rewrite <- app_assoc. reflexivity.
    + lia.
Qed.

Lemma filter_none {A : Type} (f : A -> bool) (l : list A) :
  (forall x, In x l -> f x = false) -> filter f l = [].
Proof.
  induction l as [| x l IH]; intros H; simpl; [reflexivity |].
  rewrite (H x (or_introl eq_refl)). apply IH. intros y Hy. apply H. right. exact Hy.
Qed.

Lemma existsb_false_filter {A : Type} (f : A -> bool) (l : list A) :
  existsb f l = false -> filter f l = [].
Proof.
  intros H. apply filter_none. intros x Hx.
  destruct (f x) eqn:E; [| reflexivity].
  assert (existsb f l = true) by (apply existsb_exists; exists x; split; assumption).
  congruence.
Qed.

(** A list that already mentions every column directive of [penc], and that
    has a default whenever [penc] has one, is left alone by the rules. *)
Lemma merge_by_rules_fixed (r penc : list ColumnReferenceStorageDirective) :
  (forall pd, In pd penc -> deflt pd = false -> mentions r pd = true) ->
  (existsb deflt r = false -> filter deflt penc = []) ->
  merge_by_rules r penc = r.
Proof.
  intros Hm Hd. unfold merge_by_rules.
  rewrite (filter_none (fun pd => negb (deflt pd) && negb (mentions r pd)) penc).
  - destruct (existsb deflt r) eqn:E; simpl.
    + apply app_nil_r.
    + rewrite (Hd eq_refl). apply app_nil_r.
  - intros pd Hin. destruct (deflt pd) eqn:E; [reflexivity |].
    rewrite (Hm pd Hin E). reflexivity.
Qed.

Lemma mentions_self (l : list ColumnReferenceStorageDirective)
    (pd : ColumnReferenceStorageDirective) :
  In pd l -> deflt pd = false -> mentions l pd = true.
Proof.
  intros Hin Hd. unfold mentions. apply existsb_exists. exists pd.
  split; [exact Hin |]. rewrite Hd, String.eqb_refl. reflexivity.
Qed.

Lemma mentions_app (l1 l2 : list ColumnReferenceStorageDirective)
    (pd : ColumnReferenceStorageDirective) :
  mentions (l1 ++ l2) pd = mentions l1 pd || mentions l2 pd.
Proof. unfold mentions. apply existsb_app. Qed.

Lemma filter_deflt_rules (elem_colencs penc : list ColumnReferenceStorageDirective) :
  filter deflt (merge_by_rules elem_colencs penc)
  = filter deflt elem_colencs
    ++ (if existsb deflt elem_colencs then [] else filter deflt penc).
Proof.
  unfold merge_by_rules. rewrite !filter_app, filter_twice.
  rewrite (filter_none
             (fun x => negb (deflt x) && negb (mentions elem_colencs x) && deflt x) penc).
  - destruct (existsb deflt elem_colencs); simpl; [reflexivity |].
    rewrite filter_twice.
    rewrite (filter_ext (fun x => deflt x && deflt x) deflt)
      by (intros x; destruct (deflt x); reflexivity).
    reflexivity.
  - intros x _. destruct (deflt x); simpl; [reflexivity | apply andb_false_r].
Qed.

(** X6: merging the configuration-level directives a second time changes
    nothing: with at most one default on each level, the result of a merge
    merged again with the same configuration-level list is that result. *)
Theorem merge_partition_encoding_idempotent
    (elem_colencs penc r : list ColumnReferenceStorageDirective) :
  at_most_one_default elem_colencs -> at_most_one_default penc ->
  merge_partition_encoding elem_colencs penc = Ok r ->
  merge_partition_encoding r penc = Ok r.
Proof.
  intros Hone_e Hone_p H.
  destruct penc as [| p penc'].
  - destruct r; reflexivity.
  - destruct elem_colencs as [| c elem'].
    + simpl in H. inversion H; subst r.
      rewrite merge_partition_encoding_nonempty; try discriminate; try assumption.
      f_equal. apply merge_by_rules_fixed.
      * apply mentions_self.
      * apply existsb_false_filter.
    + rewrite merge_partition_encoding_nonempty in H; try discriminate; try assumption.
      inversion H as [Hr]. clear H.
      assert (Hne : merge_by_rules (c :: elem') (p :: penc') <> []) by discriminate.
      assert (Hone_r : at_most_one_default (merge_by_rules (c :: elem') (p :: penc'))).
      { unfold at_most_one_default. rewrite filter_deflt_rules.
        destruct (existsb deflt (c :: elem')) eqn:E.
        - rewrite app_nil_r. exact Hone_e.
        - rewrite (existsb_false_filter _ _ E). exact Hone_p. }
      rewrite merge_partition_encoding_nonempty; try discriminate; try assumption.
      f_equal. apply merge_by_rules_fixed.
      * intros pd Hin Hd. unfold merge_by_rules. rewrite !mentions_app.
        destruct (mentions (c :: elem') pd) eqn:Em; [reflexivity |].
        apply orb_true_iff. right. apply orb_true_iff. left.
        apply mentions_self; [| exact Hd].
        apply filter_In. split; [exact Hin |]. rewrite Hd, Em. reflexivity.
      * intros Hnone. unfold merge_by_rules in Hnone. rewrite !existsb_app in Hnone.
        apply orb_false_iff in Hnone. destruct Hnone as [He Hrest].
        apply orb_false_iff in Hrest. destruct Hrest as [_ Hd].
        rewrite He in Hd. apply existsb_false_filter in Hd.
        rewrite filter_twice in Hd.
        rewrite (filter_ext (fun x => deflt x && deflt x) deflt) in Hd
          by (intros x; destruct (deflt x); reflexivity).
        exact Hd.
Qed.

Section FurtherFacts.

Variable Datum : Type.
Variable SubPartDef : Type.
Variable cat : Catalog Datum SubPartDef.
Variable istemplate : SubPartDef -> bool.

(** ** The DEFAULT-first pass *)

Lemma default_first_second_default (items : list (DefItem SubPartDef)) :
  forall d acc,
    filter (@isDefault _) (def_elems items) <> [] ->
    default_first items (Some d) acc = Err MultipleDefaultPartitions.
Proof.
  induction items as [| it rest IH]; intros d acc H; simpl in *; [congruence |].
  destruct it as [e | c |]; try (apply IH; exact H).
  simpl in H. destruct (isDefault e); [reflexivity |]. apply IH. exact H.
Qed.

Lemma default_first_two_defaults (items : list (DefItem SubPartDef)) :
  forall acc,
    (2 <= List.length (filter (@isDefault _) (def_elems items)))%nat ->
    default_first items None acc = Err MultipleDefaultPartitions.
Proof.
  induction items as [| it rest IH]; intros acc H; simpl in *; [lia |].
  destruct it as [e | c |]; try (apply IH; exact H).
  simpl in H. destruct (isDefault e); simpl in H.
  - apply default_first_second_default.
    destruct (filter (@isDefault _) (def_elems rest)); [simpl in H; lia | discriminate].
  - apply IH. exact H.
Qed.

Lemma default_first_no_default (items : list (DefItem SubPartDef)) :
  forall d acc,
    filter (@isDefault _) (def_elems items) = [] ->
    default_first items (Some d) acc
    = Ok (acc ++ filter (fun e => negb (isDefault e)) (def_elems items)).
Proof.
  induction items as [| it rest IH]; intros d acc H; simpl in *.
  - rewrite app_nil_r. reflexivity.
  - destruct it as [e | c |]; try (apply IH; exact H).
    simpl in H. simpl. destruct (isDefault e); [discriminate |]. simpl.
    rewrite (IH _ _ H), <- app_assoc. reflexivity.
Qed.

Lemma default_first_at_most_one (items : list (DefItem SubPartDef)) :
  forall acc,
    (List.length (filter (@isDefault _) (def_elems items)) <= 1)%nat ->
    default_first items None acc
    = Ok (filter (@isDefault _) (def_elems items) ++ acc
          ++ filter (fun e => negb (isDefault e)) (def_elems items)).
Proof.
  induction items as [| it rest IH]; intros acc H; simpl in *.
  - rewrite app_nil_r. reflexivity.
  - destruct it as [e | c |]; try (apply IH; exact H).
    simpl in H. simpl. destruct (isDefault e); simpl in *.
    + assert (Hnone : filter (@isDefault _) (def_elems rest) = [])
        by (destruct (filter (@isDefault _) (def_elems rest)); [reflexivity | simpl in H; lia]).
      rewrite (default_first_no_default rest e (e :: acc) Hnone), Hnone. reflexivity.
    + rewrite (IH _ H), <- app_assoc. reflexivity.
Qed.

Lemma filter_split_permutation {A : Type} (f : A -> bool) (l : list A) :
  Permutation (filter f l ++ filter (fun x => negb (f x)) l) l.
Proof.
  induction l as [| x l IH]; simpl; [constructor |].
  destruct (f x); simpl.
  - constructor. exact IH.
  - apply Permutation_sym, Permutation_cons_app, Permutation_sym. exact IH.
Qed.

Lemma processing_order_head (items : list (DefItem SubPartDef))
    (d : GpPartDefElem SubPartDef) :
  (List.length (filter (@isDefault _) (def_elems items)) <= 1)%nat ->
  In d (def_elems items) -> isDefault d = true ->
  hd_error (processing_order items) = Some d.
Proof.
  intros H Hin Hd. unfold processing_order.
  assert (Hf : In d (filter (@isDefault _) (def_elems items)))
    by (apply filter_In; split; assumption).
  destruct (filter (@isDefault _) (def_elems items)) as [| d0 [| d1 ds]]; simpl in *.
  - contradiction.
  - destruct Hf as [-> | []]. reflexivity.
  - lia.
Qed.

(** X7: with at most one DEFAULT element the pass succeeds, and what it
    returns holds every partition element of the command exactly once: the
    DEFAULT element, if any, at the head, the others behind it in the order
    of the command. *)
Theorem default_first_rearranges (items : list (DefItem SubPartDef)) :
  (List.length (filter (@isDefault _) (def_elems items)) <= 1)%nat ->
  exists elems,
    default_first items None [] = Ok elems /\
    Permutation elems (def_elems items) /\
    filter (fun e => negb (isDefault e)) elems
    = filter (fun e => negb (isDefault e)) (def_elems items) /\
    (forall d, In d (def_elems items) -> isDefault d = true -> hd_error elems = Some d).
Proof.
  intros H. exists (processing_order items).
  split; [| split; [| split]].
  - rewrite (default_first_at_most_one items [] H). reflexivity.
  - apply filter_split_permutation.
  - unfold processing_order. rewrite filter_app, !filter_twice.
    rewrite (filter_none (fun x => isDefault x && negb (isDefault x)))
      by (intros x _; destruct (isDefault x); reflexivity).
    apply filter_ext. intros x. destruct (isDefault x); reflexivity.
  - intros d Hin Hd. apply processing_order_head; assumption.
Qed.

(** X8: a command with two DEFAULT elements is rejected with "multiple
    default partitions are not allowed" once the parent's options and the
    column encodings are accepted, for any key, before any partition is
    generated. *)
Theorem generatePartitions_two_defaults (fuel : nat) (parentname : string)
    (key : PartitionKeyData) (nancestors : nat)
    (gpPartSpec : GpPartitionDefinition SubPartDef)
    (subPartSpec : option (PartitionSpec SubPartDef)) (parentoptions : list DefElem)
    (parentaccessmethod : option string) (parentattenc : list (DefItem SubPartDef))
    (tn : option string) (opts : list DefElem)
    (penc : list ColumnReferenceStorageDirective) :
  extract_tablename_from_options parentoptions = Ok (tn, opts) ->
  merge_partition_encoding (storage_directives (partDefElems gpPartSpec))
                           (storage_directives parentattenc) = Ok penc ->
  (2 <= List.length (filter (@isDefault _) (def_elems (partDefElems gpPartSpec))))%nat ->
  generatePartitions cat istemplate fuel parentname key nancestors gpPartSpec subPartSpec
                     parentoptions parentaccessmethod parentattenc
  = Err MultipleDefaultPartitions.
Proof.
  intros Hopts Hmerge Htwo.
  unfold generatePartitions, generated_stmts.
  rewrite Hopts. cbn [bind]. rewrite Hmerge. cbn [bind].
  rewrite (default_first_two_defaults _ [] Htwo). reflexivity.
Qed.

(** ** generateListPartition *)

Lemma collect_listdatums_singletons (partValues : list (list RawExpr)) :
  forall acc : list (Node Datum),
    Forall (fun t => List.length t = 1%nat) partValues ->
    collect_listdatums partValues acc
    = Ok (acc ++ map (@T_RawExpr Datum) (List.concat partValues)).
Proof.
  induction partValues as [| t rest IH]; intros acc H; simpl.
  - rewrite app_nil_r. reflexivity.
  - inversion H as [| ? ? Ht Hrest]; subst.
    destruct t as [| v [| w t']]; try discriminate.
    rewrite (IH _ Hrest), <- app_assoc. reflexivity.
Qed.

Lemma collect_listdatums_arity (partValues : list (list RawExpr)) :
  forall acc : list (Node Datum),
    Exists (fun t => List.length t <> 1%nat) partValues ->
    collect_listdatums partValues acc = Err InvalidBoundaryArity.
Proof.
  induction partValues as [| t rest IH]; intros acc H; simpl.
  - inversion H.
  - destruct t as [| v [| w t']]; try reflexivity.
    inversion H as [? ? Ht | ? ? Hrest]; subst; [simpl in Ht; congruence |].
    apply IH. exact Hrest.
Qed.

(** X9: a LIST element one of whose VALUES tuples does not have exactly one
    value is rejected with "VALUES specification with more than one column
    not allowed"; the bound is never handed to the catalog and no name is
    chosen. *)
Theorem generateListPartition_arity (parentname : string)
    (elem : GpPartDefElem SubPartDef) (subPart : option (PartitionSpec SubPartDef))
    (pc : partname_comp) (gpvaluesspec : GpPartitionListSpec) :
  boundSpec elem = Some (T_GpPartitionListSpec gpvaluesspec) ->
  Exists (fun t => List.length t <> 1%nat) (partValues gpvaluesspec) ->
  generateListPartition cat parentname elem subPart pc = Err InvalidBoundaryArity.
Proof.
  intros Hb Hex. unfold generateListPartition. rewrite Hb.
  rewrite (collect_listdatums_arity _ [] Hex). reflexivity.
Qed.

(** X10: a LIST element all of whose VALUES tuples have one value hands the
    catalog one bound holding these values in the order of the clause, and,
    when the catalog accepts it, yields exactly one statement, which carries
    the bound that the catalog returned. *)
Theorem generateListPartition_single (parentname : string)
    (elem : GpPartDefElem SubPartDef) (subPart : option (PartitionSpec SubPartDef))
    (pc : partname_comp) (gpvaluesspec : GpPartitionListSpec)
    (boundspec : PartitionBoundSpec Datum) :
  boundSpec elem = Some (T_GpPartitionListSpec gpvaluesspec) ->
  Forall (fun t => List.length t = 1%nat) (partValues gpvaluesspec) ->
  transformPartitionBound cat
    {| bound_strategy := Some PARTITION_STRATEGY_LIST; is_default := false;
       listdatums := map (@T_RawExpr Datum) (List.concat (partValues gpvaluesspec));
       lowerdatums := []; upperdatums := [] |} = Ok boundspec ->
  exists stmt pc',
    generateListPartition cat parentname elem subPart pc = Ok ([stmt], pc') /\
    partbound stmt = boundspec /\
    stmt_options stmt = options elem /\
    attr_encodings stmt = colencs elem.
Proof.
  intros Hb Hall Htr. unfold generateListPartition. rewrite Hb.
  rewrite (collect_listdatums_singletons _ [] Hall). cbn [bind app].
  rewrite Htr. cbn [bind].
  unfold makePartitionCreateStmt. destruct (tablename pc);
    eexists; eexists; (split; [reflexivity |]); repeat split.
Qed.

Lemma expand_elem_one_statement (fuel : nat) (parentname : string)
    (key : PartitionKeyData) (subPartSpec : option (PartitionSpec SubPartDef))
    (isSubTemplate : bool) (parentoptions : list DefElem)
    (parentaccessmethod : option string)
    (penc_cls : list ColumnReferenceStorageDirective)
    (elem : GpPartDefElem SubPartDef) (pc : partname_comp)
    (parts : list (CreateStmt Datum SubPartDef)) (pc' : partname_comp) :
  isDefault elem = true \/ strategy key = PARTITION_STRATEGY_LIST ->
  expand_elem cat fuel parentname key subPartSpec isSubTemplate parentoptions
              parentaccessmethod penc_cls elem pc = Ok (parts, pc') ->
  List.length parts = 1%nat.
Proof.
  intros Hkind H. unfold expand_elem in H.
  destruct (match subPartSpec with
            | Some sp =>
                match (if isSubTemplate then gpPartDef sp else subSpec elem) with
                | Some _ =>
                    Ok (Some {| gpPartDef := if isSubTemplate then gpPartDef sp
                                             else subSpec elem |})
                | None => Err NoPartitionsAtDepth
                end
            | None => Ok None
            end) as [tmp | err]; simpl in H; [| discriminate].
  destruct (prepare_elem parentoptions parentaccessmethod penc_cls elem)
    as [[tn elem'] | err] eqn:Hprep; simpl in H; [| discriminate].
  assert (Hd : isDefault elem' = isDefault elem).
  { unfold prepare_elem in Hprep.
    destruct (extract_tablename_from_options (options elem)) as [[t o] | err];
      simpl in Hprep; [| discriminate].
    destruct (if is_aoco (resolved_accessMethod elem parentaccessmethod)
              then merge_partition_encoding (colencs elem) penc_cls
              else Ok (colencs elem)) as [encs | err];
      simpl in Hprep; [| discriminate].
    inversion Hprep; subst elem'. reflexivity. }
  rewrite Hd in H. destruct (isDefault elem).
  - unfold generateDefaultPartition, makePartitionCreateStmt in H. simpl in H.
    destruct tn; inversion H; reflexivity.
  - destruct Hkind as [Hk | Hk]; [discriminate |]. rewrite Hk in H.
    unfold generateListPartition in H.
    destruct (boundSpec elem') as [[spec | l |] |]; try discriminate.
    destruct (collect_listdatums (partValues l) []) as [ld | err]; simpl in H;
      try discriminate.
    destruct (transformPartitionBound cat _) as [b | err]; simpl in H;
      try discriminate.
    unfold makePartitionCreateStmt in H. simpl in H.
    destruct tn; inversion H; reflexivity.
Qed.

Lemma expand_elems_list_length (fuel : nat) (parentname : string) (key : PartitionKeyData)
    (subPartSpec : option (PartitionSpec SubPartDef)) (isSubTemplate : bool)
    (parentoptions : list DefElem) (parentaccessmethod : option string)
    (penc_cls : list ColumnReferenceStorageDirective) :
  strategy key = PARTITION_STRATEGY_LIST ->
  forall elems pc result out,
    expand_elems cat fuel parentname key subPartSpec isSubTemplate parentoptions
                 parentaccessmethod penc_cls elems pc result = Ok out ->
    List.length out = (List.length result + List.length elems)%nat.
Proof.
  intros Hk. induction elems as [| elem rest IH]; intros pc result out H; simpl in H.
  - inversion H. simpl. lia.
  - destruct (expand_elem cat fuel parentname key subPartSpec isSubTemplate parentoptions
                parentaccessmethod penc_cls elem pc) as [[new_parts pc1] | err] eqn:E;
      simpl in H; [| discriminate].
    rewrite (IH _ _ _ H), length_app.
    rewrite (expand_elem_one_statement _ _ _ _ _ _ _ _ _ _ _ _ (or_intror Hk) E).
    simpl. lia.
Qed.

(** X11: for a LIST key a successful expansion returns exactly one statement
    per partition element of the command, the DEFAULT element included,
    whatever the fuel. *)
Theorem generatePartitions_list_count (fuel : nat) (parentname : string)
    (key : PartitionKeyData) (nancestors : nat)
    (gpPartSpec : GpPartitionDefinition SubPartDef)
    (subPartSpec : option (PartitionSpec SubPartDef)) (parentoptions : list DefElem)
    (parentaccessmethod : option string) (parentattenc : list (DefItem SubPartDef))
    (returned : list (CreateStmt Datum SubPartDef)) :
  strategy key = PARTITION_STRATEGY_LIST ->
  generatePartitions cat istemplate fuel parentname key nancestors gpPartSpec subPartSpec
                     parentoptions parentaccessmethod parentattenc = Ok returned ->
  List.length returned = List.length (def_elems (partDefElems gpPartSpec)).
Proof.
  intros Hk H. unfold generatePartitions in H. rewrite Hk in H.
  destruct (generated_stmts cat istemplate fuel parentname key nancestors gpPartSpec
              subPartSpec parentoptions parentaccessmethod parentattenc)
    as [generated | err] eqn:Hgen; simpl in H; [| discriminate].
  inversion H; subst returned. clear H.
  unfold generated_stmts in Hgen.
  destruct (extract_tablename_from_options parentoptions) as [[tn opts] | err];
    simpl in Hgen; [| discriminate].
  destruct (merge_partition_encoding (storage_directives (partDefElems gpPartSpec))
              (storage_directives parentattenc)) as [penc | err];
    simpl in Hgen; [| discriminate].
  destruct (default_first (partDefElems gpPartSpec) None []) as [elems | err] eqn:Ed;
    simpl in Hgen; [| discriminate].
  rewrite (expand_elems_list_length _ _ _ _ _ _ _ _ Hk _ _ _ _ Hgen). simpl.
  apply default_first_order in Ed. simpl in Ed. subst elems.
  apply Permutation_length.
  apply (filter_split_permutation (@isDefault SubPartDef)).
Qed.

(** ** The iterator *)

Lemma nextPartBound_every_cases (iter : PartEveryIterator Datum)
    (plusexpr : Datum -> Res (option Datum)) (more : bool)
    (iter' : PartEveryIterator Datum) :
  plusexprstate iter = Some plusexpr ->
  endReached iter = false ->
  nextPartBound cat iter = Ok (more, iter') ->
  more = true /\
  currStart iter' = currEnd iter /\
  endVal iter' = endVal iter /\
  plusexprstate iter' = Some plusexpr /\
  called iter' = true /\
  ((endReached iter' = true /\ currEnd iter' = endVal iter) \/
   (endReached iter' = false /\
    plusexpr (currEnd iter) = Ok (Some (currEnd iter')) /\
    partsupfunc cat 0 (currEnd iter) (currEnd iter') < 0 /\
    partsupfunc cat 0 (currEnd iter') (endVal iter) < 0)).
Proof.
  intros Hp He H. unfold nextPartBound in H. rewrite Hp, He in H.
  destruct (plusexpr (currEnd iter)) as [[next |] | err] eqn:Hnext; try discriminate.
  destruct (Z.geb_spec (partsupfunc cat 0 next (endVal iter)) 0) as [Hge | Hlt].
  - inversion H; subst; simpl. repeat split; try assumption. left. split; reflexivity.
  - destruct (Z.geb_spec (partsupfunc cat 0 (currEnd iter) next) 0) as [Hge' | Hlt'].
    + destruct (negb (called iter)); discriminate.
    + inversion H; subst; simpl. repeat split; try assumption.
      right. repeat split; try assumption; lia.
Qed.

(** X12: what a successful call under EVERY guarantees.  The call yields a
    pair (never "no more" before END is reached); the pair starts where the
    previous one ended; and either it ends at END, which closes the
    iteration, or it ends at the value of the plus expression, which is
    strictly above the start and strictly below END. *)
Theorem nextPartBound_progress (iter : PartEveryIterator Datum)
    (plusexpr : Datum -> Res (option Datum)) (more : bool)
    (iter' : PartEveryIterator Datum) :
  plusexprstate iter = Some plusexpr ->
  endReached iter = false ->
  nextPartBound cat iter = Ok (more, iter') ->
  more = true /\
  currStart iter' = currEnd iter /\
  endVal iter' = endVal iter /\
  ((endReached iter' = true /\ currEnd iter' = endVal iter) \/
   (endReached iter' = false /\
    plusexpr (currEnd iter) = Ok (Some (currEnd iter')) /\
    partsupfunc cat 0 (currStart iter') (currEnd iter') < 0 /\
    partsupfunc cat 0 (currEnd iter') (endVal iter) < 0)).
Proof.
  intros Hp He H.
  destruct (nextPartBound_every_cases iter plusexpr more iter' Hp He H)
    as [Hm [Hs [Hv [_ [_ Hcases]]]]].
  split; [exact Hm |]. split; [exact Hs |]. split; [exact Hv |].
  rewrite Hs. exact Hcases.
Qed.

Lemma tiles_nonempty (lo hi : Datum) (bs : list (list (Node Datum) * list (Node Datum))) :
  tiles cat lo bs hi -> bs <> [].
Proof. destruct bs; [intros [] | discriminate]. Qed.

Lemma range_loop_tiles (plusexpr : Datum -> Res (option Datum)) (parentname : string)
    (elem : GpPartDefElem SubPartDef) (subPart : option (PartitionSpec SubPartDef))
    (has_every : bool) :
  forall fuel iter i pc result out pc',
    plusexprstate iter = Some plusexpr ->
    endReached iter = false ->
    range_loop cat fuel parentname elem subPart true true has_every iter i pc result
    = Ok (out, pc') ->
    exists stmts,
      out = result ++ stmts /\
      tiles cat (currEnd iter) (map (@stmt_bounds _ _) stmts) (endVal iter).
Proof.
  induction fuel as [| fuel IH]; intros iter i pc result out pc' Hp He H;
    [discriminate |].
  destruct (nextPartBound cat iter) as [[more iter1] | err] eqn:Hnext;
    [| simpl in H; rewrite Hnext in H; discriminate].
  destruct (nextPartBound_every_cases iter plusexpr more iter1 Hp He Hnext)
    as [-> [Hs [Hv [Hp1 [Hcalled Hcases]]]]].
  destruct (range_loop_more Datum SubPartDef cat fuel parentname elem subPart true true has_every
              iter iter1 i pc result Hnext) as [c [i1 [pc1 [E [Hb _]]]]].
  rewrite E in H.
  assert (Hbounds : stmt_bounds c = const_bounds (currEnd iter, currEnd iter1)).
  { rewrite (stmt_bounds_range Datum SubPartDef c iter1 Hb), Hs. reflexivity. }
  destruct Hcases as [[He1 Hc1] | [He1 [_ [Hlt1 Hlt2]]]].
  - destruct fuel as [| fuel]; [discriminate |].
    assert (Hdone : nextPartBound cat iter1
                    = Ok (false, {| endVal := endVal iter1;
                                    plusexprstate := plusexprstate iter1;
                                    currStart := currStart iter1;
                                    currEnd := currEnd iter1;
                                    called := true; endReached := endReached iter1 |})).
    { unfold nextPartBound. rewrite Hp1, He1. reflexivity. }
    rewrite (range_loop_done Datum SubPartDef cat fuel parentname elem subPart true true has_every
               iter1 _ i1 pc1 (result ++ [c]) Hdone) in H.
    inversion H; subst. exists [c]. split; [reflexivity |].
    simpl. rewrite Hbounds, Hc1. reflexivity.
  - destruct (IH iter1 i1 pc1 (result ++ [c]) out pc' Hp1 He1 H) as [stmts [Hout Ht]].
    exists (c :: stmts). split; [rewrite Hout, <- app_assoc; reflexivity |].
    rewrite Hv in Ht. pose proof (tiles_nonempty _ _ _ Ht) as Hne.
    simpl. destruct (map (@stmt_bounds _ _) stmts) as [| b bs] eqn:Em; [congruence |].
    exists (currEnd iter1). repeat split; assumption.
Qed.

(** X13: whenever the expansion of a RANGE element with START [a], END [b]
    and EVERY succeeds, whatever the plus expression does, the statements
    tile the declared range: there is at least one, the first starts at
    [a], each ends where the next starts, strictly above its own start and
    strictly below [b], and the last ends at [b]. *)
Theorem every_partitions_tile_range (fuel : nat) (parentname : string)
    (partkey : PartitionKeyData) (elem : GpPartDefElem SubPartDef)
    (subPart : option (PartitionSpec SubPartDef)) (pc : partname_comp)
    (spec : GpPartitionRangeSpec) (sitem eitem : GpPartitionRangeItem)
    (s e ev : RawExpr) (a bv b : Datum) (plusexpr : Datum -> Res (option Datum))
    (stmts : list (CreateStmt Datum SubPartDef)) (pc' : partname_comp) :
  boundSpec elem = Some (T_GpPartitionRangeSpec spec) ->
  partnatts partkey = 1%nat ->
  tablename pc = None ->
  partStart spec = Some sitem -> val sitem = [s] ->
  partEnd spec = Some eitem -> val eitem = [e] ->
  partEvery spec = [ev] ->
  transformPartitionBoundValue cat s = Ok (a, false) ->
  transformPartitionBoundValue cat e = Ok (bv, false) ->
  canonicalizeRangeEnd cat bv (end_inclusive spec) = Ok b ->
  initPlusExprState cat ev = Ok plusexpr ->
  generateRangePartitions cat fuel parentname partkey elem subPart pc = Ok (stmts, pc') ->
  tiles cat a (map (@stmt_bounds _ _) stmts) b.
Proof.
  intros Hb Hn Ht Hs Hsv He Hev Hevery Hta Htb Hcanon Hplus H.
  rewrite (generateRangePartitions_every Datum SubPartDef cat fuel parentname partkey elem
             subPart pc spec sitem eitem s e ev a bv b plusexpr) in H by assumption.
  apply (range_loop_tiles plusexpr parentname elem subPart true) in H;
    [| reflexivity | reflexivity].
  destruct H as [stmts' [Hout Htiles]].
  simpl in Hout. subst stmts'. exact Htiles.
Qed.

(** ** generateRangePartitions: EVERY without START or END, and no EVERY *)

Lemma range_clauses_read (partkey : PartitionKeyData) (spec : GpPartitionRangeSpec) :
  partnatts partkey = 1%nat ->
  (forall item, partStart spec = Some item -> List.length (val item) = 1%nat) ->
  (forall item, partEnd spec = Some item -> List.length (val item) = 1%nat) ->
  range_start partkey spec = Ok (start_expr spec) /\
  range_end partkey spec = Ok (end_expr spec, end_inclusive spec).
Proof.
  intros Hn Hs He. split.
  - unfold range_start, start_expr, checked_linitial.
    destruct (partStart spec) as [item |] eqn:E; [| reflexivity].
    rewrite (Hs item eq_refl), Hn. reflexivity.
  - unfold range_end, end_expr, end_inclusive, checked_linitial.
    destruct (partEnd spec) as [item |] eqn:E; [| reflexivity].
    rewrite (He item eq_refl), Hn. reflexivity.
Qed.



(** X15: a well-formed RANGE element without EVERY and without tablename
    override yields, for any fuel of two or more, exactly one statement.  It
    spans the declared range (a bound is present exactly when it was
    declared), its name is chosen from the next partition number, and the
    counter moves on by one. *)
Theorem no_every_single_partition (fuel : nat) (parentname : string)
    (partkey : PartitionKeyData) (elem : GpPartDefElem SubPartDef)
    (subPart : option (PartitionSpec SubPartDef)) (pc : partname_comp)
    (spec : GpPartitionRangeSpec) (iter : PartEveryIterator Datum) :
  boundSpec elem = Some (T_GpPartitionRangeSpec spec) ->
  partnatts partkey = 1%nat ->
  tablename pc = None ->
  partEvery spec = [] ->
  (forall item, partStart spec = Some item -> List.length (val item) = 1%nat) ->
  (forall item, partEnd spec = Some item -> List.length (val item) = 1%nat) ->
  initPartEveryIterator cat (start_expr spec) (end_expr spec) (end_inclusive spec) None
  = Ok iter ->
  generateRangePartitions cat (S (S fuel)) parentname partkey elem subPart pc
  = Ok ([ {| relation :=
               ChoosePartitionName cat parentname (snprintf_name (format_int (level pc)))
                                   (partName elem) (partnum pc + 1);
             inhRelations := [parentname];
             partbound :=
               {| bound_strategy := Some PARTITION_STRATEGY_RANGE;
                  is_default := false;
                  listdatums := [];
                  lowerdatums := if is_some (start_expr spec)
                                 then [T_Const (currEnd iter) false] else [];
                  upperdatums := if is_some (end_expr spec)
                                 then [T_Const (endVal iter) false] else [] |};
             partspec := subPart;
             stmt_options := options elem;
             stmt_tablespacename := tablespacename elem;
             stmt_accessMethod := accessMethod elem;
             attr_encodings := colencs elem |} ],
        {| tablename := None; level := level pc; partnum := partnum pc + 1 |}).
Proof.
  intros Hb Hn Ht Hev Hs He Hinit.
  destruct (initPartEveryIterator_no_every Datum SubPartDef cat _ _ _ _ Hinit)
    as [Hplus [Hcalled _]].
  destruct (range_clauses_read partkey spec Hn Hs He) as [Estart Eend].
  unfold generateRangePartitions. rewrite Hb, Hn, Estart, Eend.
  unfold range_every. rewrite Ht, Hev.
  cbn [Nat.eqb negb bind fst snd is_some]. rewrite Hinit. cbn [bind].
  cbn [range_loop]. unfold nextPartBound at 1. rewrite Hplus, Hcalled.
  cbn [negb bind]. unfold nextPartBound at 1. cbn [plusexprstate called negb bind].
  unfold makePartitionCreateStmt, range_boundspec, range_partname. rewrite Ht.
  cbn [fst snd currStart currEnd app]. reflexivity.
Qed.

(** ** The comparator on several columns *)

Lemma compare_columns_prefix (b1datums b2datums : list (Node Datum)) :
  forall k i todo,
    (forall j, (j < k)%nat ->
       exists x y, nth_constvalue b1datums (i + j) = Ok x /\
                   nth_constvalue b2datums (i + j) = Ok y /\
                   partsupfunc cat (i + j) x y = 0) ->
    (k <= todo)%nat ->
    compare_columns cat b1datums b2datums i todo
    = compare_columns cat b1datums b2datums (i + k) (todo - k).
Proof.
  induction k as [| k IH]; intros i todo Heq Hk.
  - rewrite Nat.add_0_r, Nat.sub_0_r. reflexivity.
  - destruct todo as [| todo]; [lia |].
    destruct (Heq 0%nat) as [x [y [Hx [Hy Hxy]]]]; [lia |].
    rewrite Nat.add_0_r in Hx, Hy, Hxy.
    simpl. rewrite Hx, Hy. cbn [bind]. rewrite Hxy. cbn [Z.eqb].
    rewrite (IH (S i) todo).
    + replace (S i + k)%nat with (i + S k)%nat by lia. reflexivity.
    + intros j Hj. destruct (Heq (S j)) as [x' [y' H']]; [lia |].
      replace (S i + j)%nat with (i + S j)%nat by lia. exists x', y'. exact H'.
    + lia.
Qed.

(** X16: the column loop is lexicographic.  When the first [k] columns
    compare equal, the result is 0 if there are no more columns, and
    otherwise the result of column [k] if that is not 0; the columns after
    the deciding one are not read. *)
Theorem compare_columns_lexicographic (b1datums b2datums : list (Node Datum))
    (k n : nat) :
  (forall j, (j < k)%nat ->
     exists x y, nth_constvalue b1datums j = Ok x /\
                 nth_constvalue b2datums j = Ok y /\
                 partsupfunc cat j x y = 0) ->
  (k <= n)%nat ->
  (k = n -> compare_columns cat b1datums b2datums 0 n = Ok 0) /\
  (forall x y,
      (k < n)%nat ->
      nth_constvalue b1datums k = Ok x ->
      nth_constvalue b2datums k = Ok y ->
      partsupfunc cat k x y <> 0 ->
      compare_columns cat b1datums b2datums 0 n = Ok (partsupfunc cat k x y)).
Proof.
  intros Heq Hk.
  rewrite (compare_columns_prefix b1datums b2datums k 0 n Heq Hk). simpl.
  split.
  - intros ->. rewrite Nat.sub_diag. reflexivity.
  - intros x y Hlt Hx Hy Hne.
    destruct (n - k)%nat as [| todo] eqn:E; [lia |].
    simpl. rewrite Hx, Hy. cbn [bind].
    destruct (Z.eqb_spec (partsupfunc cat k x y) 0); [contradiction | reflexivity].
Qed.

Lemma compare_columns_flip (b1datums b2datums : list (Node Datum)) :
  (forall j x y, partsupfunc cat j x y < 0 <-> partsupfunc cat j y x > 0) ->
  forall todo i c,
    compare_columns cat b1datums b2datums i todo = Ok c ->
    exists c',
      compare_columns cat b2datums b1datums i todo = Ok c' /\
      (c < 0 <-> c' > 0) /\ (c > 0 <-> c' < 0).
Proof.
  intros Hflip. induction todo as [| todo IH]; intros i c H; simpl in *.
  - inversion H. exists 0. split; [reflexivity | lia].
  - destruct (nth_constvalue b1datums i) as [x | err]; simpl in *; [| discriminate].
    destruct (nth_constvalue b2datums i) as [y | err]; simpl in *; [| discriminate].
    pose proof (Hflip i x y) as F1. pose proof (Hflip i y x) as F2.
    destruct (Z.eqb_spec (partsupfunc cat i x y) 0) as [E | E].
    + destruct (Z.eqb_spec (partsupfunc cat i y x) 0) as [E' | E']; [| lia].
      apply IH. exact H.
    + inversion H; subst c.
      destruct (Z.eqb_spec (partsupfunc cat i y x) 0) as [E' | E']; [lia |].
      eexists. split; [reflexivity | lia].
Qed.

(** X17: apart from the tie between a lower-only and an upper-only
    descriptor, the comparator is antisymmetric.  When the column support
    functions are, and the two descriptors differ in being DEFAULT, or both
    have a lower bound, or both have an upper bound, swapping the arguments
    swaps the sign of the result. *)
Theorem qsort_stmt_cmp_antisymmetric (key : PartitionKeyData)
    (b1 b2 : CreateStmt Datum SubPartDef) (c : Z) :
  (forall j x y, partsupfunc cat j x y < 0 <-> partsupfunc cat j y x > 0) ->
  is_default (partbound b1) <> is_default (partbound b2) \/
  (lowerdatums (partbound b1) <> [] /\ lowerdatums (partbound b2) <> []) \/
  (upperdatums (partbound b1) <> [] /\ upperdatums (partbound b2) <> []) ->
  qsort_stmt_cmp cat key b1 b2 = Ok c ->
  exists c',
    qsort_stmt_cmp cat key b2 b1 = Ok c' /\
    (c < 0 <-> c' > 0) /\ (c > 0 <-> c' < 0).
Proof.
  intros Hflip Hshape H. unfold qsort_stmt_cmp in *.
  destruct (is_default (partbound b1)) eqn:D1; destruct (is_default (partbound b2)) eqn:D2;
    simpl in *;
    try (inversion H; subst c; eexists; split; [reflexivity | lia]).
  - destruct Hshape as [Hd | [[Hl1 Hl2] | [Hu1 Hu2]]]; [congruence | |].
    + rewrite (not_null_true _ Hl1), (not_null_true _ Hl2) in *. simpl in *.
      apply (compare_columns_flip _ _ Hflip _ _ _ H).
    + rewrite (not_null_true _ Hu1), (not_null_true _ Hu2) in *.
      destruct (not_null (lowerdatums (partbound b1)));
        destruct (not_null (lowerdatums (partbound b2))); simpl in *;
        apply (compare_columns_flip _ _ Hflip _ _ _ H).
  - destruct Hshape as [Hd | [[Hl1 Hl2] | [Hu1 Hu2]]]; [congruence | |].
    + rewrite (not_null_true _ Hl1), (not_null_true _ Hl2) in *. simpl in *.
      apply (compare_columns_flip _ _ Hflip _ _ _ H).
    + rewrite (not_null_true _ Hu1), (not_null_true _ Hu2) in *.
      destruct (not_null (lowerdatums (partbound b1)));
        destruct (not_null (lowerdatums (partbound b2))); simpl in *;
        apply (compare_columns_flip _ _ Hflip _ _ _ H).
Qed.

(** ** The implicit-bound walk, again *)

Lemma deduce_step_again (prev : option (CreateStmt Datum SubPartDef))
    (s : CreateStmt Datum SubPartDef) (next next' : option (CreateStmt Datum SubPartDef)) :
  (upperdatums (partbound (deduce_step prev s next)) = [] ->
   exists n', next' = Some n' /\ lowerdatums (partbound n') = []) ->
  deduce_step prev (deduce_step prev s next) next' = deduce_step prev s next.
Proof.
  destruct s as [rel inh [bs isd ld lo up] ps so st sa ae].
  unfold deduce_step. simpl.
  destruct lo as [| l0 lo]; destruct up as [| u0 up]; simpl;
    try reflexivity.
  - destruct prev as [p |]; simpl.
    + destruct next as [n |]; simpl.
      * intros H.
        destruct (upperdatums (partbound p)) as [| pu pus] eqn:Ep;
          destruct (lowerdatums (partbound n)) as [| nl nls] eqn:En; simpl;
          try reflexivity;
          destruct (H eq_refl) as [n' [-> Hn']]; rewrite Hn'; reflexivity.
      * intros _. destruct (upperdatums (partbound p)); reflexivity.
    + destruct next as [n |]; simpl; [| reflexivity].
      intros H. destruct (lowerdatums (partbound n)) as [| nl nls] eqn:En; simpl;
        [| reflexivity].
      destruct (H eq_refl) as [n' [-> Hn']]. rewrite Hn'. reflexivity.
  - intros _. destruct prev as [p |]; simpl; [| reflexivity].
    destruct (upperdatums (partbound p)); reflexivity.
  - destruct next as [n |]; simpl; [| reflexivity].
    intros H. destruct (lowerdatums (partbound n)) as [| nl nls] eqn:En; simpl;
      [| reflexivity].
    destruct (H eq_refl) as [n' [-> Hn']]. rewrite Hn'. reflexivity.
Qed.

(** X18: the walk is idempotent: walking an already walked list, from the
    same predecessor, changes no statement. *)
Theorem deduce_walk_idempotent (stmts : list (CreateStmt Datum SubPartDef)) :
  forall prev, deduce_walk prev (deduce_walk prev stmts) = deduce_walk prev stmts.
Proof.
  induction stmts as [| s rest IH]; intros prev; [reflexivity |].
  cbn [deduce_walk].
  set (s' := deduce_step prev s (hd_error rest)).
  assert (E : deduce_step prev s' (hd_error (deduce_walk (Some s') rest)) = s').
  { apply deduce_step_again. intros Hup. unfold s' in Hup.
    rewrite deduce_step_upper in Hup.
    destruct (not_null (upperdatums (partbound s))) eqn:Eu.
    - destruct (upperdatums (partbound s)); discriminate.
    - destruct rest as [| n rest']; [discriminate |]. simpl in Hup.
      simpl. eexists. split; [reflexivity |].
      rewrite deduce_step_lower.
      apply not_null_nil in Hup. rewrite Hup.
      fold s'. unfold s'. rewrite deduce_step_upper, Eu. simpl.
      apply not_null_nil. exact Hup. }
  rewrite E, IH. reflexivity.
Qed.

(** X19: one pass resolves every bound provided no statement without an
    upper bound is immediately followed by a statement without a lower
    bound: then every statement of the walked list has both bounds. *)
Theorem deduce_walk_resolves_all (stmts : list (CreateStmt Datum SubPartDef)) :
  (forall i s t,
      nth_error stmts i = Some s -> nth_error stmts (S i) = Some t ->
      upperdatums (partbound s) <> [] \/ lowerdatums (partbound t) <> []) ->
  forall s', In s' (deduce_walk None stmts) ->
    lowerdatums (partbound s') <> [] /\ upperdatums (partbound s') <> [].
Proof.
  intros Hjunction s' Hin.
  destruct (In_nth_error _ _ Hin) as [i Hs'].
  assert (Hlen : (i < List.length stmts)%nat).
  { rewrite <- (deduce_walk_length Datum SubPartDef stmts None).
    apply nth_error_Some. congruence. }
  destruct (nth_error stmts i) as [s |] eqn:Hs;
    [| apply nth_error_None in Hs; lia].
  assert (Hupper : forall j a a',
             nth_error stmts j = Some a ->
             nth_error (deduce_walk None stmts) j = Some a' ->
             (forall t, nth_error stmts (S j) = Some t ->
                        upperdatums (partbound a) = [] ->
                        lowerdatums (partbound t) <> []) ->
             upperdatums (partbound a') <> []).
  { intros j a a' Ha Ha' Hnext.
    destruct (deduce_walk_nth Datum SubPartDef stmts None _ _ _ Ha Ha') as [p [E _]].
    rewrite E, deduce_step_upper.
    destruct (upperdatums (partbound a)) as [| u us] eqn:Eu; cbn [not_null];
      [| discriminate].
    destruct (nth_error stmts (S j)) as [t |]; [| discriminate].
    apply (Hnext t eq_refl eq_refl). }
  split.
  - destruct (deduce_walk_nth Datum SubPartDef stmts None _ _ _ Hs Hs') as [p [E [H0 HS]]].
    rewrite E, deduce_step_lower.
    destruct (lowerdatums (partbound s)) as [| l ls] eqn:El; cbn [not_null];
      [| discriminate].
    destruct i as [| j].
    + rewrite (H0 eq_refl). discriminate.
    + rewrite (HS j eq_refl).
      destruct (nth_error (deduce_walk None stmts) j) as [q |] eqn:Hq; [| discriminate].
      destruct (nth_error stmts j) as [a |] eqn:Ha.
      * apply (Hupper j a q Ha Hq). intros t Ht Hu.
        rewrite Hs in Ht. inversion Ht; subst t.
        destruct (Hjunction j a s Ha Hs) as [? | ?]; congruence.
      * apply nth_error_None in Ha. lia.
  - apply (Hupper i s s' Hs Hs'). intros t Ht Hu.
    destruct (Hjunction i s t Hs Ht) as [? | ?]; [congruence | assumption].
Qed.

(** X20: where a statement without an upper bound is immediately followed by
    a statement without a lower bound, the pass resolves neither: both
    bounds are still missing afterwards. *)
Theorem deduce_walk_unresolved_junction (stmts : list (CreateStmt Datum SubPartDef))
    (prev : option (CreateStmt Datum SubPartDef)) (i : nat)
    (s t s' t' : CreateStmt Datum SubPartDef) :
  nth_error stmts i = Some s -> nth_error stmts (S i) = Some t ->
  nth_error (deduce_walk prev stmts) i = Some s' ->
  nth_error (deduce_walk prev stmts) (S i) = Some t' ->
  upperdatums (partbound s) = [] -> lowerdatums (partbound t) = [] ->
  upperdatums (partbound s') = [] /\ lowerdatums (partbound t') = [].
Proof.
  intros Hs Ht Hs' Ht' Hu Hl.
  destruct (deduce_walk_nth Datum SubPartDef stmts prev _ _ _ Hs Hs') as [p [Es _]].
  destruct (deduce_walk_nth Datum SubPartDef stmts prev _ _ _ Ht Ht') as [q [Et [_ Hq]]].
  specialize (Hq i eq_refl). rewrite Hs' in Hq. subst q.
  assert (Hup : upperdatums (partbound s') = []).
  { rewrite Es, deduce_step_upper, Ht, Hu. cbn [not_null]. exact Hl. }
  split; [exact Hup |].
  rewrite Et, deduce_step_lower, Hl. cbn [not_null]. exact Hup.
Qed.

(** ** Partition numbers and names *)

Lemma range_partname_next (has_every : bool) (elem : GpPartDefElem SubPartDef) (i j : Z) :
  fst (range_partname has_every elem (snd (range_partname has_every elem i) + j))
  = fst (range_partname has_every elem (i + 1 + j)).
Proof.
  unfold range_partname. destruct has_every; [destruct (partName elem) |]; reflexivity.
Qed.

Lemma range_loop_numbering (parentname : string) (elem : GpPartDefElem SubPartDef)
    (subPart : option (PartitionSpec SubPartDef)) (has_start has_end has_every : bool) :
  forall fuel iter i pc result out pc',
    tablename pc = None ->
    range_loop cat fuel parentname elem subPart has_start has_end has_every iter i pc result
    = Ok (out, pc') ->
    exists stmts,
      out = result ++ stmts /\
      tablename pc' = None /\
      level pc' = level pc /\
      partnum pc' = partnum pc + Z.of_nat (List.length stmts) /\
      forall k stmt,
        nth_error stmts k = Some stmt ->
        relation stmt
        = ChoosePartitionName cat parentname (snprintf_name (format_int (level pc)))
            (fst (range_partname has_every elem (i + Z.of_nat k)))
            (partnum pc + 1 + Z.of_nat k).
Proof.
  induction fuel as [| fuel IH]; intros iter i pc result out pc' Ht H; [discriminate |].
  simpl in H.
  destruct (nextPartBound cat iter) as [[[|] iter1] | err]; simpl in H; try discriminate.
  - unfold makePartitionCreateStmt in H. rewrite Ht in H. cbn [fst snd] in H.
    apply IH in H; [| reflexivity].
    destruct H as [stmts [Hout [Ht' [Hl' [Hn' Hnames]]]]]. cbn [level partnum] in *.
    eexists (_ :: stmts). split; [rewrite Hout, <- app_assoc; reflexivity |].
    split; [exact Ht' |]. split; [exact Hl' |].
    split; [rewrite Hn'; cbn [List.length]; lia |].
    intros k stmt Hk. destruct k as [| k]; simpl in Hk.
    + inversion Hk; subst stmt. cbn [relation Z.of_nat].
      rewrite !Z.add_0_r. reflexivity.
    + rewrite (Hnames k stmt Hk), range_partname_next.
      replace (i + Z.of_nat (S k)) with (i + 1 + Z.of_nat k) by lia.
      replace (partnum pc + 1 + Z.of_nat (S k)) with (partnum pc + 1 + 1 + Z.of_nat k)
        by lia.
      reflexivity.
  - inversion H; subst. exists []. rewrite app_nil_r.
    repeat split; try assumption; try (simpl; lia).
    intros k stmt Hk. destruct k; discriminate.
Qed.

(** X21: without a tablename override, every statement that the expansion of
    a RANGE element returns takes exactly one partition number: the counter
    ends at its start value plus the number of statements, the [k]-th
    statement (from 0) is named from the number [partnum + 1 + k], and under
    EVERY a named element's statements carry the suffixes 1, 2, ... in that
    order. *)
Theorem generateRangePartitions_numbering (fuel : nat) (parentname : string)
    (partkey : PartitionKeyData) (elem : GpPartDefElem SubPartDef)
    (subPart : option (PartitionSpec SubPartDef)) (pc : partname_comp)
    (spec : GpPartitionRangeSpec)
    (stmts : list (CreateStmt Datum SubPartDef)) (pc' : partname_comp) :
  boundSpec elem = Some (T_GpPartitionRangeSpec spec) ->
  tablename pc = None ->
  generateRangePartitions cat fuel parentname partkey elem subPart pc = Ok (stmts, pc') ->
  tablename pc' = None /\
  level pc' = level pc /\
  partnum pc' = partnum pc + Z.of_nat (List.length stmts) /\
  exists every,
    range_every partkey pc spec = Ok every /\
    forall k stmt,
      nth_error stmts k = Some stmt ->
      relation stmt
      = ChoosePartitionName cat parentname (snprintf_name (format_int (level pc)))
          (fst (range_partname (is_some every) elem (Z.of_nat k)))
          (partnum pc + 1 + Z.of_nat k).
Proof.
  intros Hb Ht H. unfold generateRangePartitions in H. rewrite Hb in H.
  destruct (negb (Nat.eqb (partnatts partkey) 1)); try discriminate.
  destruct (range_start partkey spec) as [start | err]; simpl in H; try discriminate.
  destruct (range_end partkey spec) as [ei | err]; simpl in H; try discriminate.
  destruct (range_every partkey pc spec) as [every | err]; simpl in H; try discriminate.
  destruct (initPartEveryIterator cat start (fst ei) (snd ei) every)
    as [iter | err]; simpl in H; try discriminate.
  destruct (range_loop_numbering _ _ _ _ _ _ _ _ _ _ _ _ _ Ht H)
    as [stmts' [Hout [Ht' [Hl' [Hn' Hnames]]]]].
  simpl in Hout. subst stmts'.
  split; [exact Ht' |]. split; [exact Hl' |]. split; [exact Hn' |].
  exists every. split; [reflexivity |]. exact Hnames.
Qed.

(** ** Options of the generated statements *)

Lemma range_loop_options (parentname : string) (elem : GpPartDefElem SubPartDef)
    (subPart : option (PartitionSpec SubPartDef)) (has_start has_end has_every : bool) :
  forall fuel iter i pc result out pc',
    Forall (fun s => stmt_options s = options elem /\
                     stmt_tablespacename s = tablespacename elem) result ->
    range_loop cat fuel parentname elem subPart has_start has_end has_every iter i pc result
    = Ok (out, pc') ->
    Forall (fun s => stmt_options s = options elem /\
                     stmt_tablespacename s = tablespacename elem) out.
Proof.
  induction fuel as [| fuel IH]; intros iter i pc result out pc' Hres Hrun;
    [discriminate |].
  simpl in Hrun.
  destruct (nextPartBound cat iter) as [[[|] iter'] | err]; simpl in Hrun;
    try discriminate.
  - eapply IH; [| exact Hrun].
    apply Forall_app. split; [exact Hres |].
    apply Forall_cons; [| apply Forall_nil].
    unfold makePartitionCreateStmt. destruct (tablename pc); simpl; split; reflexivity.
  - inversion Hrun; subst. exact Hres.
Qed.

Lemma extract_tablename_leaves_none (opts : list DefElem) :
  forall tn rest,
    (List.length (filter is_tablename opts) <= 1)%nat ->
    extract_tablename_from_options opts = Ok (tn, rest) ->
    Forall (fun d => is_tablename d = false) rest.
Proof.
  induction opts as [| d opts IH]; intros tn rest Hone H; simpl in *.
  - inversion H. constructor.
  - unfold is_tablename in Hone at 1. fold (is_tablename d) in H.
    fold (is_tablename d) in Hone.
    destruct (is_tablename d) eqn:Ed.
    + destruct (arg d); [| discriminate]. inversion H; subst.
      simpl in Hone. apply Forall_forall. intros x Hx.
      destruct (is_tablename x) eqn:Ex; [| reflexivity].
      assert (In x (filter is_tablename rest)) by (apply filter_In; split; assumption).
      destruct (filter is_tablename rest); [contradiction | simpl in Hone; lia].
    + destruct (extract_tablename_from_options opts) as [[t r] | err] eqn:E;
        simpl in H; [| discriminate].
      inversion H; subst. constructor; [exact Ed |].
      eapply IH; [exact Hone | reflexivity].
Qed.

(** X22: how options reach the statements.  Every statement expanded from an
    element carries the element's options with the first "tablename" entry
    taken out, or, when nothing is left, the options handed down from the
    parent; its tablespace is the element's own, never the parent's.  So
    when the element has at most one "tablename" entry and the parent's
    options have none, no statement carries a "tablename" option. *)
Theorem expand_elem_options (fuel : nat) (parentname : string)
    (key : PartitionKeyData) (subPartSpec : option (PartitionSpec SubPartDef))
    (isSubTemplate : bool) (parentoptions : list DefElem)
    (parentaccessmethod : option string)
    (penc_cls : list ColumnReferenceStorageDirective)
    (elem : GpPartDefElem SubPartDef) (pc : partname_comp)
    (parts : list (CreateStmt Datum SubPartDef)) (pc' : partname_comp) :
  expand_elem cat fuel parentname key subPartSpec isSubTemplate parentoptions
              parentaccessmethod penc_cls elem pc = Ok (parts, pc') ->
  exists tn opts,
    extract_tablename_from_options (options elem) = Ok (tn, opts) /\
    (forall stmt, In stmt parts ->
       stmt_options stmt = match opts with [] => parentoptions | _ :: _ => opts end /\
       stmt_tablespacename stmt = tablespacename elem) /\
    ((List.length (filter is_tablename (options elem)) <= 1)%nat ->
     Forall (fun d => is_tablename d = false) parentoptions ->
     forall stmt, In stmt parts ->
       Forall (fun d => is_tablename d = false) (stmt_options stmt)).
Proof.
  unfold expand_elem. intros H.
  destruct (match subPartSpec with
            | Some sp =>
                match (if isSubTemplate then gpPartDef sp else subSpec elem) with
                | Some _ =>
                    Ok (Some {| gpPartDef := if isSubTemplate then gpPartDef sp
                                             else subSpec elem |})
                | None => Err NoPartitionsAtDepth
                end
            | None => Ok None
            end) as [tmp | err]; simpl in H; [| discriminate].
  unfold prepare_elem in H.
  destruct (extract_tablename_from_options (options elem)) as [[tn opts] | err] eqn:Eopts;
    simpl in H; [| discriminate].
  destruct (if is_aoco (resolved_accessMethod elem parentaccessmethod)
            then merge_partition_encoding (colencs elem) penc_cls
            else Ok (colencs elem)) as [encs | err];
    simpl in H; [| discriminate].
  set (elem' := {| partName := partName elem; boundSpec := boundSpec elem;
                   subSpec := subSpec elem; isDefault := isDefault elem;
                   options := match opts with [] => parentoptions | _ :: _ => opts end;
                   accessMethod := resolved_accessMethod elem parentaccessmethod;
                   tablespacename := tablespacename elem; colencs := encs |}) in *.
  assert (Hall : Forall (fun s => stmt_options s = options elem' /\
                                  stmt_tablespacename s = tablespacename elem') parts).
  { destruct (isDefault elem).
    - unfold generateDefaultPartition, makePartitionCreateStmt in H. simpl in H.
      destruct tn; inversion H; subst;
        (apply Forall_cons; [split; reflexivity | apply Forall_nil]).
    - destruct (strategy key); try discriminate.
      + unfold generateRangePartitions in H.
        destruct (boundSpec elem') as [[spec | l |] |]; try discriminate.
        destruct (negb (Nat.eqb (partnatts key) 1)); try discriminate.
        destruct (range_start key spec) as [start | err]; simpl in H; try discriminate.
        destruct (range_end key spec) as [ei | err]; simpl in H; try discriminate.
        destruct (range_every key _ spec) as [every | err]; simpl in H; try discriminate.
        destruct (initPartEveryIterator cat start (fst ei) (snd ei) every)
          as [iter | err]; simpl in H; try discriminate.
        eapply range_loop_options; [| exact H]. constructor.
      + unfold generateListPartition in H.
        destruct (boundSpec elem') as [[spec | l |] |]; try discriminate.
        destruct (collect_listdatums (partValues l) []) as [ld | err]; simpl in H;
          try discriminate.
        destruct (transformPartitionBound cat _) as [b | err]; simpl in H;
          try discriminate.
        unfold makePartitionCreateStmt in H. simpl in H.
        destruct tn; inversion H; subst;
          (apply Forall_cons; [split; reflexivity | apply Forall_nil]). }
  rewrite Forall_forall in Hall.
  exists tn, opts. split; [reflexivity |]. split.
  - intros stmt Hin. apply (Hall stmt Hin).
  - intros Hone Hparent stmt Hin.
    destruct (Hall stmt Hin) as [Ho _]. rewrite Ho. simpl.
    pose proof (extract_tablename_leaves_none _ _ _ Hone Eopts) as Hclean.
    destruct opts; assumption.
Qed.

(** ** NULL bounds, the DEFAULT partition's number, sub-partition specs *)

Lemma expand_elems_head (fuel : nat) (parentname : string) (key : PartitionKeyData)
    (subPartSpec : option (PartitionSpec SubPartDef)) (isSubTemplate : bool)
    (parentoptions : list DefElem) (parentaccessmethod : option string)
    (penc_cls : list ColumnReferenceStorageDirective)
    (elem : GpPartDefElem SubPartDef) (rest : list (GpPartDefElem SubPartDef))
    (pc : partname_comp) (out : list (CreateStmt Datum SubPartDef)) :
  expand_elems cat fuel parentname key subPartSpec isSubTemplate parentoptions
               parentaccessmethod penc_cls (elem :: rest) pc [] = Ok out ->
  exists parts pc1 more,
    expand_elem cat fuel parentname key subPartSpec isSubTemplate parentoptions
                parentaccessmethod penc_cls elem pc = Ok (parts, pc1) /\
    out = parts ++ more.
Proof.
  intros H. simpl in H.
  destruct (expand_elem cat fuel parentname key subPartSpec isSubTemplate parentoptions
              parentaccessmethod penc_cls elem pc) as [[parts pc1] | err] eqn:E;
    simpl in H; [| discriminate].
  destruct (expand_elems_concat Datum SubPartDef cat _ _ _ _ _ _ _ _ _ _ _ _ H)
    as [more [Hout _]].
  exists parts, pc1, (List.concat more). split; [reflexivity | exact Hout].
Qed.

(** X23: the DEFAULT partition is always generated first and takes number 1,
    wherever the command lists it: when the expansion succeeds and the
    command has a DEFAULT element, the first generated statement is its
    DEFAULT statement, and unless a tablename option overrides it, its name
    is chosen from the element's name and the number 1. *)
Theorem default_partition_is_number_one (fuel : nat) (parentname : string)
    (key : PartitionKeyData) (nancestors : nat)
    (gpPartSpec : GpPartitionDefinition SubPartDef)
    (subPartSpec : option (PartitionSpec SubPartDef)) (parentoptions : list DefElem)
    (parentaccessmethod : option string) (parentattenc : list (DefItem SubPartDef))
    (generated : list (CreateStmt Datum SubPartDef)) (d : GpPartDefElem SubPartDef) :
  generated_stmts cat istemplate fuel parentname key nancestors gpPartSpec subPartSpec
                  parentoptions parentaccessmethod parentattenc = Ok generated ->
  In d (def_elems (partDefElems gpPartSpec)) ->
  isDefault d = true ->
  exists stmt,
    hd_error generated = Some stmt /\
    is_default (partbound stmt) = true /\
    lowerdatums (partbound stmt) = [] /\ upperdatums (partbound stmt) = [] /\
    (forall opts,
        extract_tablename_from_options (options d) = Ok (None, opts) ->
        relation stmt
        = ChoosePartitionName cat parentname
            (snprintf_name (format_int (Z.of_nat nancestors + 1))) (partName d) 1).
Proof.
  intros Hgen Hin Hd. unfold generated_stmts in Hgen.
  destruct (extract_tablename_from_options parentoptions) as [[tn0 popts] | err];
    simpl in Hgen; [| discriminate].
  destruct (merge_partition_encoding (storage_directives (partDefElems gpPartSpec))
              (storage_directives parentattenc)) as [penc | err];
    simpl in Hgen; [| discriminate].
  destruct (default_first (partDefElems gpPartSpec) None []) as [elems | err] eqn:Ed;
    simpl in Hgen; [| discriminate].
  assert (Hhead : exists rest, elems = d :: rest).
  { destruct (le_dec (List.length (filter (@isDefault _)
                                      (def_elems (partDefElems gpPartSpec)))) 1)
      as [Hone | Hmany].
    - rewrite (default_first_at_most_one (partDefElems gpPartSpec) [] Hone) in Ed.
      injection Ed as Helems.
      pose proof (processing_order_head (partDefElems gpPartSpec) d Hone Hin Hd) as Hhd.
      unfold processing_order in Hhd. simpl in Helems. rewrite Helems in Hhd.
      destruct elems as [| e rest]; [discriminate |].
      simpl in Hhd. injection Hhd as ->. exists rest. reflexivity.
    - rewrite (default_first_two_defaults (partDefElems gpPartSpec) []) in Ed
        by lia. discriminate. }
  destruct Hhead as [rest ->].
  destruct (expand_elems_head _ _ _ _ _ _ _ _ _ _ _ _ Hgen)
    as [parts [pc1 [more [E ->]]]].
  unfold expand_elem in E.
  destruct (match subPartSpec with
            | Some sp =>
                match (if match subPartSpec with
                           | Some sp0 =>
                               match gpPartDef sp0 with
                               | Some d0 => istemplate d0
                               | None => false
                               end
                           | None => false
                           end then gpPartDef sp else subSpec d) with
                | Some _ => Ok (Some {| gpPartDef := _ |})
                | None => Err NoPartitionsAtDepth
                end
            | None => Ok None
            end) as [tmp | err]; simpl in E; [| discriminate].
  unfold prepare_elem in E.
  destruct (extract_tablename_from_options (options d)) as [[tn opts] | err] eqn:Eopts;
    simpl in E; [| discriminate].
  destruct (if is_aoco (resolved_accessMethod d parentaccessmethod)
            then merge_partition_encoding (colencs d) penc
            else Ok (colencs d)) as [encs | err];
    simpl in E; [| discriminate].
  rewrite Hd in E.
  unfold generateDefaultPartition, makePartitionCreateStmt in E. simpl in E.
  destruct tn as [t |]; inversion E; subst parts; simpl;
    (eexists; split; [reflexivity |]); simpl; repeat split.
  intros opts0 H0. discriminate.
Qed.

Lemma range_loop_partspec (parentname : string) (elem : GpPartDefElem SubPartDef)
    (subPart : option (PartitionSpec SubPartDef)) (has_start has_end has_every : bool) :
  forall fuel iter i pc result out pc',
    Forall (fun s => partspec s = subPart /\ inhRelations s = [parentname]) result ->
    range_loop cat fuel parentname elem subPart has_start has_end has_every iter i pc result
    = Ok (out, pc') ->
    Forall (fun s => partspec s = subPart /\ inhRelations s = [parentname]) out.
Proof.
  induction fuel as [| fuel IH]; intros iter i pc result out pc' Hres Hrun;
    [discriminate |].
  simpl in Hrun.
  destruct (nextPartBound cat iter) as [[[|] iter'] | err]; simpl in Hrun;
    try discriminate.
  - eapply IH; [| exact Hrun].
    apply Forall_app. split; [exact Hres |].
    apply Forall_cons; [| apply Forall_nil].
    unfold makePartitionCreateStmt. destruct (tablename pc); simpl; split; reflexivity.
  - inversion Hrun; subst. exact Hres.
Qed.

(** X24: what each statement carries for the next level.  With a
    sub-partition specification, every statement expanded from an element
    carries a copy whose definition is the template when there is one and
    the element's own sub-specification otherwise, and that definition is
    never missing; without one, no statement carries any.  Every statement
    inherits from the parent alone. *)
Theorem expand_elem_subpartition (fuel : nat) (parentname : string)
    (key : PartitionKeyData) (subPartSpec : option (PartitionSpec SubPartDef))
    (isSubTemplate : bool) (parentoptions : list DefElem)
    (parentaccessmethod : option string)
    (penc_cls : list ColumnReferenceStorageDirective)
    (elem : GpPartDefElem SubPartDef) (pc : partname_comp)
    (parts : list (CreateStmt Datum SubPartDef)) (pc' : partname_comp) :
  expand_elem cat fuel parentname key subPartSpec isSubTemplate parentoptions
              parentaccessmethod penc_cls elem pc = Ok (parts, pc') ->
  forall stmt, In stmt parts ->
    inhRelations stmt = [parentname] /\
    match subPartSpec with
    | None => partspec stmt = None
    | Some sp =>
        exists def,
          (if isSubTemplate then gpPartDef sp else subSpec elem) = Some def /\
          partspec stmt = Some {| gpPartDef := Some def |}
    end.
Proof.
  unfold expand_elem. intros H stmt Hin.
  assert (Hcase : exists tmp,
             match subPartSpec with
             | None => tmp = None
             | Some sp =>
                 exists def,
                   (if isSubTemplate then gpPartDef sp else subSpec elem) = Some def /\
                   tmp = Some {| gpPartDef := Some def |}
             end /\
             Forall (fun s => partspec s = tmp /\ inhRelations s = [parentname]) parts).
  { destruct subPartSpec as [sp |].
    - destruct (if isSubTemplate then gpPartDef sp else subSpec elem) as [def |] eqn:Edef;
        simpl in H; [| discriminate].
      eexists. split; [exists def; split; reflexivity |].
      destruct (prepare_elem parentoptions parentaccessmethod penc_cls elem)
        as [[tn elem'] | err]; simpl in H; [| discriminate].
      destruct (isDefault elem').
      + unfold generateDefaultPartition, makePartitionCreateStmt in H. simpl in H.
        destruct tn; inversion H; subst;
          (apply Forall_cons; [split; reflexivity | apply Forall_nil]).
      + destruct (strategy key); try discriminate.
        * unfold generateRangePartitions in H.
          destruct (boundSpec elem') as [[spec | l |] |]; try discriminate.
          destruct (negb (Nat.eqb (partnatts key) 1)); try discriminate.
          destruct (range_start key spec) as [start | err]; simpl in H; try discriminate.
          destruct (range_end key spec) as [ei | err]; simpl in H; try discriminate.
          destruct (range_every key _ spec) as [every | err]; simpl in H;
            try discriminate.
          destruct (initPartEveryIterator cat start (fst ei) (snd ei) every)
            as [iter | err]; simpl in H; try discriminate.
          eapply range_loop_partspec; [| exact H]. constructor.
        * unfold generateListPartition in H.
          destruct (boundSpec elem') as [[spec | l |] |]; try discriminate.
          destruct (collect_listdatums (partValues l) []) as [ld | err]; simpl in H;
            try discriminate.
          destruct (transformPartitionBound cat _) as [b | err]; simpl in H;
            try discriminate.
          unfold makePartitionCreateStmt in H. simpl in H.
          destruct tn; inversion H; subst;
            (apply Forall_cons; [split; reflexivity | apply Forall_nil]).
    - simpl in H. exists None. split; [reflexivity |].
      destruct (prepare_elem parentoptions parentaccessmethod penc_cls elem)
        as [[tn elem'] | err]; simpl in H; [| discriminate].
      destruct (isDefault elem').
      + unfold generateDefaultPartition, makePartitionCreateStmt in H. simpl in H.
        destruct tn; inversion H; subst;
          (apply Forall_cons; [split; reflexivity | apply Forall_nil]).
      + destruct (strategy key); try discriminate.
        * unfold generateRangePartitions in H.
          destruct (boundSpec elem') as [[spec | l |] |]; try discriminate.
          destruct (negb (Nat.eqb (partnatts key) 1)); try discriminate.
          destruct (range_start key spec) as [start | err]; simpl in H; try discriminate.
          destruct (range_end key spec) as [ei | err]; simpl in H; try discriminate.
          destruct (range_every key _ spec) as [every | err]; simpl in H;
            try discriminate.
          destruct (initPartEveryIterator cat start (fst ei) (snd ei) every)
            as [iter | err]; simpl in H; try discriminate.
          eapply range_loop_partspec; [| exact H]. constructor.
        * unfold generateListPartition in H.
          destruct (boundSpec elem') as [[spec | l |] |]; try discriminate.
          destruct (collect_listdatums (partValues l) []) as [ld | err]; simpl in H;
            try discriminate.
          destruct (transformPartitionBound cat _) as [b | err]; simpl in H;
            try discriminate.
          unfold makePartitionCreateStmt in H. simpl in H.
          destruct tn; inversion H; subst;
            (apply Forall_cons; [split; reflexivity | apply Forall_nil]). }
  destruct Hcase as [tmp [Htmp Hall]].
  rewrite Forall_forall in Hall. destruct (Hall stmt Hin) as [Hp Hi].
  split; [exact Hi |].
  destruct subPartSpec as [sp |].
  - destruct Htmp as [def [Hdef ->]]. exists def. split; assumption.
  - subst tmp. exact Hp.
Qed.

End FurtherFacts.

(** * The further properties at concrete inputs *)

Lemma extract_tablename_absent_witness :
  extract_tablename_from_options [fillfactor_option "70"]
  = Ok (None, [fillfactor_option "70"]).
Proof.
  apply (extract_tablename_absent [fillfactor_option "70"]).
  repeat constructor.
Defined.

(** A second "tablename" entry stays among the options. *)
Lemma extract_tablename_first_only_witness :
  extract_tablename_from_options
    ([fillfactor_option "70"]
       ++ {| defname := "tablename"; arg := T_String "first" |}
       :: [tablename_option "second"])
  = Ok (Some "first", [fillfactor_option "70"] ++ [tablename_option "second"]).
Proof.
  apply (extract_tablename_first_only [fillfactor_option "70"] [tablename_option "second"]
           "first").
  repeat constructor.
Defined.

Lemma extract_tablename_not_string_witness :
  extract_tablename_from_options
    ([fillfactor_option "70"]
       ++ {| defname := "tablename"; arg := T_OtherArg "legacy" |}
       :: [tablename_option "second"])
  = Err InvalidTablenameSpecification.
Proof.
  apply (extract_tablename_not_string [fillfactor_option "70"] [tablename_option "second"]
           "legacy").
  repeat constructor.
Defined.

Lemma merge_partition_encoding_two_defaults_witness :
  merge_partition_encoding [column_encoding "a" "zlib"]
                           [default_encoding "zlib"; default_encoding "none"]
  = Err MultipleDefaultEncodings.
Proof.
  apply (merge_partition_encoding_two_defaults
           [column_encoding "a" "zlib"] [default_encoding "zlib"; default_encoding "none"]);
    try discriminate.
  right. unfold at_most_one_default. simpl. lia.
Defined.

Lemma merge_partition_encoding_keeps_element_witness :
  exists added,
    [column_encoding "a" "zlib"; column_encoding "b" "rle_type"; default_encoding "none"]
    = [column_encoding "a" "zlib"] ++ added /\
    incl added [column_encoding "a" "rle_type"; column_encoding "b" "rle_type";
                default_encoding "none"].
Proof.
  apply (merge_partition_encoding_keeps_element
           [column_encoding "a" "zlib"]
           [column_encoding "a" "rle_type"; column_encoding "b" "rle_type";
            default_encoding "none"]
           [column_encoding "a" "zlib"; column_encoding "b" "rle_type";
            default_encoding "none"]).
  reflexivity.
Defined.

Lemma merge_partition_encoding_idempotent_witness :
  merge_partition_encoding
    [column_encoding "a" "zlib"; column_encoding "b" "rle_type"; default_encoding "none"]
    [column_encoding "a" "rle_type"; column_encoding "b" "rle_type"; default_encoding "none"]
  = Ok [column_encoding "a" "zlib"; column_encoding "b" "rle_type"; default_encoding "none"].
Proof.
  apply (merge_partition_encoding_idempotent
           [column_encoding "a" "zlib"]
           [column_encoding "a" "rle_type"; column_encoding "b" "rle_type";
            default_encoding "none"]
           [column_encoding "a" "zlib"; column_encoding "b" "rle_type";
            default_encoding "none"]);
    try reflexivity; unfold at_most_one_default; simpl; lia.
Defined.

(** Declared as [a], DEFAULT [d], a column encoding, [b]. *)
Lemma default_first_rearranges_witness :
  exists elems,
    default_first
      [T_GpPartDefElem (range_elem (Some "a") (Some 10) (Some 20) [] []);
       T_GpPartDefElem (default_elem "d");
       T_ColumnReferenceStorageDirective unit (column_encoding "a" "zlib");
       T_GpPartDefElem (range_elem (Some "b") (Some 1) (Some 10) [] [])] None []
    = Ok elems /\
    Permutation elems
      (def_elems
         [T_GpPartDefElem (range_elem (Some "a") (Some 10) (Some 20) [] []);
          T_GpPartDefElem (default_elem "d");
          T_ColumnReferenceStorageDirective unit (column_encoding "a" "zlib");
          T_GpPartDefElem (range_elem (Some "b") (Some 1) (Some 10) [] [])]) /\
    filter (fun e => negb (isDefault e)) elems
    = filter (fun e => negb (isDefault e))
        (def_elems
           [T_GpPartDefElem (range_elem (Some "a") (Some 10) (Some 20) [] []);
            T_GpPartDefElem (default_elem "d");
            T_ColumnReferenceStorageDirective unit (column_encoding "a" "zlib");
            T_GpPartDefElem (range_elem (Some "b") (Some 1) (Some 10) [] [])]) /\
    (forall d,
        In d (def_elems
                [T_GpPartDefElem (range_elem (Some "a") (Some 10) (Some 20) [] []);
                 T_GpPartDefElem (default_elem "d");
                 T_ColumnReferenceStorageDirective unit (column_encoding "a" "zlib");
                 T_GpPartDefElem (range_elem (Some "b") (Some 1) (Some 10) [] [])]) ->
        isDefault d = true -> hd_error elems = Some d).
Proof.
  apply (default_first_rearranges unit
           [T_GpPartDefElem (range_elem (Some "a") (Some 10) (Some 20) [] []);
            T_GpPartDefElem (default_elem "d");
            T_ColumnReferenceStorageDirective unit (column_encoding "a" "zlib");
            T_GpPartDefElem (range_elem (Some "b") (Some 1) (Some 10) [] [])]).
  simpl. lia.
Defined.

Lemma generatePartitions_two_defaults_witness :
  generatePartitions catalog no_template 5 "t" range_key 0
    {| partDefElems := [T_GpPartDefElem (default_elem "d1");
                        T_GpPartDefElem (range_elem (Some "a") (Some 1) (Some 10) [] []);
                        T_GpPartDefElem (default_elem "d2")] |}
    None [] None []
  = Err MultipleDefaultPartitions.
Proof.
  apply (generatePartitions_two_defaults Z unit catalog no_template 5 "t" range_key 0
           {| partDefElems := [T_GpPartDefElem (default_elem "d1");
                               T_GpPartDefElem (range_elem (Some "a") (Some 1) (Some 10) [] []);
                               T_GpPartDefElem (default_elem "d2")] |}
           None [] None [] None [] []);
    [reflexivity | reflexivity | simpl; lia].
Defined.

(** A LIST element with the tuple (1, 2). *)
Lemma generateListPartition_arity_witness :
  generateListPartition catalog "t"
    {| partName := Some "a";
       boundSpec := Some (T_GpPartitionListSpec
                            {| partValues := [[A_Const_Integer 1; A_Const_Integer 2]] |});
       subSpec := None; isDefault := false; options := [];
       accessMethod := None; tablespacename := None; colencs := [] |}
    None top_partcomp
  = Err InvalidBoundaryArity.
Proof.
  apply (generateListPartition_arity Z unit catalog "t"
           {| partName := Some "a";
              boundSpec := Some (T_GpPartitionListSpec
                                   {| partValues := [[A_Const_Integer 1; A_Const_Integer 2]] |});
              subSpec := None; isDefault := false; options := [];
              accessMethod := None; tablespacename := None; colencs := [] |}
           None top_partcomp
           {| partValues := [[A_Const_Integer 1; A_Const_Integer 2]] |});
    [reflexivity |].
  apply Exists_cons_hd. simpl. lia.
Defined.

Lemma generateListPartition_single_witness :
  exists stmt pc',
    generateListPartition catalog "t" (list_elem "a" 2) None top_partcomp
    = Ok ([stmt], pc') /\
    partbound stmt
    = {| bound_strategy := Some PARTITION_STRATEGY_LIST; is_default := false;
         listdatums := [T_Const 2 false]; lowerdatums := []; upperdatums := [] |} /\
    stmt_options stmt = options (list_elem "a" 2) /\
    attr_encodings stmt = colencs (list_elem "a" 2).
Proof.
  apply (generateListPartition_single Z unit catalog "t" (list_elem "a" 2) None top_partcomp
           {| partValues := [[A_Const_Integer 2]] |}
           {| bound_strategy := Some PARTITION_STRATEGY_LIST; is_default := false;
              listdatums := [T_Const 2 false]; lowerdatums := []; upperdatums := [] |});
    try reflexivity.
  repeat constructor.
Defined.

Lemma generatePartitions_list_count_witness :
  exists returned,
    generatePartitions catalog no_template 0 "t" list_key 0
      {| partDefElems := [T_GpPartDefElem (list_elem "a" 2);
                          T_GpPartDefElem (default_elem "d");
                          T_GpPartDefElem (list_elem "b" 1)] |}
      None [] None [] = Ok returned /\
    List.length returned
    = List.length
        (def_elems
           (partDefElems
              {| partDefElems := [T_GpPartDefElem (list_elem "a" 2);
                                  T_GpPartDefElem (default_elem "d");
                                  T_GpPartDefElem (list_elem "b" 1)] |})).
Proof.
  eexists. split; [reflexivity |].
  eapply (generatePartitions_list_count Z unit catalog no_template 0 "t" list_key 0
            {| partDefElems := [T_GpPartDefElem (list_elem "a" 2);
                                T_GpPartDefElem (default_elem "d");
                                T_GpPartDefElem (list_elem "b" 1)] |}
            None [] None []);
    reflexivity.
Defined.

(** The first call for START (1) END (10) EVERY (4). *)
Lemma nextPartBound_progress_witness :
  true = true /\
  1 = 1 /\
  10 = 10 /\
  ((false = true /\ 5 = 10) \/
   (false = false /\
    int_plus 1 4 = Ok (Some 5) /\
    partsupfunc catalog 0 1 5 < 0 /\
    partsupfunc catalog 0 5 10 < 0)).
Proof.
  apply (nextPartBound_progress Z unit catalog
           {| endVal := 10; plusexprstate := Some (fun param => int_plus param 4);
              currStart := 0; currEnd := 1; called := false; endReached := false |}
           (fun param => int_plus param 4) true
           {| endVal := 10; plusexprstate := Some (fun param => int_plus param 4);
              currStart := 1; currEnd := 5; called := true; endReached := false |});
    reflexivity.
Defined.

Lemma every_partitions_tile_range_witness :
  exists stmts pc',
    generateRangePartitions catalog 4 "t" range_key
      (elem_of_spec None (one_to_ten_every 4) None []) None top_partcomp = Ok (stmts, pc') /\
    tiles catalog 1 (map (@stmt_bounds _ _) stmts) 10.
Proof.
  eexists. eexists. split; [reflexivity |].
  eapply (every_partitions_tile_range Z unit catalog 4 "t" range_key
            (elem_of_spec None (one_to_ten_every 4) None []) None top_partcomp
            (one_to_ten_every 4) (item 1 PART_EDGE_UNSPECIFIED)
            (item 10 PART_EDGE_UNSPECIFIED)
            (A_Const_Integer 1) (A_Const_Integer 10) (A_Const_Integer 4)
            1 10 10 (fun param => int_plus param 4));
    reflexivity.
Defined.


(** START (1) alone: one statement with no upper bound. *)
Lemma no_every_single_partition_witness :
  generateRangePartitions catalog 2 "t" range_key
    (elem_of_spec None
       {| partStart := Some (item 1 PART_EDGE_UNSPECIFIED); partEnd := None;
          partEvery := [] |} None [])
    None top_partcomp
  = Ok ([ {| relation := "t_1_prt_1";
             inhRelations := ["t"];
             partbound :=
               {| bound_strategy := Some PARTITION_STRATEGY_RANGE;
                  is_default := false;
                  listdatums := [];
                  lowerdatums := [T_Const 1 false];
                  upperdatums := [] |};
             partspec := None;
             stmt_options := [];
             stmt_tablespacename := None;
             stmt_accessMethod := None;
             attr_encodings := [] |} ],
        {| tablename := None; level := 1; partnum := 1 |}).
Proof.
  apply (no_every_single_partition Z unit catalog 0 "t" range_key
           (elem_of_spec None
              {| partStart := Some (item 1 PART_EDGE_UNSPECIFIED); partEnd := None;
                 partEvery := [] |} None [])
           None top_partcomp
           {| partStart := Some (item 1 PART_EDGE_UNSPECIFIED); partEnd := None;
              partEvery := [] |}
           {| endVal := 0; plusexprstate := None; currStart := 0; currEnd := 1;
              called := false; endReached := false |});
    try reflexivity.
  - intros it H. inversion H. reflexivity.
  - intros it H. discriminate.
Defined.

(** Two columns: (1, 5) against (1, 7) is decided by the second column. *)
Lemma compare_columns_lexicographic_witness :
  (1%nat = 2%nat ->
   compare_columns catalog [const 1; const 5] [const 1; const 7] 0 2 = Ok 0) /\
  (forall x y,
      (1 < 2)%nat ->
      nth_constvalue [const 1; const 5] 1 = Ok x ->
      nth_constvalue [const 1; const 7] 1 = Ok y ->
      partsupfunc catalog 1 x y <> 0 ->
      compare_columns catalog [const 1; const 5] [const 1; const 7] 0 2
      = Ok (partsupfunc catalog 1 x y)).
Proof.
  apply (compare_columns_lexicographic Z unit catalog
           [const 1; const 5] [const 1; const 7] 1 2).
  - intros j Hj. assert (j = 0%nat) by lia. subst j.
    exists 1, 1. repeat split.
  - lia.
Defined.

(** [1, 5) against [7, 10). *)
Lemma qsort_stmt_cmp_antisymmetric_witness :
  exists c',
    qsort_stmt_cmp catalog range_key (range_stmt "p2" [const 7] [const 10])
                   (range_stmt "p1" [const 1] [const 5]) = Ok c' /\
    (-1 < 0 <-> c' > 0) /\ (-1 > 0 <-> c' < 0).
Proof.
  apply (qsort_stmt_cmp_antisymmetric Z unit catalog range_key
           (range_stmt "p1" [const 1] [const 5]) (range_stmt "p2" [const 7] [const 10])
           (-1)).
  - intros j x y. apply btintcmp_flip.
  - right. left. split; discriminate.
  - reflexivity.
Defined.

(** START (1) only, then START (10) only. *)
Lemma deduce_walk_resolves_all_witness :
  Forall (fun s' => lowerdatums (partbound s') <> [] /\ upperdatums (partbound s') <> [])
         (deduce_walk None [range_stmt "s1" [const 1] []; range_stmt "s10" [const 10] []]).
Proof.
  apply Forall_forall.
  apply (deduce_walk_resolves_all Z unit
           [range_stmt "s1" [const 1] []; range_stmt "s10" [const 10] []]).
  intros i s t Hs Ht.
  destruct i as [| [| i]]; simpl in Hs, Ht; try discriminate.
  inversion Ht. right. discriminate.
Defined.

(** START (1) only, then END (10) only. *)
Lemma deduce_walk_unresolved_junction_witness :
  exists s' t',
    nth_error (deduce_walk None [range_stmt "s" [const 1] []; range_stmt "e" [] [const 10]]) 0
    = Some s' /\
    nth_error (deduce_walk None [range_stmt "s" [const 1] []; range_stmt "e" [] [const 10]]) 1
    = Some t' /\
    upperdatums (partbound s') = [] /\ lowerdatums (partbound t') = [].
Proof.
  eexists. eexists. split; [reflexivity |]. split; [reflexivity |].
  eapply (deduce_walk_unresolved_junction Z unit
            [range_stmt "s" [const 1] []; range_stmt "e" [] [const 10]] None 0
            (range_stmt "s" [const 1] []) (range_stmt "e" [] [const 10]));
    reflexivity.
Defined.

(** START (1) END (10) EVERY (4) on the element named [p]. *)
Lemma generateRangePartitions_numbering_witness :
  exists stmts pc',
    generateRangePartitions catalog 4 "t" range_key
      (elem_of_spec (Some "p") (one_to_ten_every 4) None []) None top_partcomp
    = Ok (stmts, pc') /\
    map (@relation _ _) stmts = ["t_1_prt_p_1"; "t_1_prt_p_2"; "t_1_prt_p_3"] /\
    tablename pc' = None /\
    level pc' = level top_partcomp /\
    partnum pc' = partnum top_partcomp + Z.of_nat (List.length stmts) /\
    exists every,
      range_every range_key top_partcomp (one_to_ten_every 4) = Ok every /\
      forall k stmt,
        nth_error stmts k = Some stmt ->
        relation stmt
        = ChoosePartitionName catalog "t" (snprintf_name (format_int (level top_partcomp)))
            (fst (range_partname (is_some every)
                    (elem_of_spec (Some "p") (one_to_ten_every 4) None []) (Z.of_nat k)))
            (partnum top_partcomp + 1 + Z.of_nat k).
Proof.
  eexists. eexists. split; [reflexivity |]. split; [reflexivity |].
  eapply (generateRangePartitions_numbering Z unit catalog 4 "t" range_key
            (elem_of_spec (Some "p") (one_to_ten_every 4) None []) None top_partcomp
            (one_to_ten_every 4));
    reflexivity.
Defined.

(** An element whose only option is the tablename, under a parent with a
    fillfactor. *)
Lemma expand_elem_options_witness :
  exists parts pc',
    expand_elem catalog 2 "t" range_key None false [fillfactor_option "70"] None []
      (range_elem (Some "p") (Some 1) (Some 10) [] [tablename_option "legacy"])
      top_partcomp = Ok (parts, pc') /\
    map (@stmt_options _ _) parts = [[fillfactor_option "70"]] /\
    exists tn opts,
      extract_tablename_from_options
        (options (range_elem (Some "p") (Some 1) (Some 10) [] [tablename_option "legacy"]))
      = Ok (tn, opts) /\
      (forall stmt, In stmt parts ->
         stmt_options stmt
         = match opts with [] => [fillfactor_option "70"] | _ :: _ => opts end /\
         stmt_tablespacename stmt
         = tablespacename
             (range_elem (Some "p") (Some 1) (Some 10) [] [tablename_option "legacy"])) /\
      (le (List.length
             (filter is_tablename
                (options (range_elem (Some "p") (Some 1) (Some 10) []
                                     [tablename_option "legacy"]))))
          1%nat ->
       Forall (fun d => is_tablename d = false) [fillfactor_option "70"] ->
       forall stmt, In stmt parts ->
         Forall (fun d => is_tablename d = false) (stmt_options stmt)).
Proof.
  eexists. eexists. split; [reflexivity |]. split; [reflexivity |].
  eapply (expand_elem_options Z unit catalog 2 "t" range_key None false
            [fillfactor_option "70"] None []
            (range_elem (Some "p") (Some 1) (Some 10) [] [tablename_option "legacy"])
            top_partcomp).
  reflexivity.
Defined.

(** Two "tablename" entries: the second one reaches the statement. *)
Example second_tablename_leaks_example :
  exists parts pc',
    expand_elem catalog 2 "t" range_key None false [] None []
      (range_elem (Some "p") (Some 1) (Some 10) []
                  [tablename_option "first"; tablename_option "second"])
      top_partcomp = Ok (parts, pc') /\
    map (@relation _ _) parts = ["first"] /\
    map (@stmt_options _ _) parts = [[tablename_option "second"]].
Proof. eexists. eexists. split; [reflexivity |]. split; reflexivity. Qed.

(** Declared as [a], DEFAULT [d], [b] on a RANGE key. *)
Lemma default_partition_is_number_one_witness :
  exists generated,
    generated_stmts catalog no_template 5 "t" range_key 0
      {| partDefElems := [T_GpPartDefElem (range_elem None (Some 10) (Some 20) [] []);
                          T_GpPartDefElem (default_elem "d");
                          T_GpPartDefElem (range_elem None (Some 1) (Some 10) [] [])] |}
      None [] None [] = Ok generated /\
    map (@relation _ _) generated = ["t_1_prt_d"; "t_1_prt_2"; "t_1_prt_3"] /\
    exists stmt,
      hd_error generated = Some stmt /\
      is_default (partbound stmt) = true /\
      lowerdatums (partbound stmt) = [] /\ upperdatums (partbound stmt) = [] /\
      (forall opts,
          extract_tablename_from_options (options (default_elem "d")) = Ok (None, opts) ->
          relation stmt
          = ChoosePartitionName catalog "t"
              (snprintf_name (format_int (Z.of_nat 0 + 1))) (partName (default_elem "d")) 1).
Proof.
  eexists. split; [reflexivity |]. split; [reflexivity |].
  eapply (default_partition_is_number_one Z unit catalog no_template 5 "t" range_key 0
            {| partDefElems := [T_GpPartDefElem (range_elem None (Some 10) (Some 20) [] []);
                                T_GpPartDefElem (default_elem "d");
                                T_GpPartDefElem (range_elem None (Some 1) (Some 10) [] [])] |}
            None [] None [] _ (default_elem "d")).
  - reflexivity.
  - simpl. right. left. reflexivity.
  - reflexivity.
Defined.

(** An element with its own sub-specification, under a sub-partition
    specification that is not a template. *)
Lemma expand_elem_subpartition_witness :
  exists parts pc',
    expand_elem catalog 2 "t" range_key (Some {| gpPartDef := None |}) false [] None []
      {| partName := Some "p";
         boundSpec := Some (T_GpPartitionRangeSpec
                              {| partStart := Some (item 1 PART_EDGE_UNSPECIFIED);
                                 partEnd := Some (item 10 PART_EDGE_UNSPECIFIED);
                                 partEvery := [] |});
         subSpec := Some tt; isDefault := false; options := [];
         accessMethod := None; tablespacename := None; colencs := [] |}
      top_partcomp = Ok (parts, pc') /\
    List.length parts = 1%nat /\
    forall stmt, In stmt parts ->
      inhRelations stmt = ["t"] /\
      exists def,
        Some tt = Some def /\
        partspec stmt = Some {| gpPartDef := Some def |}.
Proof.
  eexists. eexists. split; [reflexivity |]. split; [reflexivity |].
  eapply (expand_elem_subpartition Z unit catalog 2 "t" range_key
            (Some {| gpPartDef := None |}) false [] None []
            {| partName := Some "p";
               boundSpec := Some (T_GpPartitionRangeSpec
                                    {| partStart := Some (item 1 PART_EDGE_UNSPECIFIED);
                                       partEnd := Some (item 10 PART_EDGE_UNSPECIFIED);
                                       partEvery := [] |});
               subSpec := Some tt; isDefault := false; options := [];
               accessMethod := None; tablespacename := None; colencs := [] |}
            top_partcomp).
  reflexivity.
Defined.
